(** * Lead-Radar: crawl orchestration and lead-merging engine

    A shallow embedding of [lead_radar_unified.py] (identity key, merge
    engine, scorer, rate-limited fetcher, enrichment walker, scan
    orchestrator, source adapters, lead listing and the row selection of
    the export) together with the properties stated about it.

    Conventions of the embedding.
    - Python [str] values are [string]s; case mapping and whitespace are
      those of ASCII text.
    - Python [float] values are binary64 numbers ([PrimFloat.float]).
    - The dictionary [JOBS] and the fetcher caches, which are only read
      and written by key, are finite maps ([gmap string _]); clock values
      and durations are rationals.
    - Library calls whose code is not part of the repository (urlparse,
      the URL validation of pydantic, requests, BeautifulSoup, regular
      expressions), the scraping helpers
      built on them and the adapters are fields of the records [UrlLib],
      [Net], [Html] and [ScanEnv]; a definition that needs them takes the
      record as an argument, so the theorems hold for every behaviour of
      those parts.
    - The store [LEADS] is a dictionary that keeps insertion order; a
      theorem about "the stores the operations build" quantifies over
      [reachable] stores.
    - Constructing a [Lead] validates its website against [HttpUrl]: the
      constructor raises [ValidationError] on a string that the type does
      not accept, and the loops that upsert candidates end with that
      exception, the store keeping what was merged before it.  An
      assignment to a field of a lead is not validated.
    - The rate of a bucket and the gap computed from it are binary64
      numbers; the gap enters the clock arithmetic by its exact value.
    - The scan orchestrator sees the adapters through [ScanEnv]; the loops
      of the adapters themselves are embedded in [adapter_pages], with the
      reading of a listing page as a parameter.
    - The filters of an export request have values of the types of the
      fields they are compared with ([ExportFilters]); the files the
      export writes are not modelled, the rows and the report sections
      are. *)

From Stdlib Require Import ZArith QArith Qround Floats Lia Lqa List.
From Stdlib Require Import Strings.String Strings.Ascii DecimalString.
From Stdlib Require Import Sorting.Sorted.
From stdpp Require Import base option list gmap strings.

Set Warnings "-inexact-float".

Local Open Scope string_scope.

(* ================================================================== *)
(** ** Python string operations *)

Module PyStr.

(** Characters as code points. *)
Definition code (c : ascii) : N := N_of_ascii c.

Definition is_upper (c : ascii) : bool := (65 <=? code c)%N && (code c <=? 90)%N.
Definition is_lower (c : ascii) : bool := (97 <=? code c)%N && (code c <=? 122)%N.

Definition lower_char (c : ascii) : ascii :=
  if is_upper c then ascii_of_N (code c + 32) else c.
Definition upper_char (c : ascii) : ascii :=
  if is_lower c then ascii_of_N (code c - 32) else c.

(** [s.lower()] and [s.upper()] on ASCII text: the letters A-Z and a-z are
    mapped and every other character is kept as it is; the case mappings
    of the characters outside ASCII are not modelled. *)
Fixpoint lower (s : string) : string :=
  match s with
  | EmptyString => EmptyString
  | String c r => String (lower_char c) (lower r)
  end.

Fixpoint upper (s : string) : string :=
  match s with
  | EmptyString => EmptyString
  | String c r => String (upper_char c) (upper r)
  end.

(** [str.isspace] on ASCII: TAB..CR, FS..US and the blank. *)
Definition is_space (c : ascii) : bool :=
  ((9 <=? code c)%N && (code c <=? 13)%N) || ((28 <=? code c)%N && (code c <=? 32)%N).

(** [s.lstrip(chars)], [s.rstrip(chars)], [s.strip(chars)] for a
    character class [p]. *)
Fixpoint lstrip_by (p : ascii -> bool) (s : string) : string :=
  match s with
  | EmptyString => EmptyString
  | String c r => if p c then lstrip_by p r else s
  end.

Fixpoint rstrip_by (p : ascii -> bool) (s : string) : string :=
  match s with
  | EmptyString => EmptyString
  | String c r =>
      match rstrip_by p r with
      | EmptyString => if p c then EmptyString else String c EmptyString
      | r' => String c r'
      end
  end.

Definition strip_by (p : ascii -> bool) (s : string) : string :=
  rstrip_by p (lstrip_by p s).

(** [s.strip()] *)
Definition strip (s : string) : string := strip_by is_space s.

Definition is_slash (c : ascii) : bool := Ascii.eqb c "/".

(** [s.strip("/")] *)
Definition strip_slashes (s : string) : string := strip_by is_slash s.

(** [s.startswith(p)] *)
Fixpoint startswith (p s : string) : bool :=
  match p, s with
  | EmptyString, _ => true
  | String a p', String b s' => Ascii.eqb a b && startswith p' s'
  | String _ _, EmptyString => false
  end.

(** [s.replace(old, new)] for a non-empty [old]: scan from the left,
    matches do not overlap.  [skip] counts the characters of the current
    match that are still to be dropped. *)
Fixpoint replace_from (old new : string) (skip : nat) (s : string) : string :=
  match s with
  | EmptyString => EmptyString
  | String c r =>
      match skip with
      | S k => replace_from old new k r
      | O =>
          if startswith old s
          then new ++ replace_from old new (String.length old - 1) r
          else String c (replace_from old new 0 r)
      end
  end.

Definition replace (old new s : string) : string := replace_from old new 0 s.

(** [sub in s] *)
Fixpoint contains (sub s : string) : bool :=
  startswith sub s ||
  match s with
  | EmptyString => false
  | String _ r => contains sub r
  end.

(** [sep.join(parts)] *)
Fixpoint join (sep : string) (parts : list string) : string :=
  match parts with
  | [] => ""
  | [p] => p
  | p :: rest => p ++ sep ++ join sep rest
  end.

(** [s[:n]] *)
Fixpoint take (n : nat) (s : string) : string :=
  match n, s with
  | S k, String c r => String c (take k r)
  | _, _ => EmptyString
  end.

(** Truthiness of a string. *)
Definition nonempty (s : string) : bool :=
  match s with EmptyString => false | _ => true end.

(** [a or b] on strings. *)
Definition or_else (a b : string) : string := if nonempty a then a else b.

End PyStr.

(* ================================================================== *)
(** ** SHA-1 ([hashlib.sha1], FIPS 180-4) *)

Module Sha1.
Local Open Scope Z_scope.

Definition w32 (x : Z) : Z := x mod 2 ^ 32.
Definition rotl (n x : Z) : Z := w32 (Z.lor (Z.shiftl x n) (Z.shiftr x (32 - n))).
Definition lnot32 (x : Z) : Z := 2 ^ 32 - 1 - x.

(** Message padding: the byte 0x80, zero bytes up to 56 modulo 64, and
    the bit length as a 64-bit big-endian integer. *)
Definition be_bytes (n : nat) (x : Z) : list Z :=
  map (fun i => (Z.shiftr x (8 * Z.of_nat (n - 1 - i))) mod 256) (seq 0 n).

Definition pad (msg : list Z) : list Z :=
  let len := Z.of_nat (length msg) in
  let zeros := Z.to_nat ((55 - len) mod 64) in
  msg ++ [128] ++ repeat 0 zeros ++ be_bytes 8 (8 * len).

Fixpoint be_word (bs : list Z) (acc : Z) : Z :=
  match bs with
  | [] => acc
  | b :: r => be_word r (acc * 256 + b)
  end.

(** Split a list into chunks of [n] elements ([fuel] bounds the number of
    chunks). *)
Fixpoint chunks {A} (fuel n : nat) (l : list A) : list (list A) :=
  match fuel with
  | O => []
  | S f =>
      match l with
      | [] => []
      | _ => firstn n l :: chunks f n (skipn n l)
      end
  end.

Definition words_of_block (blk : list Z) : list Z :=
  map (fun w => be_word w 0) (chunks 16 4 blk).

(** The message schedule, most recent word first. *)
Fixpoint schedule (n : nat) (rev_w : list Z) : list Z :=
  match n with
  | O => rev_w
  | S k =>
      let x := Z.lxor (Z.lxor (nth 2 rev_w 0) (nth 7 rev_w 0))
                      (Z.lxor (nth 13 rev_w 0) (nth 15 rev_w 0)) in
      schedule k (rotl 1 x :: rev_w)
  end.

Definition State : Type := Z * Z * Z * Z * Z.

Definition round (t : nat) (st : State) (w : Z) : State :=
  let '(a, b, c, d, e) := st in
  let '(f, k) :=
    if (t <? 20)%nat then (Z.lor (Z.land b c) (Z.land (lnot32 b) d), 0x5A827999)
    else if (t <? 40)%nat then (Z.lxor (Z.lxor b c) d, 0x6ED9EBA1)
    else if (t <? 60)%nat then
      (Z.lor (Z.lor (Z.land b c) (Z.land b d)) (Z.land c d), 0x8F1BBCDC)
    else (Z.lxor (Z.lxor b c) d, 0xCA62C1D6) in
  (w32 (rotl 5 a + f + e + k + w), a, rotl 30 b, c, d).

Fixpoint rounds (t : nat) (ws : list Z) (st : State) : State :=
  match ws with
  | [] => st
  | w :: r => rounds (S t) r (round t st w)
  end.

Definition compress (h : State) (blk : list Z) : State :=
  let ws := rev (schedule 64 (rev (words_of_block blk))) in
  let '(a, b, c, d, e) := rounds 0 ws h in
  let '(h0, h1, h2, h3, h4) := h in
  (w32 (h0 + a), w32 (h1 + b), w32 (h2 + c), w32 (h3 + d), w32 (h4 + e)).

Definition init : State :=
  (0x67452301, 0xEFCDAB89, 0x98BADCFE, 0x10325476, 0xC3D2E1F0).

Definition digest (msg : list Z) : State :=
  let p := pad msg in
  fold_left compress (chunks (length p) 64 p) init.

Definition hex_digit (d : Z) : ascii :=
  if d <? 10 then ascii_of_N (Z.to_N (48 + d)) else ascii_of_N (Z.to_N (87 + d)).

(** [n] lower-case hexadecimal digits of [x], most significant first. *)
Fixpoint hex (n : nat) (x : Z) : string :=
  match n with
  | O => EmptyString
  | S k => String (hex_digit ((Z.shiftr x (4 * Z.of_nat k)) mod 16)) (hex k x)
  end.

(** [s.encode("utf-8")] for ASCII text. *)
Fixpoint bytes_of (s : string) : list Z :=
  match s with
  | EmptyString => []
  | String c r => Z.of_N (N_of_ascii c) :: bytes_of r
  end.

(** [hashlib.sha1(s.encode("utf-8")).hexdigest()] *)
Definition hexdigest (s : string) : string :=
  let '(h0, h1, h2, h3, h4) := digest (bytes_of s) in
  hex 8 h0 ++ hex 8 h1 ++ hex 8 h2 ++ hex 8 h3 ++ hex 8 h4.

End Sha1.

(* ================================================================== *)
(** ** Data model *)

Inductive SourceName : Set :=
  ETG | UR | SIEMENS | BECKHOFF | PI_PROFINET | ODVA_ENIP | ROS2.

Inductive Segment : Set := OEM | SI | Distributor | RnD | University | Other.

Inductive Priority : Set := HOT | WARM | COLD.

(** [StackTag]: the tags "ROS2" and "UR" are written [TagROS2] and [TagUR]
    to keep them apart from the source names. *)
Inductive StackTag : Set :=
  | EtherCAT | TwinCAT | PROFINET | TIA | EtherNetIP | Studio5000
  | TagROS2 | TagUR | AMR | Safety | Vision.

Inductive StatusType : Set :=
  | queued | running | scanned | enriching | enriched | scoring | scored
  | exporting | exported | failed.

#[global] Instance SourceName_eq_dec : EqDecision SourceName.
Proof. solve_decision. Defined.
#[global] Instance Segment_eq_dec : EqDecision Segment.
Proof. solve_decision. Defined.
#[global] Instance Priority_eq_dec : EqDecision Priority.
Proof. solve_decision. Defined.
#[global] Instance StackTag_eq_dec : EqDecision StackTag.
Proof. solve_decision. Defined.
#[global] Instance StatusType_eq_dec : EqDecision StatusType.
Proof. solve_decision. Defined.

Definition source_str (s : SourceName) : string :=
  match s with
  | ETG => "ETG" | UR => "UR" | SIEMENS => "SIEMENS" | BECKHOFF => "BECKHOFF"
  | PI_PROFINET => "PI_PROFINET" | ODVA_ENIP => "ODVA_ENIP" | ROS2 => "ROS2"
  end.

Definition tag_str (t : StackTag) : string :=
  match t with
  | EtherCAT => "EtherCAT" | TwinCAT => "TwinCAT" | PROFINET => "PROFINET"
  | TIA => "TIA" | EtherNetIP => "EtherNet/IP" | Studio5000 => "Studio5000"
  | TagROS2 => "ROS2" | TagUR => "UR" | AMR => "AMR" | Safety => "Safety"
  | Vision => "Vision"
  end.

(** Wall-clock instants and durations, in seconds. *)
Definition Time : Set := Q.

Record RawCompany : Type := {
  rc_name : string;
  rc_country : string;
  rc_website : option string;
  rc_source : SourceName;
  rc_source_url : option string;
  rc_meta : list (string * string);
}.

Record SourceHit : Set := {
  hit_name : SourceName;
  hit_strength : float;
  hit_source_url : option string;
}.

Record Contact : Set := {
  c_name : option string;
  c_role : option string;
  c_email : option string;
  c_linkedin : option string;
  c_page_url : option string;
}.

Record CompanyContext : Set := {
  size_hint : option string;
  sectors : list string;
  technologies : list string;
  partners : list string;
  recent_projects : list string;
  languages : list string;
}.

Record Lead : Set := {
  company_id : string;
  company_name : string;
  country : string;
  website : option string;
  segment : option Segment;
  stack_tags : list StackTag;
  sources : list SourceHit;
  score : Z;
  priority_class : option Priority;
  contact_email : option string;
  contact_url : option string;
  phone : option string;
  reason : option string;
  pitch : option string;
  last_seen : Time;
  contacts : list Contact;
  context : option CompanyContext;
}.

Record JobStatus : Set := {
  job_id : string;
  status : StatusType;
  progress : list (string * Q);
  found : Z;
  errors : Z;
  started_at : option Time;
  updated_at : option Time;
  message : option string;
}.

Record JobAccepted : Set := {
  ja_job_id : string;
  ja_status : StatusType;
}.

(** A Python [dict] that is iterated over: the entries in insertion order.
    [dict_set] overwrites the entry of a key that is present, where it
    stands, and appends an entry for a new key. *)
Definition Dict (V : Type) : Type := list (string * V).

Fixpoint dict_get {V} (k : string) (d : Dict V) : option V :=
  match d with
  | [] => None
  | (k', v) :: r => if decide (k = k') then Some v else dict_get k r
  end.

Fixpoint dict_set {V} (k : string) (v : V) (d : Dict V) : Dict V :=
  match d with
  | [] => [(k, v)]
  | (k', v') :: r => if decide (k = k') then (k, v) :: r else (k', v') :: dict_set k v r
  end.

(** [d.values()] *)
Definition dict_values {V} (d : Dict V) : list V := map snd d.

(** [for v in d.values(): <update v in place>] *)
Definition dict_update_all {V} (f : V -> V) (d : Dict V) : Dict V :=
  map (fun kv => (fst kv, f (snd kv))) d.

(** The two global dictionaries: [LEADS] is iterated over, [JOBS] is only
    read and written by key. *)
Definition LeadStore : Type := Dict Lead.
Abbreviation JobRegistry := (gmap string JobStatus).

(** The exceptions that end a call, and the outcome of a call that may
    raise one.  [ValidationError] is what pydantic raises when a model is
    built from a value that its field type refuses. *)
Inductive Error : Set :=
  | RobotsDisallow (host : string)
  | GetFailed (url : string)
  | RecursionError
  | ValueError (msg : string)
  | ValidationError.

Inductive Result (A : Type) : Type :=
  | Ok (a : A)
  | Raise (e : Error).
Arguments Ok {A} a.
Arguments Raise {A} e.

(* ================================================================== *)
(** ** Library interfaces *)

(** URLs in the libraries.  [urllib.parse]: [urlparse(u).scheme],
    [urlparse(u).netloc] and [urljoin(base, ref)].  pydantic: [http_url u]
    is what a field of type [HttpUrl] holds after validating [u], written
    as [str] gives it, and [None] when the validation fails. *)
Record UrlLib : Type := {
  url_scheme : string -> string;
  url_netloc : string -> string;
  urljoin : string -> string -> string;
  http_url : string -> option string;
}.

(* ================================================================== *)
(** ** Identity key and merge engine *)

Section Merge.
Context (U : UrlLib).

(** The normalised host part of the key: from the website when there is
    one, from the name otherwise. *)
Definition host_key (website : option string) (name : string) : string :=
  let base := PyStr.lower (PyStr.strip (default "" website)) in
  if PyStr.nonempty base then
    let host := PyStr.or_else (url_netloc U base) base in
    PyStr.strip_slashes (PyStr.replace "www." "" host)
  else
    PyStr.replace " " "-" (PyStr.lower (PyStr.strip name)).

(** [raw] in [company_id_from]: the string that is hashed. *)
Definition raw_key (website : option string) (name country : string) : string :=
  host_key website name ++ "|" ++ PyStr.lower (PyStr.strip name) ++ "|"
  ++ PyStr.upper country.

Definition company_id_from (website : option string) (name country : string)
  : string :=
  PyStr.take 16 (Sha1.hexdigest (raw_key website name country)).

(** The per-source defaults computed at the top of
    [upsert_lead_from_raw]. *)
Definition default_segment (s : SourceName) : option Segment :=
  match s with
  | SIEMENS | UR => Some SI
  | _ => Some OEM
  end.

Definition base_stacks (s : SourceName) : list StackTag :=
  match s with
  | ETG => [EtherCAT]
  | SIEMENS => [PROFINET; TIA]
  | UR => [TagUR]
  | BECKHOFF => [EtherCAT; TwinCAT]
  | PI_PROFINET => [PROFINET]
  | ODVA_ENIP | ROS2 => []
  end.

Definition src_strength (s : SourceName) : float :=
  match s with
  | ETG | SIEMENS | BECKHOFF | PI_PROFINET => 0.90%float
  | _ => 0.85%float
  end.

Definition hit_of (rc : RawCompany) : SourceHit :=
  {| hit_name := rc_source rc;
     hit_strength := src_strength (rc_source rc);
     hit_source_url := rc_source_url rc |}.

(** [for t in ts: if t not in tags: tags.append(t)] *)
Fixpoint append_new {A} `{EqDecision A} (tags ts : list A) : list A :=
  match ts with
  | [] => tags
  | t :: r => append_new (if bool_decide (t ∈ tags) then tags else tags ++ [t]) r
  end.

(** Truthiness of [rc.get("website")]. *)
Definition truthy (o : option string) : bool :=
  match o with Some s => PyStr.nonempty s | None => false end.

(** The fields of the [Lead] that [upsert_lead_from_raw] builds, for a
    website that has passed the validation. *)
Definition lead_of (now : Time) (cid : string) (rc : RawCompany)
  (site : option string) : Lead :=
  {| company_id := cid; company_name := rc_name rc; country := rc_country rc;
     website := site; segment := default_segment (rc_source rc);
     stack_tags := base_stacks (rc_source rc);
     sources := [hit_of rc];
     score := 0; priority_class := None;
     contact_email := None; contact_url := None; phone := None;
     reason := None; pitch := None; last_seen := now;
     contacts := []; context := None |}.

(** [Lead(company_id=cid, ..., website=rc.get("website"), ...)]: the
    constructor validates the website against [Optional[HttpUrl]] and
    raises when it is not a URL the type accepts. *)
Definition new_lead (now : Time) (cid : string) (rc : RawCompany) : Result Lead :=
  match rc_website rc with
  | None => Ok (lead_of now cid rc None)
  | Some w =>
      match http_url U w with
      | Some w' => Ok (lead_of now cid rc (Some w'))
      | None => Raise ValidationError
      end
  end.

Definition merge_lead (lead : Lead) (rc : RawCompany) : Lead :=
  {| company_id := company_id lead; company_name := company_name lead;
     country := country lead;
     website := match website lead with
                | None => if truthy (rc_website rc) then rc_website rc else None
                | Some w => Some w
                end;
     segment := match segment lead with
                | None => default_segment (rc_source rc)
                | Some s => Some s
                end;
     stack_tags := append_new (stack_tags lead) (base_stacks (rc_source rc));
     sources := sources lead ++ [hit_of rc];
     score := score lead; priority_class := priority_class lead;
     contact_email := contact_email lead; contact_url := contact_url lead;
     phone := phone lead; reason := reason lead; pitch := pitch lead;
     last_seen := last_seen lead;
     contacts := contacts lead; context := context lead |}.

(** The id of a candidate. *)
Definition cid_of (rc : RawCompany) : string :=
  company_id_from (rc_website rc) (rc_name rc) (rc_country rc).

(** [upsert_lead_from_raw]: the lead that is returned, or the exception
    of the [Lead] constructor, and the store after the call.  [now] is the
    clock value read when a new [Lead] is built.  The assignment
    [lead.website = ...] of the merge is not validated. *)
Definition upsert_lead_from_raw (now : Time) (rc : RawCompany) (LEADS : LeadStore)
  : Result Lead * LeadStore :=
  let cid := cid_of rc in
  match dict_get cid LEADS with
  | None =>
      match new_lead now cid rc with
      | Ok lead => (Ok lead, dict_set cid lead LEADS)
      | Raise e => (Raise e, LEADS)
      end
  | Some lead =>
      let lead := merge_lead lead rc in
      (Ok lead, dict_set cid lead LEADS)
  end.

(** Upserting a sequence of candidates, one after the other, as the loop
    [for rc in rows: upsert_lead_from_raw(rc)] does: an exception ends the
    loop. *)
Fixpoint upsert_all (now : Time) (rcs : list RawCompany) (LEADS : LeadStore)
  : Result unit * LeadStore :=
  match rcs with
  | [] => (Ok tt, LEADS)
  | rc :: r =>
      match upsert_lead_from_raw now rc LEADS with
      | (Ok _, LEADS') => upsert_all now r LEADS'
      | (Raise e, LEADS') => (Raise e, LEADS')
      end
  end.

End Merge.


(* ================================================================== *)
(** ** Scorer *)

(** [WEIGHTS["signal"]] and [WEIGHTS["stacks"].get(t, 0)]. *)
Definition SIGNAL_WEIGHT : Z := 40.

Definition stack_weight (t : StackTag) : Z :=
  match t with
  | EtherCAT => 25
  | PROFINET => 20
  | EtherNetIP => 18
  | TagROS2 => 12
  | TagUR => 10
  | TwinCAT => 8
  | TIA => 8
  | Studio5000 => 8
  | AMR | Safety | Vision => 0
  end.

Definition sum_Z (l : list Z) : Z := fold_right Z.add 0%Z l.

Definition stack_points (lead : Lead) : Z :=
  sum_Z (map stack_weight (stack_tags lead)).

(** [max(xs, default=0)] on floats: the first largest element. *)
Definition max_float (xs : list float) : float :=
  match xs with
  | [] => 0%float
  | x :: r => fold_left (fun m y => if PrimFloat.ltb m y then y else m) r x
  end.

(** [int(f)]: truncation toward zero of a finite float. *)
Definition py_int (f : float) : Z :=
  match Prim2SF f with
  | S754_finite s m e =>
      let v := if (0 <=? e)%Z then (Z.pos m * 2 ^ e)%Z else (Z.pos m / 2 ^ (- e))%Z in
      if s then (- v)%Z else v
  | _ => 0%Z
  end.

(** The exact value of a finite float.  An infinity or a NaN, which none
    of the uses below produces, is given the value 0. *)
Definition float_value (f : float) : Q :=
  match Prim2SF f with
  | S754_finite s m e =>
      let q := if (0 <=? e)%Z then inject_Z (Z.pos m * 2 ^ e)
               else Z.pos m # Pos.pow 2 (Z.to_pos (- e)) in
      if s then (- q)%Q else q
  | _ => 0%Q
  end.

(** [float(n)] for a small integer. *)
Definition float_of_Z (n : Z) : float := PrimFloat.of_uint63 (Uint63.of_Z n).

Definition clamp (lo hi x : Z) : Z := Z.max lo (Z.min hi x).

Definition priority_of (raw : Z) : Priority :=
  if (70 <=? raw)%Z then HOT else if (45 <=? raw)%Z then WARM else COLD.

Definition has_tag (t : StackTag) (l : Lead) : bool := bool_decide (t ∈ stack_tags l).

Definition has_source (s : SourceName) (l : Lead) : bool :=
  existsb (fun h => bool_decide (hit_name h = s)) (sources l).

Definition reasons_of (l : Lead) : list string :=
  (if has_tag EtherCAT l || has_tag PROFINET l || has_tag EtherNetIP l
   then ["Fieldbus match"] else [])
  ++ (if has_tag TagROS2 l then ["ROS2 present"] else [])
  ++ (if has_tag TwinCAT l then ["TwinCAT"] else [])
  ++ (if has_tag TIA l then ["TIA Portal"] else [])
  ++ (if has_tag Studio5000 l then ["Studio 5000"] else [])
  ++ (if has_source ETG l then ["Listed on ETG"] else [])
  ++ (if has_source SIEMENS l then ["Siemens partner"] else [])
  ++ (if has_source UR l then ["UR ecosystem"] else [])
  ++ (if has_source BECKHOFF l then ["Beckhoff ecosystem"] else [])
  ++ (if has_source PI_PROFINET l then ["PI/PROFINET ecosystem"] else []).

Definition reason_of (l : Lead) : string :=
  match reasons_of l with
  | [] => "Relevance match"
  | rs => PyStr.join "; " rs
  end.

Definition pitch_of (l : Lead) : string :=
  "Abbiamo integrazioni MAC con EtherCAT/PROFINET/EtherNet-IP, ROS2, UR e PLC (TwinCAT/TIA/Studio5000). POC rapido sul vostro stack ("
  ++ PyStr.join ", " (map tag_str (stack_tags l)) ++ ").".

(** The raw score computed in the body of the loop of [score]. *)
Definition raw_score (l : Lead) : Z :=
  let sig := max_float (map hit_strength (sources l)) in
  let sig_pts := py_int (sig * float_of_Z SIGNAL_WEIGHT)%float in
  let st_pts := stack_points l in
  clamp 0 100 (sig_pts + st_pts).

(** One iteration of the loop of [score]. *)
Definition score_lead (l : Lead) : Lead :=
  let raw := raw_score l in
  {| company_id := company_id l; company_name := company_name l;
     country := country l; website := website l; segment := segment l;
     stack_tags := stack_tags l; sources := sources l;
     score := raw; priority_class := Some (priority_of raw);
     contact_email := contact_email l; contact_url := contact_url l;
     phone := phone l;
     reason := Some (reason_of l); pitch := Some (pitch_of l);
     last_seen := last_seen l; contacts := contacts l; context := context l |}.

Definition set_job_status (st : StatusType) (now : Time) (j : JobStatus) : JobStatus :=
  {| job_id := job_id j; status := st; progress := progress j;
     found := found j; errors := errors j; started_at := started_at j;
     updated_at := Some now; message := message j |}.

(** [job = JOBS.get(job_id); if job: job.status = st; job.updated_at = now] *)
Definition touch_job (st : StatusType) (now : Time) (jid : string) (JOBS : JobRegistry)
  : JobRegistry :=
  match JOBS !! jid with
  | Some j => <[jid := set_job_status st now j]> JOBS
  | None => JOBS
  end.

(** [score(req)]: the response, the lead store and the job registry after
    the call. *)
Definition score_op (now : Time) (jid : string) (LEADS : LeadStore) (JOBS : JobRegistry)
  : JobAccepted * LeadStore * JobRegistry :=
  ({| ja_job_id := jid; ja_status := scored |},
   dict_update_all score_lead LEADS,
   touch_job scored now jid JOBS).

(* ================================================================== *)
(** ** Rate-limited fetcher *)

(** What [requests.get] does with one request. *)
Inductive Reply : Set :=
  | Response (status_code : Z) (text : string)
  | Failure.

(** The network and the random number generator: the reply to a request
    depends on the URL and on the requests sent before it; [random k] is the
    [k]-th number drawn. *)
Record Net : Type := {
  http_get : list string -> string -> Reply;
  random : nat -> Q;
}.

(** The part of the process state the fetcher acts on besides its own
    fields: the clock, the requests sent so far (most recent first) and the
    number of random draws made. *)
Record World : Type := {
  now : Time;
  sent : list string;
  draws : nat;
}.

(** A rate bucket: the rate as the float it is, the gap [1.0 / rps]
    computed in binary64 and held by its exact value, the time of the last
    request. *)
Record RateBucket : Set := {
  rb_rps : float;
  min_gap : Q;
  last : Time;
}.

Record RobustHttp : Type := {
  timeout : Z;
  rps : float;
  respect_robots : bool;
  buckets : gmap string RateBucket;
  cache : gmap string string;
  robots_cache : gmap string string;
}.

Definition DEFAULT_TIMEOUT : Z := 12.
Definition MAX_RETRIES : nat := 5.
Definition BACKOFF_BASE : Q := 17 # 10.
Definition RESPECT_ROBOTS : bool := true.

(** [RateBucket(rps)]: [max(0.1, rps)] is [rps] when [0.1 < rps] and
    [0.1] otherwise, also for a NaN; the division is the one of binary64,
    whose quotient by an infinite rate is [0.0].  The gap is held as the
    exact value of that quotient, in lowest terms. *)
Definition new_bucket (r : float) : RateBucket :=
  let r' := if PrimFloat.ltb 0.1 r then r else 0.1%float in
  {| rb_rps := r'; min_gap := Qred (float_value (1 / r')%float); last := 0%Q |}.

(** [RobustHttp(timeout, rps, respect_robots)] *)
Definition new_http (t : Z) (r : float) (robots : bool) : RobustHttp :=
  {| timeout := t; rps := r; respect_robots := robots;
     buckets := ∅; cache := ∅; robots_cache := ∅ |}.

(** [time.sleep(d)] *)
Definition sleep (d : Q) (w : World) : World :=
  {| now := (now w + d)%Q; sent := sent w; draws := draws w |}.

(** One call of the random number generator. *)
Definition draw (N : Net) (w : World) : Q * World :=
  (random N (draws w), {| now := now w; sent := sent w; draws := S (draws w) |}).

(** [RateBucket.wait] *)
Definition bucket_wait (b : RateBucket) (w : World) : RateBucket * World :=
  let delta := (now w - last b)%Q in
  let w' := if Qle_bool (min_gap b) delta then w else sleep (min_gap b - delta)%Q w in
  ({| rb_rps := rb_rps b; min_gap := min_gap b; last := now w' |}, w').

Definition set_buckets (bs : gmap string RateBucket) (h : RobustHttp) : RobustHttp :=
  {| timeout := timeout h; rps := rps h; respect_robots := respect_robots h;
     buckets := bs; cache := cache h; robots_cache := robots_cache h |}.

Definition set_cache (c : gmap string string) (h : RobustHttp) : RobustHttp :=
  {| timeout := timeout h; rps := rps h; respect_robots := respect_robots h;
     buckets := buckets h; cache := c; robots_cache := robots_cache h |}.

Definition set_robots_cache (c : gmap string string) (h : RobustHttp) : RobustHttp :=
  {| timeout := timeout h; rps := rps h; respect_robots := respect_robots h;
     buckets := buckets h; cache := cache h; robots_cache := c |}.

(** [self._bucket(host).wait()] *)
Definition wait_host (host : string) (h : RobustHttp) (w : World) : RobustHttp * World :=
  let b := match buckets h !! host with
           | Some b => b
           | None => new_bucket (rps h)
           end in
  let '(b', w') := bucket_wait b w in
  (set_buckets (<[host := b']> (buckets h)) h, w').

Section Fetcher.
Context (U : UrlLib) (N : Net).

(** [urljoin(f"{p.scheme}://{p.netloc}", "/robots.txt")] *)
Definition robots_url_of (url : string) : string :=
  urljoin U (url_scheme U url ++ "://" ++ url_netloc U url) "/robots.txt".

(** ["Disallow: /" not in txt] *)
Definition robots_text_allows (txt : string) : bool :=
  negb (PyStr.contains "Disallow: /" txt).

(** The body of [robots_allowed]; [get_rec] is the call [self.get]. *)
Definition robots_allowed_with
  (get_rec : string -> bool -> RobustHttp -> World -> Result string * RobustHttp * World)
  (url : string) (h : RobustHttp) (w : World) : bool * RobustHttp * World :=
  if negb (respect_robots h) then (true, h, w)
  else
    let robots_url := robots_url_of url in
    match robots_cache h !! robots_url with
    | Some txt => (robots_text_allows txt, h, w)
    | None =>
        match get_rec robots_url true h w with
        | (Ok txt, h', w') =>
            (robots_text_allows txt,
             set_robots_cache (<[robots_url := txt]> (robots_cache h')) h', w')
        | (Raise _, h', w') => (true, h', w')
        end
    end.

Definition retryable (status_code : Z) : bool :=
  bool_decide (status_code = 403 \/ status_code = 429 \/ status_code = 503)%Z.

(** The retry loop of [get]: [i] is the loop index and [n] the number of
    iterations left. *)
Fixpoint get_loop (url host : string) (cache_ok : bool) (i n : nat)
  (h : RobustHttp) (w : World) : Result string * RobustHttp * World :=
  match n with
  | O => (Raise (GetFailed url), h, w)
  | S n' =>
      let '(h1, w1) := wait_host host h w in
      let '(_, w2) := draw N w1 in
      let reply := http_get N (sent w2) url in
      let w3 := {| now := now w2; sent := url :: sent w2; draws := draws w2 |} in
      match reply with
      | Response code body =>
          if ((200 <=? code) && (code <? 300))%Z then
            (Ok body, if cache_ok then set_cache (<[url := body]> (cache h1)) h1 else h1, w3)
          else if retryable code then
            let '(r, w4) := draw N w3 in
            get_loop url host cache_ok (S i) n' h1
              (sleep (Qpower BACKOFF_BASE (Z.of_nat i) + r)%Q w4)
          else (Raise (GetFailed url), h1, w3)
      | Failure =>
          let '(r, w4) := draw N w3 in
          get_loop url host cache_ok (S i) n' h1
            (sleep (Qpower BACKOFF_BASE (Z.of_nat i) + r * (1 # 2))%Q w4)
      end
  end.

Arguments get_loop : simpl never.

(** [RobustHttp.get].  [depth] is the room left on the call stack: [get]
    and [robots_allowed] call each other, and a call that finds no room
    raises [RecursionError]. *)
Fixpoint get (depth : nat) (url : string) (cache_ok : bool)
  (h : RobustHttp) (w : World) : Result string * RobustHttp * World :=
  match depth with
  | O => (Raise RecursionError, h, w)
  | S d =>
      match (if cache_ok then cache h !! url else None) with
      | Some body => (Ok body, h, w)
      | None =>
          let host := url_netloc U url in
          let '(allowed, h1, w1) := robots_allowed_with (get d) url h w in
          if negb allowed then (Raise (RobotsDisallow host), h1, w1)
          else get_loop url host cache_ok 0 MAX_RETRIES h1 w1
      end
  end.

(** [RobustHttp.robots_allowed] *)
Definition robots_allowed (depth : nat) (url : string) (h : RobustHttp) (w : World)
  : bool * RobustHttp * World :=
  robots_allowed_with (get depth) url h w.

(** The helper [fetch] of [enrich] and [enrich_deep]:
    [try: return HTTP.get(url) except Exception: return ""]. *)
Definition fetch (depth : nat) (url : string) (h : RobustHttp) (w : World)
  : string * RobustHttp * World :=
  match get depth url true h w with
  | (Ok body, h', w') => (body, h', w')
  | (Raise _, h', w') => ("", h', w')
  end.

End Fetcher.

(* ================================================================== *)
(** ** Page analysis *)

(** The keys of the [REGEX] table that the modelled code uses. *)
Inductive Regex : Set :=
  | re_ethercat | re_profinet | re_ethernetip | re_ros2 | re_twincat | re_tia
  | re_studio5000 | re_fieldbus_generic | re_motion_plc | re_contact_link.

(** An [Organization] object of a JSON-LD block: its size field and its
    [sameAs] links. *)
Record Org : Set := {
  org_size : option string;
  org_same_as : list string;
}.

(** HTML parsing and regular-expression matching.  A page is identified by
    its HTML text. *)
Record Html : Type := {
  (** [soup.get_text(" ", strip=True)] *)
  soup_text : string -> string;
  (** [(a.get("href") or "", a.get_text(" ", strip=True))] for every
      [a[href]], in document order *)
  soup_links : string -> list (string * string);
  (** [REGEX[r].search(s)] finds a match *)
  re_search : Regex -> string -> bool;
  (** the address built from [REGEX["email"].search(s) or
      REGEX["email_obf"].search(s)] *)
  find_email : string -> option string;
  (** [REGEX["phones"].search(s)], the matched text *)
  find_phone : string -> option string;
  (** [re.search(rf"\b{k}\b", s)] finds a match *)
  re_word : string -> string -> bool;
  (** [soup.find("html").get("lang")] *)
  html_lang : string -> option string;
  (** the text of every [h1, h2, h3] *)
  headings : string -> list string;
  (** the organisations returned by [extract_jsonld] *)
  jsonld_orgs : string -> list Org;
  (** [candidate_links(base_url, soup)] *)
  candidate_links : string -> string -> list (float * string);
  (** [detect_partners_and_sectors(soup)] *)
  detect_partners_and_sectors : string -> list string * list string;
  (** [extract_contacts_from_soup(base_url, soup)] *)
  extract_contacts_from_soup : string -> string -> list Contact;
}.

Definition LANG_HINTS : list (string * string) :=
  [("de","DE"); ("en","EN"); ("it","IT"); ("fr","FR"); ("es","ES"); ("pt","PT");
   ("da","DA"); ("no","NO"); ("sv","SV"); ("fi","FI"); ("nl","NL"); ("pl","PL");
   ("cs","CS"); ("hu","HU"); ("ro","RO"); ("bg","BG"); ("el","EL"); ("lt","LT");
   ("lv","LV"); ("et","ET")].

(** Stable insertion sort: [sorted(l)] for the order [leb]. *)
Fixpoint insert_by {A} (leb : A -> A -> bool) (x : A) (l : list A) : list A :=
  match l with
  | [] => [x]
  | y :: r => if leb x y then x :: y :: r else y :: insert_by leb x r
  end.

Definition sort_by {A} (leb : A -> A -> bool) (l : list A) : list A :=
  fold_right (insert_by leb) [] l.

(** [set.add] on a set kept as a duplicate-free list. *)
Definition set_add {A} `{EqDecision A} (x : A) (s : list A) : list A :=
  if bool_decide (x ∈ s) then s else s ++ [x].

(** [sorted(set(l))] on strings. *)
Definition sorted_set (l : list string) : list string :=
  sort_by String.leb (fold_left (fun s x => set_add x s) l []).

(** [s.split("-")[0]] *)
Fixpoint before_dash (s : string) : string :=
  match s with
  | EmptyString => EmptyString
  | String c r => if Ascii.eqb c "-" then EmptyString else String c (before_dash r)
  end.

Section Pages.
Context (H : Html).

Definition detect_stacks_extended (text : string) : list StackTag :=
  let tags :=
    ((if re_search H re_ethercat text then [EtherCAT] else [])
     ++ (if re_search H re_profinet text then [PROFINET] else [])
     ++ (if re_search H re_ethernetip text then [EtherNetIP] else [])
     ++ (if re_search H re_ros2 text then [TagROS2] else [])
     ++ (if re_search H re_twincat text then [TwinCAT] else [])
     ++ (if re_search H re_tia text then [TIA] else [])
     ++ (if re_search H re_studio5000 text then [Studio5000] else []))%list in
  let tags :=
    if re_search H re_fieldbus_generic text
    then append_new tags [PROFINET; EtherNetIP] else tags in
  if re_search H re_motion_plc text
  then append_new tags [TwinCAT; TIA; Studio5000] else tags.

Definition detect_languages (html : string) : list string :=
  let langs :=
    match html_lang H html with
    | Some lang =>
        if PyStr.nonempty lang then
          match dict_get (PyStr.lower (before_dash lang)) LANG_HINTS with
          | Some code => [code]
          | None => []
          end
        else []
    | None => []
    end in
  let text := PyStr.lower (soup_text H html) in
  let langs :=
    fold_left
      (fun langs kc =>
         if re_word H (fst kc) text && (length langs <? 6)%nat
         then set_add (snd kc) langs else langs)
      LANG_HINTS langs in
  sort_by String.leb langs.

End Pages.

(* ================================================================== *)
(** ** Enrichment walker *)

(** Assignments to single fields of a [Lead]. *)
Definition set_stack_tags (v : list StackTag) (l : Lead) : Lead :=
  {| company_id := company_id l; company_name := company_name l;
     country := country l; website := website l; segment := segment l;
     stack_tags := v; sources := sources l; score := score l;
     priority_class := priority_class l; contact_email := contact_email l;
     contact_url := contact_url l; phone := phone l; reason := reason l;
     pitch := pitch l; last_seen := last_seen l; contacts := contacts l;
     context := context l |}.

Definition set_website (v : option string) (l : Lead) : Lead :=
  {| company_id := company_id l; company_name := company_name l;
     country := country l; website := v; segment := segment l;
     stack_tags := stack_tags l; sources := sources l; score := score l;
     priority_class := priority_class l; contact_email := contact_email l;
     contact_url := contact_url l; phone := phone l; reason := reason l;
     pitch := pitch l; last_seen := last_seen l; contacts := contacts l;
     context := context l |}.

Definition set_contact_email (v : option string) (l : Lead) : Lead :=
  {| company_id := company_id l; company_name := company_name l;
     country := country l; website := website l; segment := segment l;
     stack_tags := stack_tags l; sources := sources l; score := score l;
     priority_class := priority_class l; contact_email := v;
     contact_url := contact_url l; phone := phone l; reason := reason l;
     pitch := pitch l; last_seen := last_seen l; contacts := contacts l;
     context := context l |}.

Definition set_contact_url (v : option string) (l : Lead) : Lead :=
  {| company_id := company_id l; company_name := company_name l;
     country := country l; website := website l; segment := segment l;
     stack_tags := stack_tags l; sources := sources l; score := score l;
     priority_class := priority_class l; contact_email := contact_email l;
     contact_url := v; phone := phone l; reason := reason l;
     pitch := pitch l; last_seen := last_seen l; contacts := contacts l;
     context := context l |}.

Definition set_phone (v : option string) (l : Lead) : Lead :=
  {| company_id := company_id l; company_name := company_name l;
     country := country l; website := website l; segment := segment l;
     stack_tags := stack_tags l; sources := sources l; score := score l;
     priority_class := priority_class l; contact_email := contact_email l;
     contact_url := contact_url l; phone := v; reason := reason l;
     pitch := pitch l; last_seen := last_seen l; contacts := contacts l;
     context := context l |}.

Definition set_last_seen (v : Time) (l : Lead) : Lead :=
  {| company_id := company_id l; company_name := company_name l;
     country := country l; website := website l; segment := segment l;
     stack_tags := stack_tags l; sources := sources l; score := score l;
     priority_class := priority_class l; contact_email := contact_email l;
     contact_url := contact_url l; phone := phone l; reason := reason l;
     pitch := pitch l; last_seen := v; contacts := contacts l;
     context := context l |}.

Definition set_contacts (v : list Contact) (l : Lead) : Lead :=
  {| company_id := company_id l; company_name := company_name l;
     country := country l; website := website l; segment := segment l;
     stack_tags := stack_tags l; sources := sources l; score := score l;
     priority_class := priority_class l; contact_email := contact_email l;
     contact_url := contact_url l; phone := phone l; reason := reason l;
     pitch := pitch l; last_seen := last_seen l; contacts := v;
     context := context l |}.

Definition set_context (v : option CompanyContext) (l : Lead) : Lead :=
  {| company_id := company_id l; company_name := company_name l;
     country := country l; website := website l; segment := segment l;
     stack_tags := stack_tags l; sources := sources l; score := score l;
     priority_class := priority_class l; contact_email := contact_email l;
     contact_url := contact_url l; phone := phone l; reason := reason l;
     pitch := pitch l; last_seen := last_seen l; contacts := contacts l;
     context := v |}.

(** [str(lead.website)] *)
Definition str_opt (o : option string) : string :=
  match o with Some s => s | None => "None" end.

Definition DIRECTORY_DOMAINS : list string :=
  ["ethercat.org"; "universal-robots.com"; "siemens.com";
   "partnerfinder.siemens.com"; "beckhoff.com"; "profibus.com"].

Section Enrich.
Context (U : UrlLib) (N : Net) (H : Html).

(** The first loop of [enrich]: the HTML of the first source URL that can
    be fetched. *)
Fixpoint first_source_html (depth : nat) (srcs : list SourceHit)
  (h : RobustHttp) (w : World) : string * RobustHttp * World :=
  match srcs with
  | [] => ("", h, w)
  | s :: r =>
      if truthy (hit_source_url s) then
        let '(html, h1, w1) := fetch U N depth (str_opt (hit_source_url s)) h w in
        if PyStr.nonempty html then (html, h1, w1)
        else first_source_html depth r h1 w1
      else first_source_html depth r h w
  end.

(** [a]: the [href] of the first link that looks like a contact link. *)
Fixpoint contact_href (links : list (string * string)) : string :=
  match links with
  | [] => ""
  | (href, label) :: r =>
      if re_search H re_contact_link href || re_search H re_contact_link label
      then href else contact_href r
  end.

(** [soup.select_one("a[href^='http']")] *)
Definition first_http_href (links : list (string * string)) : option string :=
  fst <$> List.find (fun hl => PyStr.startswith "http" (fst hl)) links.

(** The body of the loop of [enrich] for one lead. *)
Definition enrich_lead (depth : nat) (lead : Lead) (h : RobustHttp) (w : World)
  : Lead * RobustHttp * World :=
  let '(html, h, w) := first_source_html depth (sources lead) h w in
  let '(html, h, w) :=
    if negb (PyStr.nonempty html) && truthy (website lead)
    then fetch U N depth (str_opt (website lead)) h w
    else (html, h, w) in
  if negb (PyStr.nonempty html) then (lead, h, w)
  else
    let text := soup_text H html in
    (* follow one contact link if present *)
    let '(lead, h, w) :=
      if truthy (contact_url lead) then (lead, h, w)
      else
        let a := contact_href (soup_links H html) in
        if PyStr.nonempty a then
          let base :=
            match sources lead with
            | s0 :: _ =>
                if truthy (hit_source_url s0) then str_opt (hit_source_url s0)
                else str_opt (website lead)
            | [] => str_opt (website lead)
            end in
          let contact := urljoin U base a in
          let lead := set_contact_url (Some contact) lead in
          let '(contact_html, h, w) := fetch U N depth contact h w in
          if PyStr.nonempty contact_html && negb (truthy (contact_email lead)) then
            match find_email H contact_html with
            | Some m => (set_contact_email (Some m) lead, h, w)
            | None => (lead, h, w)
            end
          else (lead, h, w)
        else (lead, h, w) in
    (* stacks *)
    let lead :=
      set_stack_tags (append_new (stack_tags lead) (detect_stacks_extended H text)) lead in
    (* discover website *)
    let lead :=
      if truthy (website lead) then lead
      else
        match first_http_href (soup_links H html) with
        | Some href =>
            if PyStr.nonempty href
               && forallb (fun k => negb (PyStr.contains k href)) DIRECTORY_DOMAINS
            then set_website (Some href) lead else lead
        | None => lead
        end in
    (* fallback email *)
    let lead :=
      if truthy (contact_email lead) then lead
      else
        match find_email H html with
        | Some m => set_contact_email (Some m) lead
        | None => lead
        end in
    (set_last_seen (now w) lead, h, w).

(** The loop [for lead in LEADS.values()] of [enrich]. *)
Fixpoint enrich_leads (depth : nat) (LEADS : LeadStore) (h : RobustHttp) (w : World)
  : LeadStore * RobustHttp * World :=
  match LEADS with
  | [] => ([], h, w)
  | (k, lead) :: r =>
      let '(lead', h1, w1) := enrich_lead depth lead h w in
      let '(r', h2, w2) := enrich_leads depth r h1 w1 in
      ((k, lead') :: r', h2, w2)
  end.

(** [enrich(req)]: the response and the state after the call. *)
Definition enrich (depth : nat) (jid : string)
  (LEADS : LeadStore) (JOBS : JobRegistry) (h : RobustHttp) (w : World)
  : JobAccepted * LeadStore * JobRegistry * RobustHttp * World :=
  let '(LEADS', h', w') := enrich_leads depth LEADS h w in
  ({| ja_job_id := jid; ja_status := enriched |},
   LEADS', touch_job enriched (now w') jid JOBS, h', w').

End Enrich.

Record DeepEnrichRequest : Type := {
  de_job_id : string;
  priorities : list Priority;
  max_leads : Z;
  max_pages_per_lead : Z;
  same_domain_only : bool;
}.

(** [CompanyContext()] *)
Definition empty_context : CompanyContext :=
  {| size_hint := None; sectors := []; technologies := []; partners := [];
     recent_projects := []; languages := [] |}.

Definition set_size_hint (v : option string) (c : CompanyContext) : CompanyContext :=
  {| size_hint := v; sectors := sectors c; technologies := technologies c;
     partners := partners c; recent_projects := recent_projects c;
     languages := languages c |}.

Definition set_sectors (v : list string) (c : CompanyContext) : CompanyContext :=
  {| size_hint := size_hint c; sectors := v; technologies := technologies c;
     partners := partners c; recent_projects := recent_projects c;
     languages := languages c |}.

Definition set_technologies (v : list string) (c : CompanyContext) : CompanyContext :=
  {| size_hint := size_hint c; sectors := sectors c; technologies := v;
     partners := partners c; recent_projects := recent_projects c;
     languages := languages c |}.

Definition set_partners (v : list string) (c : CompanyContext) : CompanyContext :=
  {| size_hint := size_hint c; sectors := sectors c; technologies := technologies c;
     partners := v; recent_projects := recent_projects c;
     languages := languages c |}.

Definition set_recent_projects (v : list string) (c : CompanyContext) : CompanyContext :=
  {| size_hint := size_hint c; sectors := sectors c; technologies := technologies c;
     partners := partners c; recent_projects := v;
     languages := languages c |}.

Definition set_languages (v : list string) (c : CompanyContext) : CompanyContext :=
  {| size_hint := size_hint c; sectors := sectors c; technologies := technologies c;
     partners := partners c; recent_projects := recent_projects c;
     languages := v |}.

(** [l[:n]] for an integer [n] of either sign. *)
Definition slice_to {A} (n : Z) (l : list A) : list A :=
  if (0 <=? n)%Z then firstn (Z.to_nat n) l
  else firstn (Z.to_nat (Z.of_nat (length l) + n)) l.

(** The test that keeps a scraped contact out of [lead.contacts]. *)
Definition same_contact (c x : Contact) : bool :=
  (truthy (c_email c) && bool_decide (c_email x = c_email c))
  || (truthy (c_linkedin c) && bool_decide (c_linkedin x = c_linkedin c))
  || (truthy (c_name c) && bool_decide (c_name x = c_name c)).

Fixpoint add_contacts (cs : list Contact) (existing : list Contact) : list Contact :=
  match cs with
  | [] => existing
  | c :: r =>
      add_contacts r (if existsb (same_contact c) existing then existing
                      else existing ++ [c])
  end.

Definition linkedin_contact (s_url u : string) : Contact :=
  {| c_name := None; c_role := None; c_email := None;
     c_linkedin := Some s_url; c_page_url := Some u |}.

Fixpoint add_same_as (u : string) (same_as : list string) (existing : list Contact)
  : list Contact :=
  match same_as with
  | [] => existing
  | s_url :: r =>
      add_same_as u r
        (if PyStr.contains "linkedin.com" s_url
            && negb (existsb (fun c => bool_decide (c_linkedin c = Some s_url)) existing)
         then existing ++ [linkedin_contact s_url u] else existing)
  end.

Definition PROJECT_WORDS : list string :=
  ["case"; "project"; "application"; "success"; "reference"].

Fixpoint add_projects (titles : list string) (recent : list string) : list string :=
  match titles with
  | [] => recent
  | title :: r =>
      add_projects r
        (if existsb (fun k => PyStr.contains k (PyStr.lower title)) PROJECT_WORDS
            && (length recent <? 20)%nat && negb (bool_decide (title ∈ recent))
         then recent ++ [title] else recent)
  end.

(** The sort key [(-x.score, x.country, x.company_name)] of the targets. *)
Definition target_leb (a b : Lead) : bool :=
  (- score a <? - score b)%Z
  || ((- score a =? - score b)%Z
      && (String.ltb (country a) (country b)
          || (String.eqb (country a) (country b)
              && String.leb (company_name a) (company_name b)))).

(** [scored.sort(key=lambda x: x[0], reverse=True)] *)
Definition link_geb (a b : float * string) : bool := PrimFloat.leb (fst b) (fst a).

Section Deep.
Context (U : UrlLib) (N : Net) (H : Html).

Definition base_urls_of (lead : Lead) : list string :=
  List.filter PyStr.nonempty
    (List.map (fun s => str_opt (hit_source_url s))
       (List.filter (fun s => truthy (hit_source_url s)) (sources lead))
     ++ (if truthy (website lead) then [str_opt (website lead)] else []))%list.

Definition add_page_signals (html : string) (ctx : CompanyContext) : CompanyContext :=
  let ctx := set_languages (append_new (languages ctx) (detect_languages H html)) ctx in
  let '(ps, ss) := detect_partners_and_sectors H html in
  let ctx := set_partners (append_new (partners ctx) ps) ctx in
  set_sectors (append_new (sectors ctx) ss) ctx.

Definition add_org (u : string) (st : Lead * CompanyContext) (org : Org)
  : Lead * CompanyContext :=
  let '(lead, ctx) := st in
  let ctx :=
    if truthy (org_size org) && negb (truthy (size_hint ctx))
    then set_size_hint (org_size org) ctx else ctx in
  (set_contacts (add_same_as u (org_same_as org) (contacts lead)) lead, ctx).

(** The body of the loop over the base pages of a lead; [links] is the list
    the source calls [scored]. *)
Definition visit_base (depth : nat) (u : string)
  (lead : Lead) (ctx : CompanyContext) (links : list (float * string))
  (h : RobustHttp) (w : World)
  : Lead * CompanyContext * list (float * string) * RobustHttp * World :=
  let '(html, h, w) := fetch U N depth u h w in
  if negb (PyStr.nonempty html) then (lead, ctx, links, h, w)
  else
    let links := (links ++ candidate_links H u html)%list in
    let text := soup_text H html in
    let lead :=
      set_stack_tags (append_new (stack_tags lead) (detect_stacks_extended H text)) lead in
    let '(lead, ctx) := fold_left (add_org u) (jsonld_orgs H html) (lead, ctx) in
    let ctx := add_page_signals html ctx in
    let lead :=
      set_contacts (add_contacts (extract_contacts_from_soup H u html) (contacts lead))
        lead in
    (lead, ctx, links, h, w).

Fixpoint visit_bases (depth : nat) (us : list string)
  (lead : Lead) (ctx : CompanyContext) (links : list (float * string))
  (h : RobustHttp) (w : World)
  : Lead * CompanyContext * list (float * string) * RobustHttp * World :=
  match us with
  | [] => (lead, ctx, links, h, w)
  | u :: r =>
      let '(lead, ctx, links, h, w) := visit_base depth u lead ctx links h w in
      visit_bases depth r lead ctx links h w
  end.

(** What a ranked page that could be fetched adds to the lead. *)
Definition visit_page (url html : string) (lead : Lead) (ctx : CompanyContext)
  : Lead * CompanyContext :=
  let text := soup_text H html in
  let lead :=
    set_stack_tags (append_new (stack_tags lead) (detect_stacks_extended H text)) lead in
  let lead :=
    set_contacts (add_contacts (extract_contacts_from_soup H url html) (contacts lead))
      lead in
  let lead :=
    if truthy (phone lead) then lead
    else match find_phone H text with
         | Some m => set_phone (Some m) lead
         | None => lead
         end in
  let ctx := add_page_signals html ctx in
  (lead, set_recent_projects (add_projects (headings H html) (recent_projects ctx)) ctx).

(** The loop over the ranked links of a lead. *)
Fixpoint visit_ranked (depth : nat) (req : DeepEnrichRequest)
  (links : list (float * string))
  (lead : Lead) (ctx : CompanyContext) (visited_local visited_global : list string)
  (h : RobustHttp) (w : World)
  : Lead * CompanyContext * list string * RobustHttp * World :=
  match links with
  | [] => (lead, ctx, visited_global, h, w)
  | (_, url) :: r =>
      if (max_pages_per_lead req <=? Z.of_nat (length visited_local))%Z
      then (lead, ctx, visited_global, h, w)
      else if same_domain_only req && truthy (website lead)
              && PyStr.nonempty (url_netloc U url)
              && negb (String.eqb (url_netloc U url)
                                  (url_netloc U (str_opt (website lead))))
      then visit_ranked depth req r lead ctx visited_local visited_global h w
      else if bool_decide (url ∈ visited_local) || bool_decide (url ∈ visited_global)
      then visit_ranked depth req r lead ctx visited_local visited_global h w
      else
        let visited_local := url :: visited_local in
        let visited_global := url :: visited_global in
        let '(html, h, w) := fetch U N depth url h w in
        if negb (PyStr.nonempty html)
        then visit_ranked depth req r lead ctx visited_local visited_global h w
        else
          let '(lead, ctx) := visit_page url html lead ctx in
          visit_ranked depth req r lead ctx visited_local visited_global h w
  end.

(** The assignments that close the loop body: the caps. *)
Definition cap_lead (lead : Lead) (ctx : CompanyContext) (t : Time) : Lead :=
  let ctx := set_partners (firstn 25 (partners ctx)) ctx in
  let ctx := set_sectors (firstn 25 (sectors ctx)) ctx in
  let ctx := set_recent_projects (firstn 25 (recent_projects ctx)) ctx in
  let ctx :=
    set_technologies
      (sorted_set (technologies ctx ++ List.map tag_str (stack_tags lead))%list) ctx in
  set_last_seen t
    (set_context (Some ctx) (set_contacts (firstn 50 (contacts lead)) lead)).

(** The body of the loop [for lead in targets] of [enrich_deep]. *)
Definition deep_lead (depth : nat) (req : DeepEnrichRequest) (lead : Lead)
  (visited_global : list string) (h : RobustHttp) (w : World)
  : Lead * list string * RobustHttp * World :=
  let base_urls := base_urls_of lead in
  match base_urls with
  | [] => (lead, visited_global, h, w)
  | _ =>
      let ctx := default empty_context (context lead) in
      let lead := set_context (Some ctx) lead in
      let pages_to_visit :=
        List.filter (fun u => negb (bool_decide (u ∈ visited_global))) base_urls in
      let '(lead, ctx, links, h, w) := visit_bases depth pages_to_visit lead ctx [] h w in
      let links := sort_by link_geb links in
      let '(lead, ctx, visited_global, h, w) :=
        visit_ranked depth req links lead ctx [] visited_global h w in
      (cap_lead lead ctx (now w), visited_global, h, w)
  end.

(** [targets], as the keys of the selected leads in processing order. *)
Definition deep_targets (req : DeepEnrichRequest) (LEADS : LeadStore) : list string :=
  let selected :=
    List.filter
      (fun kl => match priority_class (snd kl) with
                 | Some p => bool_decide (p ∈ priorities req)
                 | None => false
                 end) LEADS in
  let sorted := sort_by (fun a b => target_leb (snd a) (snd b)) selected in
  List.map fst (slice_to (max_leads req) sorted).

(** The loop [for lead in targets]: each target is updated in place. *)
Fixpoint deep_leads (depth : nat) (req : DeepEnrichRequest) (targets : list string)
  (LEADS : LeadStore) (visited_global : list string) (h : RobustHttp) (w : World)
  : LeadStore * RobustHttp * World :=
  match targets with
  | [] => (LEADS, h, w)
  | k :: r =>
      match dict_get k LEADS with
      | Some lead =>
          let '(lead', vg, h1, w1) := deep_lead depth req lead visited_global h w in
          deep_leads depth req r (dict_set k lead' LEADS) vg h1 w1
      | None => deep_leads depth req r LEADS visited_global h w
      end
  end.

Definition show_nat (n : nat) : string := NilEmpty.string_of_uint (Nat.to_uint n).

Definition deep_message (n : nat) (j : JobStatus) : JobStatus :=
  {| job_id := job_id j; status := status j; progress := progress j;
     found := found j; errors := errors j; started_at := started_at j;
     updated_at := updated_at j;
     message := Some (default "" (message j) ++ " deep_enrich targets=" ++ show_nat n) |}.

(** [enrich_deep(req)]: the response and the state after the call. *)
Definition enrich_deep (depth : nat) (req : DeepEnrichRequest)
  (LEADS : LeadStore) (JOBS : JobRegistry) (h : RobustHttp) (w : World)
  : JobAccepted * LeadStore * JobRegistry * RobustHttp * World :=
  let targets := deep_targets req LEADS in
  let '(LEADS', h', w') := deep_leads depth req targets LEADS [] h w in
  let JOBS' :=
    match JOBS !! de_job_id req with
    | Some j =>
        <[de_job_id req := deep_message (length targets) (set_job_status enriched (now w') j)]>
          JOBS
    | None => JOBS
    end in
  ({| ja_job_id := de_job_id req; ja_status := enriched |}, LEADS', JOBS', h', w').

End Deep.

(* ================================================================== *)
(** ** Scan orchestrator *)

Record ScanRequest : Type := {
  req_countries : list string;
  req_sources : list string;
  max_per_source : Z;
  since_months : Z;
}.

Definition EU_COUNTRIES : list string :=
  ["AT";"BE";"BG";"HR";"CY";"CZ";"DK";"EE";"FI";"FR";"DE";"GR";"HU";"IE";"IT";"LV";
   "LT";"LU";"MT";"NL";"PL";"PT";"RO";"SK";"SI";"ES";"SE"].
Definition EEA_EXTRA : list string := ["NO";"IS";"LI"].
Definition UK_CH : list string := ["UK";"GB";"CH"].
Definition DACH : list string := ["DE";"AT";"CH"].
Definition NORDICS : list string := ["DK";"SE";"NO";"FI";"IS"].
Definition BENELUX : list string := ["BE";"NL";"LU"].
Definition IBERIA : list string := ["ES";"PT"].
Definition CEE : list string :=
  ["PL";"CZ";"SK";"HU";"RO";"BG";"SI";"HR";"LT";"LV";"EE"].

Definition REGION_EXPANSIONS : Dict (list string) :=
  [("EU", EU_COUNTRIES);
   ("EU_EEA_PLUS", (EU_COUNTRIES ++ EEA_EXTRA ++ UK_CH)%list);
   ("EEA", (EU_COUNTRIES ++ EEA_EXTRA)%list);
   ("DACH", DACH); ("NORDICS", NORDICS); ("BENELUX", BENELUX);
   ("IBERIA", IBERIA); ("CEE", CEE)].

(** [MAX_WORKERS], when [LEADR_MAX_WORKERS] is not set. *)
Definition MAX_WORKERS : Z := 12.

(** The keys of [ADAPTERS], in the order of the table. *)
Definition ADAPTER_KEYS : list SourceName :=
  [ETG; UR; SIEMENS; BECKHOFF; PI_PROFINET; ODVA_ENIP; ROS2].

(** [s in ADAPTERS], with the key found. *)
Definition adapter_key (s : string) : option SourceName :=
  List.find (fun k => String.eqb (source_str k) s) ADAPTER_KEYS.

(** The adapters and the worker pool: [adapter_scan src country
    since_months max_items i] is what the [i]-th call of the adapter of
    [src] for [country] returns, [None] when it raises; [as_completed]
    lists the submitted tasks in the order in which they finish. *)
Record ScanEnv : Type := {
  adapter_scan : SourceName -> string -> Z -> Z -> nat -> option (list RawCompany);
  as_completed : list (SourceName * string) -> list (SourceName * string);
}.

(** The expansion of the requested country tokens. *)
Definition expand_countries (cs : list string) : list string :=
  sorted_set
    (flat_map (fun c =>
                 let cu := PyStr.upper (PyStr.strip c) in
                 match dict_get cu REGION_EXPANSIONS with
                 | Some l => l
                 | None => [cu]
                 end) cs).

(** The expansion of the requested sources. *)
Definition expand_sources (ss : list string) : list SourceName :=
  if existsb (fun s => String.eqb (PyStr.upper s) "ALL") ss then ADAPTER_KEYS
  else omap adapter_key ss.

Section Scan.
Context (U : UrlLib) (E : ScanEnv).

(** The retry loop of [scan_task]: the rows and whether the task ends with
    an error.  [i] is the loop index, [n] the number of attempts left. *)
Fixpoint scan_attempts (req : ScanRequest) (src : SourceName) (c : string) (i n : nat)
  : list RawCompany * bool :=
  match n with
  | O => ([], true)
  | S n' =>
      match adapter_scan E src c (since_months req) (max_per_source req) i with
      | Some rows => (rows, false)
      | None => scan_attempts req src c (S i) n'
      end
  end.

Definition scan_task (req : ScanRequest) (src : SourceName) (c : string)
  : list RawCompany * bool :=
  scan_attempts req src c 0 MAX_RETRIES.

(** The counters and the store while the finished tasks are merged. *)
Record ScanState : Type := {
  ss_found : Z;
  ss_errors : Z;
  ss_done : Dict Z;
  ss_progress : Dict Q;
  ss_leads : LeadStore;
}.

(** The body of the loop [for fut in as_completed(tasks)].  When an
    upsert raises, the counters of the task are not updated and the leads
    upserted before it stay in the store. *)
Definition merge_task (now : Time) (req : ScanRequest) (total : Z)
  (st : ScanState) (task : SourceName * string) : Result unit * ScanState :=
  let '(src, c) := task in
  let '(rows, err) := scan_task req src c in
  let key := source_str src in
  let done := (default 0 (dict_get key (ss_done st)) + 1)%Z in
  let frac := (inject_Z done / inject_Z total)%Q in
  let '(r, leads) :=
    if err then (Ok tt, ss_leads st) else upsert_all U now rows (ss_leads st) in
  match r with
  | Ok _ =>
      (Ok tt,
       {| ss_found := if err then ss_found st
                      else (ss_found st + Z.of_nat (length rows))%Z;
          ss_errors := if err then (ss_errors st + 1)%Z else ss_errors st;
          ss_done := dict_set key done (ss_done st);
          ss_progress :=
            dict_set key (if Qle_bool 1 frac then 1%Q else frac) (ss_progress st);
          ss_leads := leads |})
  | Raise e =>
      (Raise e,
       {| ss_found := ss_found st; ss_errors := ss_errors st;
          ss_done := ss_done st; ss_progress := ss_progress st;
          ss_leads := leads |})
  end.

(** The loop [for fut in as_completed(tasks)]: an exception ends it. *)
Fixpoint merge_tasks (now : Time) (req : ScanRequest) (total : Z)
  (tasks : list (SourceName * string)) (st : ScanState)
  : Result unit * ScanState :=
  match tasks with
  | [] => (Ok tt, st)
  | task :: r =>
      match merge_task now req total st task with
      | (Ok _, st') => merge_tasks now req total r st'
      | (Raise e, st') => (Raise e, st')
      end
  end.

(** [start_scan(req)]: the response, or the exception that ends the call,
    and the state after it.  [jid] is the identifier generated for the job
    and [now] the clock value.  An exception of the loop leaves the job as
    it was registered, with the status [running]. *)
Definition start_scan (now : Time) (jid : string) (req : ScanRequest)
  (LEADS : LeadStore) (JOBS : JobRegistry)
  : Result JobAccepted * LeadStore * JobRegistry :=
  let job := {| job_id := jid; status := running; progress := []; found := 0;
                errors := 0; started_at := Some now; updated_at := None;
                message := None |} in
  let JOBS := <[jid := job]> JOBS in
  let countries := expand_countries (req_countries req) in
  let srcs := expand_sources (req_sources req) in
  let max_workers :=
    Z.min MAX_WORKERS
      (Z.of_nat (length srcs) * Z.max 1 (Z.of_nat (length countries))) in
  if (max_workers <=? 0)%Z then
    (Raise (ValueError "max_workers must be greater than 0"), LEADS, JOBS)
  else
    let tasks := flat_map (fun s => List.map (fun c => (s, c)) countries) srcs in
    let init :=
      {| ss_found := 0; ss_errors := 0;
         ss_done := fold_left (fun d s => dict_set (source_str s) 0%Z d) srcs [];
         ss_progress := fold_left (fun d s => dict_set (source_str s) 0%Q d) srcs [];
         ss_leads := LEADS |} in
    match merge_tasks now req (Z.of_nat (length countries))
            (as_completed E tasks) init with
    | (Raise e, st) => (Raise e, ss_leads st, JOBS)
    | (Ok _, st) =>
        let job' := {| job_id := jid; status := scanned; progress := ss_progress st;
                       found := ss_found st; errors := ss_errors st;
                       started_at := Some now; updated_at := Some now;
                       message := None |} in
        (Ok {| ja_job_id := jid; ja_status := scanned |}, ss_leads st,
         <[jid := job']> JOBS)
    end.

End Scan.

(* ================================================================== *)
(** ** Reachable lead stores *)

Section Reachable.
Context (U : UrlLib) (N : Net) (H : Html).

(** The lead stores the operations can build from the empty store: every
    write to [LEADS] and every assignment to a field of a stored [Lead] is
    made by [upsert_lead_from_raw] (called by [start_scan]), [enrich],
    [enrich_deep] or [score]. *)
Inductive reachable : LeadStore -> Prop :=
  | reach_empty : reachable []
  | reach_upsert now rc LEADS :
      reachable LEADS ->
      reachable (snd (upsert_lead_from_raw U now rc LEADS))
  | reach_enrich depth LEADS h w :
      reachable LEADS ->
      reachable (fst (fst (enrich_leads U N H depth LEADS h w)))
  | reach_enrich_deep depth req LEADS h w :
      reachable LEADS ->
      reachable
        (fst (fst (deep_leads U N H depth req (deep_targets req LEADS) LEADS [] h w)))
  | reach_score LEADS :
      reachable LEADS ->
      reachable (dict_update_all score_lead LEADS).

End Reachable.

(* ================================================================== *)
(** ** The stated formulas and notions, as they are worded *)

(** [round(x)]: to the nearest integer, ties to the even one. *)
Definition round_half_even (x : Q) : Z :=
  let f := Qfloor x in
  match Qcompare (x - inject_Z f) (1 # 2) with
  | Lt => f
  | Gt => (f + 1)%Z
  | Eq => if Z.even f then f else (f + 1)%Z
  end.

(** The sources whose strength constant is 0.90. *)
Definition strong (s : SourceName) : bool :=
  match s with
  | ETG | SIEMENS | BECKHOFF | PI_PROFINET => true
  | _ => false
  end.

(** The stated score, from its wording.  The weights of the tags that the
    table lists; a tag that it does not list weighs 0. *)
Definition STATED_WEIGHTS : list (StackTag * Z) :=
  [(EtherCAT, 25); (PROFINET, 20); (EtherNetIP, 18); (TagROS2, 12);
   (TagUR, 10); (TwinCAT, 8); (TIA, 8); (Studio5000, 8)]%Z.

Fixpoint stated_weight_in (table : list (StackTag * Z)) (t : StackTag) : Z :=
  match table with
  | [] => 0%Z
  | (t', w) :: r => if bool_decide (t' = t) then w else stated_weight_in r t
  end.

Definition stated_tag_weight : StackTag -> Z := stated_weight_in STATED_WEIGHTS.

(** The sum of the weights over the tags of a lead. *)
Definition stated_tag_sum (tags : list StackTag) : Z :=
  fold_left (fun acc t => (acc + stated_tag_weight t)%Z) tags 0%Z.

(** The largest of the numbers [qs], and 0 when there is none. *)
Fixpoint stated_max (qs : list Q) : Q :=
  match qs with
  | [] => 0%Q
  | [q] => q
  | q :: r => let m := stated_max r in if Qle_bool m q then q else m
  end.

Definition stated_clamp (lo hi x : Z) : Z :=
  if (x <? lo)%Z then lo else if (hi <? x)%Z then hi else x.

(** clamp(0, 100, round(max strength * 40 + sum of the tag weights)), on
    the exact values of the strengths. *)
Definition stated_score (l : Lead) : Z :=
  stated_clamp 0 100
    (round_half_even
       (stated_max (map (fun hit => float_value (hit_strength hit)) (sources l)) * 40
        + inject_Z (stated_tag_sum (stack_tags l)))%Q).

(** [s.removeprefix(p)] *)
Fixpoint drop_chars (n : nat) (s : string) : string :=
  match n, s with
  | S k, String _ r => drop_chars k r
  | _, _ => s
  end.

Definition remove_prefix (p s : string) : string :=
  if PyStr.startswith p s then drop_chars (String.length p) s else s.

(** The stated normalisation of the key: the website host, lower-cased,
    without a leading "www." and without trailing slashes, when the
    website is present ([inl]); the name-derived key when it is absent
    ([inr]). *)
Definition stated_host_key (U : UrlLib) (website : option string) (name : string)
  : string + string :=
  let base := PyStr.lower (PyStr.strip (default "" website)) in
  if PyStr.nonempty base then
    inl (PyStr.rstrip_by PyStr.is_slash
           (remove_prefix "www." (PyStr.or_else (url_netloc U base) base)))
  else inr (PyStr.replace " " "-" (PyStr.lower (PyStr.strip name))).

(** A robots policy with a blanket disallow: one of its lines is the rule
    [Disallow: /]. *)
Fixpoint lines_from (cur : string) (s : string) : list string :=
  match s with
  | EmptyString => [cur]
  | String c r =>
      if Ascii.eqb c (ascii_of_nat 10) then cur :: lines_from "" r
      else lines_from (cur ++ String c "") r
  end.

Definition blanket_disallow (txt : string) : bool :=
  existsb (fun ln => String.eqb (PyStr.strip ln) "Disallow: /") (lines_from "" txt).

(* ================================================================== *)
(** ** Concrete environments for the closed examples *)

(** The text before the first occurrence of the character [c], and the
    text after it. *)
Fixpoint before_char (c : ascii) (s : string) : string :=
  match s with
  | EmptyString => EmptyString
  | String a r => if Ascii.eqb a c then EmptyString else String a (before_char c r)
  end.

Fixpoint after_char (c : ascii) (s : string) : string :=
  match s with
  | EmptyString => EmptyString
  | String a r => if Ascii.eqb a c then r else after_char c r
  end.

(** [urllib.parse] on URLs of the form [scheme://host/path], and the
    validation of [HttpUrl] on them: the scheme is [http] or [https], the
    host is not empty, and a URL without a path is held with the path
    [/]. *)
Definition plain_urls : UrlLib :=
  {| url_scheme := fun u => before_char ":" u;
     url_netloc := fun u =>
       if PyStr.contains "://" u
       then before_char "/" (drop_chars 2 (after_char ":" u)) else "";
     urljoin := fun base ref => base ++ ref;
     http_url := fun u =>
       if (PyStr.startswith "http://" u || PyStr.startswith "https://" u)
          && PyStr.nonempty (before_char "/" (drop_chars 2 (after_char ":" u)))
       then Some (if PyStr.contains "/" (drop_chars 2 (after_char ":" u))
                  then u else u ++ "/")
       else None |}.

(** A network on which every request is answered [200] with an empty
    robots file or a one-line page. *)
Definition open_net : Net :=
  {| http_get := fun _ url =>
       if PyStr.contains "robots.txt" url then Response 200 ""
       else Response 200 "<html></html>";
     random := fun _ => 0%Q |}.

(** A network on which every robots file is the blanket rule. *)
Definition strict_net : Net :=
  {| http_get := fun _ url =>
       if PyStr.contains "robots.txt" url then Response 200 "Disallow: /"
       else Response 200 "<html></html>";
     random := fun _ => 0%Q |}.

(** Pages on which nothing is found. *)
Definition blank_html : Html :=
  {| soup_text := fun _ => ""; soup_links := fun _ => [];
     re_search := fun _ _ => false; find_email := fun _ => None;
     find_phone := fun _ => None; re_word := fun _ _ => false;
     html_lang := fun _ => None; headings := fun _ => [];
     jsonld_orgs := fun _ => []; candidate_links := fun _ _ => [];
     detect_partners_and_sectors := fun _ => ([], []);
     extract_contacts_from_soup := fun _ _ => [] |}.

(** A candidate whose website, when it has one, is accepted by the
    validation of [HttpUrl]. *)
Definition website_ok (U : UrlLib) (rc : RawCompany) : Prop :=
  forall w, rc_website rc = Some w -> http_url U w <> None.

(** Two candidates of one company, named by its domain: the directory of
    the first gives no website, the one of the second gives the bare
    domain, which is not a URL. *)
Definition bare_candidate : RawCompany :=
  {| rc_name := "acme.com"; rc_country := "DK"; rc_website := None;
     rc_source := ETG; rc_source_url := None; rc_meta := [] |}.

Definition sited_candidate : RawCompany :=
  {| rc_name := "acme.com"; rc_country := "DK"; rc_website := Some "acme.com";
     rc_source := SIEMENS; rc_source_url := None; rc_meta := [] |}.

(** Adapters that find nothing; tasks finish in submission order. *)
Definition idle_scan : ScanEnv :=
  {| adapter_scan := fun _ _ _ _ _ => Some []; as_completed := fun ts => ts |}.

Definition acme_etg : RawCompany :=
  {| rc_name := "Acme"; rc_country := "DK"; rc_website := None; rc_source := ETG;
     rc_source_url := None; rc_meta := [] |}.

Definition acme_siemens : RawCompany :=
  {| rc_name := "Acme"; rc_country := "DK"; rc_website := None;
     rc_source := SIEMENS; rc_source_url := None; rc_meta := [] |}.

(** A cached page of a host whose robots file forbids everything. *)
Definition forbidden_host_http : RobustHttp :=
  {| timeout := DEFAULT_TIMEOUT; rps := 0.5%float; respect_robots := true;
     buckets := ∅;
     cache := {[ "https://example.com/page" := "<html>cached</html>" ]};
     robots_cache := {[ "https://example.com/robots.txt" := "Disallow: /" ]} |}.

(** A host whose cached robots file has one path-specific rule. *)
Definition private_path_http : RobustHttp :=
  {| timeout := DEFAULT_TIMEOUT; rps := 0.5%float; respect_robots := true;
     buckets := ∅; cache := ∅;
     robots_cache := {[ "https://example.com/robots.txt" := "Disallow: /private" ]} |}.

Definition world0 : World := {| now := 0%Q; sent := []; draws := 0 |}.

(** A scan request that names no registered source. *)
Definition unknown_source_request : ScanRequest :=
  {| req_countries := ["DK"]; req_sources := ["FOO"];
     max_per_source := 2000; since_months := 18 |}.

(** What the finished tasks add to the counters, in completion order. *)
Definition task_found (E : ScanEnv) (req : ScanRequest)
  (task : SourceName * string) : Z :=
  let '(rows, err) := scan_task E req (fst task) (snd task) in
  if err then 0%Z else Z.of_nat (length rows).

Definition task_errors (E : ScanEnv) (req : ScanRequest)
  (task : SourceName * string) : Z :=
  let '(rows, err) := scan_task E req (fst task) (snd task) in
  if err then 1%Z else 0%Z.

(** The rows of a finished task all pass the validation of the website of
    a new lead. *)
Definition task_valid (U : UrlLib) (E : ScanEnv) (req : ScanRequest)
  (task : SourceName * string) : Prop :=
  Forall (website_ok U) (fst (scan_task E req (fst task) (snd task))).

(** The tasks of a request, in submission order. *)
Definition scan_tasks (req : ScanRequest) : list (SourceName * string) :=
  flat_map (fun s => List.map (fun c => (s, c)) (expand_countries (req_countries req)))
    (expand_sources (req_sources req)).

(** What holds of every lead of a reachable store: the strength of a source
    hit is the constant of its source; the contacts and the context lists
    are within their caps; the languages are distinct codes of
    [LANG_HINTS]. *)
Definition strengths_ok (l : Lead) : Prop :=
  Forall (fun hit => hit_strength hit = src_strength (hit_name hit)) (sources l).

Definition LANG_CODES : list string := List.map snd LANG_HINTS.

Definition langs_ok (langs : list string) : Prop :=
  NoDup langs /\ incl langs LANG_CODES.

Definition ctx_ok (c : CompanyContext) : Prop :=
  (length (partners c) <= 25)%nat /\ (length (sectors c) <= 25)%nat
  /\ (length (recent_projects c) <= 25)%nat /\ langs_ok (languages c).

Definition lead_ok (l : Lead) : Prop :=
  strengths_ok l /\ (length (contacts l) <= 50)%nat
  /\ (forall c, context l = Some c -> ctx_ok c).

Definition store_ok (LEADS : LeadStore) : Prop :=
  Forall (fun kl => lead_ok (snd kl)) LEADS.

(** A store with one scored lead that has a source URL, and a request for
    its deep enrichment. *)
Definition etg_member : RawCompany :=
  {| rc_name := "Acme"; rc_country := "DK"; rc_website := None; rc_source := ETG;
     rc_source_url := Some "https://www.ethercat.org/members/acme";
     rc_meta := [] |}.

Definition one_lead_store : LeadStore :=
  dict_update_all score_lead (snd (upsert_lead_from_raw plain_urls 0%Q etg_member [])).

Definition deep_request : DeepEnrichRequest :=
  {| de_job_id := "job_0"; priorities := [HOT; WARM]; max_leads := 200;
     max_pages_per_lead := 6; same_domain_only := true |}.

Definition fresh_http : RobustHttp := new_http DEFAULT_TIMEOUT 0.5%float RESPECT_ROBOTS.

(** Strings made of characters of one class. *)
Fixpoint all_chars (p : ascii -> bool) (s : string) : bool :=
  match s with
  | EmptyString => true
  | String c r => p c && all_chars p r
  end.

(** The first two words of a digest are 32-bit words. *)
Definition two_words (st : Sha1.State) : Prop :=
  let '(h0, h1, _, _, _) := st in (0 <= h0 < 2 ^ 32)%Z /\ (0 <= h1 < 2 ^ 32)%Z.

(** What the page loops keep of a lead and its context. *)
Definition kept (l0 : Lead) (lead : Lead) (ctx : CompanyContext) : Prop :=
  sources lead = sources l0 /\ langs_ok (languages ctx).

(** A network on which no request gets an answer, and one on which every
    page is missing. *)
Definition dead_net : Net :=
  {| http_get := fun _ _ => Failure; random := fun _ => 0%Q |}.

Definition missing_net : Net :=
  {| http_get := fun _ _ => Response 404 "not found"; random := fun _ => 0%Q |}.

(** A fetcher that does not look at robots files. *)
Definition careless_http : RobustHttp := new_http DEFAULT_TIMEOUT 0.5%float false.

(** The back-off time of [n] failed attempts from attempt [i] on, without
    the random part: the sum of [BACKOFF_BASE ** j] for [i <= j < i + n]. *)
Fixpoint backoff_total (i n : nat) : Q :=
  match n with
  | O => 0%Q
  | S n' => (Qpower BACKOFF_BASE (Z.of_nat i) + backoff_total (S i) n')%Q
  end.

(** What a call of the fetcher may do to the caches and to the log of
    requests: entries are added, never removed or changed; the robots
    switch stays; requests are only added. *)
Definition grows (h : RobustHttp) (w : World) (h' : RobustHttp) (w' : World) : Prop :=
  cache h ⊆ cache h' /\ robots_cache h ⊆ robots_cache h'
  /\ respect_robots h' = respect_robots h
  /\ exists new, sent w' = (new ++ sent w)%list.

(** What the enrichment passes may do to a lead: the stack tags grow at
    the end and stay duplicate-free; a field that is filled is kept; the
    identity of the lead, its sources and what the scorer wrote stay. *)
Definition tags_grow (tags tags' : list StackTag) : Prop :=
  (exists more, tags' = (tags ++ more)%list) /\ (NoDup tags -> NoDup tags').

Definition first_wins (o o' : option string) : Prop := truthy o = true -> o' = o.

Definition extends (l l' : Lead) : Prop :=
  company_id l' = company_id l /\ company_name l' = company_name l
  /\ country l' = country l /\ segment l' = segment l /\ sources l' = sources l
  /\ score l' = score l /\ priority_class l' = priority_class l
  /\ reason l' = reason l /\ pitch l' = pitch l
  /\ tags_grow (stack_tags l) (stack_tags l')
  /\ first_wins (website l) (website l')
  /\ first_wins (contact_email l) (contact_email l')
  /\ first_wins (contact_url l) (contact_url l')
  /\ first_wins (phone l) (phone l').

(** The same between two stores: the same keys in the same order, and each
    lead extended. *)
Definition store_extends (LEADS LEADS' : LeadStore) : Prop :=
  Forall2 (fun a b => fst a = fst b /\ extends (snd a) (snd b)) LEADS LEADS'.

(** What the scorer leaves in a lead, and what holds of every entry of a
    store built by the operations. *)
Definition scored_ok (l : Lead) : Prop :=
  (0 <= score l <= 100)%Z
  /\ ((priority_class l = None /\ reason l = None /\ pitch l = None /\ score l = 0%Z)
      \/ (priority_class l = Some (priority_of (score l))
          /\ reason l <> None /\ pitch l <> None)).

Definition entry_ok (kl : string * Lead) : Prop :=
  company_id (snd kl) = fst kl
  /\ NoDup (stack_tags (snd kl))
  /\ sources (snd kl) <> []
  /\ segment (snd kl) <> None
  /\ scored_ok (snd kl).

(** [{"HOT":0,"WARM":1,"COLD":2}.get(r.priority_class or "COLD", 3)] *)
Definition tier (p : option Priority) : Z :=
  match p with
  | Some HOT => 0
  | Some WARM => 1
  | Some COLD | None => 2
  end.

(** [LeadPage] *)
Record LeadPage : Set := {
  items : list Lead;
  total : nat;
}.

(** Slices: the position that an index [i] of either sign stands for in a
    list of length [n], and [l[a:b]]. *)
Definition py_bound (n : nat) (i : Z) : nat :=
  if (i <? 0)%Z then Z.to_nat (Z.of_nat n + i) else Nat.min n (Z.to_nat i).

Definition py_slice {A} (a b : Z) (l : list A) : list A :=
  let lo := py_bound (length l) a in
  let hi := py_bound (length l) b in
  firstn (hi - lo) (skipn lo l).

(** The sort key [(tier, -r.score, r.country, r.company_name)] of
    [leads]. *)
Definition leads_leb (a b : Lead) : bool :=
  (tier (priority_class a) <? tier (priority_class b))%Z
  || ((tier (priority_class a) =? tier (priority_class b))%Z && target_leb a b).

(** The rows that [leads] selects, before they are sorted. *)
Definition leads_rows (priority : option Priority) (ctry : option string)
  (LEADS : LeadStore) : list Lead :=
  let rows := dict_values LEADS in
  let rows :=
    match priority with
    | Some p => List.filter (fun r => bool_decide (priority_class r = Some p)) rows
    | None => rows
    end in
  if truthy ctry
  then List.filter
         (fun r => String.eqb (PyStr.upper (country r)) (PyStr.upper (str_opt ctry))) rows
  else rows.

(** [leads(priority, country, limit, offset)] *)
Definition leads (priority : option Priority) (ctry : option string)
  (limit offset : Z) (LEADS : LeadStore) : LeadPage :=
  let rows := leads_rows priority ctry LEADS in
  {| items := py_slice offset (offset + limit) (sort_by leads_leb rows);
     total := length rows |}.

(** The order of a ranked list: a better tier first, and within a tier the
    higher score first. *)
Definition ranks_before (a b : Lead) : Prop :=
  (tier (priority_class a) < tier (priority_class b))%Z
  \/ (tier (priority_class a) = tier (priority_class b) /\ (score b <= score a)%Z).

(** What a merge may do to a stored lead: source hits are appended and
    stack tags are added; a segment or a website that is set is kept;
    everything else stays, [last_seen] included. *)
Definition merged (l l' : Lead) : Prop :=
  company_id l' = company_id l /\ company_name l' = company_name l
  /\ country l' = country l /\ score l' = score l
  /\ priority_class l' = priority_class l /\ reason l' = reason l /\ pitch l' = pitch l
  /\ contact_email l' = contact_email l /\ contact_url l' = contact_url l
  /\ phone l' = phone l /\ contacts l' = contacts l /\ context l' = context l
  /\ last_seen l' = last_seen l
  /\ (exists more, sources l' = (sources l ++ more)%list)
  /\ tags_grow (stack_tags l) (stack_tags l')
  /\ (segment l <> None -> segment l' = segment l)
  /\ (website l <> None -> website l' = website l).

(** What a scan may do to the store: stored leads are merged into, new
    leads are appended. *)
Definition store_merged (LEADS LEADS' : LeadStore) : Prop :=
  (forall k l, dict_get k LEADS = Some l ->
     exists l', dict_get k LEADS' = Some l' /\ merged l l')
  /\ exists new, map fst LEADS' = (map fst LEADS ++ new)%list.


(** A request for one source in one country. *)
Definition etg_dk_request : ScanRequest :=
  {| req_countries := ["DK"]; req_sources := ["ETG"];
     max_per_source := 2000; since_months := 18 |}.

(** Adapters that each find one company, with its website; tasks finish in
    submission order. *)
Definition acme_site : RawCompany :=
  {| rc_name := "Acme"; rc_country := "DK"; rc_website := Some "https://acme.com";
     rc_source := ETG; rc_source_url := None; rc_meta := [] |}.

Definition acme_partner : RawCompany :=
  {| rc_name := "Acme"; rc_country := "DK"; rc_website := Some "https://acme.com";
     rc_source := SIEMENS; rc_source_url := None; rc_meta := [] |}.


(** Adapters that each find one company whose website is a scheme without
    a host. *)
Definition hostless_site : RawCompany :=
  {| rc_name := "Acme"; rc_country := "DK"; rc_website := Some "http://";
     rc_source := ETG; rc_source_url := None; rc_meta := [] |}.

Definition hostless_scan : ScanEnv :=
  {| adapter_scan := fun _ _ _ _ _ => Some [hostless_site];
     as_completed := fun ts => ts |}.


(** ** Export: the rows of a report *)

Definition segment_str (s : Segment) : string :=
  match s with
  | OEM => "OEM" | SI => "SI" | Distributor => "Distributor" | RnD => "R&D"
  | University => "University" | Other => "Other"
  end.

(** The filters of an export request, with values of the types of the
    fields they are compared with; [None] stands for a key that is not in
    the dictionary. *)
Record ExportFilters : Set := {
  ef_priority : option (option Priority);
  ef_countries : option (list string);
  ef_segments : option (list (option Segment));
  ef_stacks : option (list StackTag);
  ef_min_score : option Z;
}.

(** One [if key in f: rows = [r for r in rows if ...]] step. *)
Definition filter_if {A B} (o : option A) (test : A -> B -> bool) (rows : list B)
  : list B :=
  match o with
  | Some v => List.filter (test v) rows
  | None => rows
  end.

Definition by_priority (v : option Priority) (r : Lead) : bool :=
  bool_decide (priority_class r = v).
Definition by_countries (v : list string) (r : Lead) : bool :=
  bool_decide (PyStr.upper (country r) ∈ List.map PyStr.upper v).
Definition by_segments (v : list (option Segment)) (r : Lead) : bool :=
  bool_decide (segment r ∈ v).
Definition by_stacks (v : list StackTag) (r : Lead) : bool :=
  existsb (fun t => bool_decide (t ∈ v)) (stack_tags r).
Definition by_min_score (v : Z) (r : Lead) : bool := (v <=? score r)%Z.

(** The sort key [_prio]:
    [(tier, -r.score, r.country, r.segment or "ZZ")]. *)
Definition segment_key (r : Lead) : string :=
  match segment r with Some s => segment_str s | None => "ZZ" end.

Definition export_leb (a b : Lead) : bool :=
  (tier (priority_class a) <? tier (priority_class b))%Z
  || ((tier (priority_class a) =? tier (priority_class b))%Z
      && ((- score a <? - score b)%Z
          || ((- score a =? - score b)%Z
              && (String.ltb (country a) (country b)
                  || (String.eqb (country a) (country b)
                      && String.leb (segment_key a) (segment_key b)))))).

(** [rows] of [export_leads], after the filters and the sort. *)
Definition export_selected (f : ExportFilters) (LEADS : LeadStore) : list Lead :=
  filter_if (ef_min_score f) by_min_score
    (filter_if (ef_stacks f) by_stacks
       (filter_if (ef_segments f) by_segments
          (filter_if (ef_countries f) by_countries
             (filter_if (ef_priority f) by_priority (dict_values LEADS))))).

Definition export_rows (f : ExportFilters) (LEADS : LeadStore) : list Lead :=
  sort_by export_leb (export_selected f LEADS).

(** The three sections of the Markdown report. *)
Definition md_section (p : Priority) (rows : list Lead) : list Lead :=
  List.filter (fun r => bool_decide (priority_class r = Some p)) rows.

(** ** Source adapters *)

(** What an adapter reads off one element of a listing page: the text of
    the name element ([""] when there is none), the first external link
    and the source URL it builds from the details link. *)
Record Card : Set := {
  card_name : string;
  card_site : option string;
  card_src : string;
}.

Definition ETG_BASE_URLS : list string :=
  ["https://www.ethercat.org/en/members/members.html";
   "https://www.ethercat.org/en/products/products.html"].

(** [if not name] and [if not name or len(name) < 2] *)
Definition name_ok (src : SourceName) (name : string) : bool :=
  match src with
  | UR | BECKHOFF => (2 <=? String.length name)%nat
  | _ => PyStr.nonempty name
  end.

Definition adapter_meta (src : SourceName) : list (string * string) :=
  match src with
  | PI_PROFINET => [("tech", "PROFINET")]
  | _ => []
  end.

Definition card_row (src : SourceName) (ctry : string) (el : Card) : RawCompany :=
  {| rc_name := card_name el; rc_country := ctry; rc_website := card_site el;
     rc_source := src; rc_source_url := Some (card_src el);
     rc_meta := adapter_meta src |}.

(** The loop over the elements of one page: the results, the names seen,
    and whether the loop ended with [return results]. *)
Fixpoint scan_cards (src : SourceName) (ctry : string) (max_items : Z)
  (cards : list Card) (results : list RawCompany) (seen : list string)
  : list RawCompany * list string * bool :=
  match cards with
  | [] => (results, seen, false)
  | el :: r =>
      if negb (name_ok src (card_name el)) then
        scan_cards src ctry max_items r results seen
      else if bool_decide (card_name el ∈ seen) then
        scan_cards src ctry max_items r results seen
      else
        let seen := card_name el :: seen in
        let results := (results ++ [card_row src ctry el])%list in
        if (max_items <=? Z.of_nat (length results))%Z then (results, seen, true)
        else scan_cards src ctry max_items r results seen
  end.

Section Adapters.
Context (U : UrlLib) (N : Net).
(** [soup.select(...)] and what is read off each element; and
    [urlencode({'country': country})]. *)
Context (select_cards : SourceName -> string -> list Card).
Context (urlencode_country : string -> string).

Definition adapter_urls (src : SourceName) (ctry : string) : list string :=
  match src with
  | ETG =>
      flat_map (fun base => [base; base ++ "?country=" ++ ctry; base ++ "#" ++ ctry])
        ETG_BASE_URLS
  | UR =>
      ["https://www.universal-robots.com/find-a-distributor/?" ++ urlencode_country ctry;
       "https://www.universal-robots.com/ur-plus/all/?" ++ urlencode_country ctry]
  | SIEMENS => ["https://partnerfinder.siemens.com/?country=" ++ ctry]
  | BECKHOFF =>
      ["https://www.beckhoff.com/en-en/company/partners/";
       "https://www.beckhoff.com/en-en/company/partners/?" ++ urlencode_country ctry;
       "https://www.beckhoff.com/en-en/contact/global-presence/"]
  | PI_PROFINET =>
      ["https://www.profibus.com/community/members";
       "https://www.profibus.com/community/members?" ++ urlencode_country ctry;
       "https://www.profibus.com/technology/pi-competence-centers"]
  | ODVA_ENIP | ROS2 => []
  end.

(** The loop over the pages of an adapter: a page that cannot be fetched
    is skipped. *)
Fixpoint scan_urls (depth : nat) (src : SourceName) (ctry : string) (max_items : Z)
  (urls : list string) (results : list RawCompany) (seen : list string)
  (h : RobustHttp) (w : World) : list RawCompany * RobustHttp * World :=
  match urls with
  | [] => (results, h, w)
  | url :: r =>
      match get U N depth url true h w with
      | (Ok html, h1, w1) =>
          let '(results, seen, returned) :=
            scan_cards src ctry max_items (select_cards src html) results seen in
          if returned then (results, h1, w1)
          else scan_urls depth src ctry max_items r results seen h1 w1
      | (Raise _, h1, w1) => scan_urls depth src ctry max_items r results seen h1 w1
      end
  end.

(** [ADAPTERS[src].scan(country, since_months, max_items)] *)
Definition adapter_pages (depth : nat) (src : SourceName) (ctry : string)
  (max_items : Z) (h : RobustHttp) (w : World) : list RawCompany * RobustHttp * World :=
  scan_urls depth src ctry max_items (adapter_urls src ctry) [] [] h w.

End Adapters.

(** What holds of the rows of an adapter while it runs. *)
Definition rows_ok (src : SourceName) (ctry : string) (results : list RawCompany)
  (seen : list string) : Prop :=
  Forall (fun rc => rc_country rc = ctry /\ rc_source rc = src
                    /\ name_ok src (rc_name rc) = true
                    /\ rc_source_url rc <> None /\ rc_meta rc = adapter_meta src) results
  /\ NoDup (List.map rc_name results)
  /\ incl (List.map rc_name results) seen.

(** The second loop of [candidate_links]: the candidates in descending
    order of score, keeping the first entry of every URL. *)
Fixpoint uniq_links (seen : list string) (cands : list (float * string))
  : list (float * string) :=
  match cands with
  | [] => []
  | (s, u) :: r =>
      if bool_decide (u ∈ seen) then uniq_links seen r
      else (s, u) :: uniq_links (u :: seen) r
  end.

Definition dedupe_links (cands : list (float * string)) : list (float * string) :=
  uniq_links [] (sort_by link_geb cands).

(** The number of entries of a dictionary stored under a key. *)
Definition dict_count {V} (k : string) (d : Dict V) : nat :=
  length (List.filter (fun kv => bool_decide (fst kv = k)) d).

(** Case analysis on a scrutinee of the goal that has no match inside. *)
Ltac break_match :=
  match goal with
  | |- context [match ?x with _ => _ end] =>
      lazymatch x with
      | context [match _ with _ => _ end] => fail
      | _ => destruct x
      end
  end.

(** The same, keeping the equation of the case. *)
Ltac break_match_eqn :=
  match goal with
  | |- context [match ?x with _ => _ end] =>
      lazymatch x with
      | context [match _ with _ => _ end] => fail
      | _ => destruct x eqn:?
      end
  end.

(* ================================================================== *)
(** * Properties *)

(** ** SHA-1 test vectors (FIPS 180-4, appendix) *)

Example sha1_abc :
  Sha1.hexdigest "abc" = "a9993e364706816aba3e25717850c26c9cd0d89d".
Proof. vm_compute. reflexivity. Qed.

Example sha1_empty :
  Sha1.hexdigest "" = "da39a3ee5e6b4b0d3255bfef95601890afd80709".
Proof. vm_compute. reflexivity. Qed.

Example sha1_two_blocks :
  Sha1.hexdigest "abcdbcdecdefdefgefghfghighijhijkijkljklmklmnlmnomnopnopq"
  = "84983e441c3bd26ebaae4aa1f95129e5e54670f1".
Proof. vm_compute. reflexivity. Qed.

(** ** Dictionaries *)

Lemma dict_get_set_eq {V} (k : string) (v : V) (d : Dict V) :
  dict_get k (dict_set k v d) = Some v.
Proof.
  induction d as [|[k' v'] d IH]; simpl.
  - destruct (decide (k = k)); congruence.
  - destruct (decide (k = k')) as [->|Hne]; simpl.
    + destruct (decide (k' = k')); congruence.
    + destruct (decide (k = k')); [congruence | exact IH].
Qed.

Lemma dict_get_set_ne {V} (k k' : string) (v : V) (d : Dict V) :
  k <> k' -> dict_get k' (dict_set k v d) = dict_get k' d.
Proof.
  intros Hne. induction d as [|[k0 v0] d IH]; simpl.
  - destruct (decide (k' = k)); congruence.
  - destruct (decide (k = k0)) as [->|Hk]; simpl.
    + destruct (decide (k' = k0)); congruence.
    + destruct (decide (k' = k0)); [reflexivity | exact IH].
Qed.

Lemma dict_count_absent {V} (k : string) (d : Dict V) :
  dict_get k d = None -> dict_count k d = 0%nat.
Proof.
  unfold dict_count. induction d as [|[k' v'] d IH]; simpl; [reflexivity|].
  destruct (decide (k = k')) as [->|Hne]; [discriminate|].
  intros Hnone. rewrite bool_decide_eq_false_2 by congruence. auto.
Qed.

Lemma dict_count_set_new {V} (k : string) (v : V) (d : Dict V) :
  dict_get k d = None -> dict_count k (dict_set k v d) = 1%nat.
Proof.
  unfold dict_count. induction d as [|[k' v'] d IH]; simpl.
  - intros _. rewrite bool_decide_eq_true_2; reflexivity.
  - destruct (decide (k = k')) as [->|Hne]; [discriminate|].
    intros Hnone. simpl. rewrite bool_decide_eq_false_2 by congruence. auto.
Qed.

Lemma dict_count_set_same {V} (k : string) (v : V) (d : Dict V) :
  is_Some (dict_get k d) -> dict_count k (dict_set k v d) = dict_count k d.
Proof.
  unfold dict_count. induction d as [|[k' v'] d IH]; simpl.
  - intros [? ?]; discriminate.
  - destruct (decide (k = k')) as [->|Hne]; simpl.
    + intros _. rewrite !bool_decide_eq_true_2; reflexivity.
    + intros Hs. rewrite !bool_decide_eq_false_2 by congruence. auto.
Qed.

Lemma dict_get_In {V} (k : string) (v : V) (d : Dict V) :
  dict_get k d = Some v -> In (k, v) d.
Proof.
  induction d as [|[k' v'] d IH]; simpl; [discriminate|].
  destruct (decide (k = k')) as [->|Hne].
  - intros [= ->]. now left.
  - intros Hg. right. auto.
Qed.

Lemma dict_set_In {V} (k k0 : string) (v v0 : V) (d : Dict V) :
  In (k0, v0) (dict_set k v d) -> (k0 = k /\ v0 = v) \/ In (k0, v0) d.
Proof.
  induction d as [|[k' v'] d IH]; simpl.
  - intros [[= <- <-]|[]]. now left.
  - destruct (decide (k = k')) as [->|Hne]; simpl.
    + intros [[= <- <-]|Hin]; [now left | right; now right].
    + intros [Heq|Hin]; [right; now left|].
      destruct (IH Hin) as [?|?]; [now left | right; now right].
Qed.

(** ** The scenario of the two Acme candidates *)

(** C2: upserting the ETG candidate for Acme (DK) into the empty store and
    then the SIEMENS candidate gives one lead, stored under the one id both
    candidates map to, with two source hits, with the stack tags EtherCAT,
    PROFINET and TIA, and with the segment OEM of the first candidate. *)
Theorem acme_scenario (U : UrlLib) (t : Time) :
  company_id_from U (rc_website acme_etg) (rc_name acme_etg) (rc_country acme_etg)
  = company_id_from U (rc_website acme_siemens) (rc_name acme_siemens)
      (rc_country acme_siemens)
  /\ exists lead,
      upsert_all U t [acme_etg; acme_siemens] [] = (Ok tt, [("2f76ed360a3abe1a", lead)])
      /\ length (sources lead) = 2%nat
      /\ In EtherCAT (stack_tags lead) /\ In PROFINET (stack_tags lead)
      /\ In TIA (stack_tags lead)
      /\ segment lead = Some OEM
      /\ default_segment (rc_source acme_siemens) = Some SI.
Proof.
  split; [reflexivity|].
  eexists. split; [vm_compute; reflexivity|].
  simpl. repeat split; auto.
Qed.

(** ** The merge engine *)

Lemma append_new_In {A} `{EqDecision A} (ts tags : list A) (t : A) :
  In t (append_new tags ts) <-> In t tags \/ In t ts.
Proof.
  revert tags. induction ts as [|x ts IH]; intros tags; simpl.
  - tauto.
  - rewrite IH. case_bool_decide as Hx.
    + apply list_elem_of_In in Hx. split; [tauto|].
      intros [?|[<-|?]]; tauto.
    + rewrite in_app_iff. simpl. tauto.
Qed.

Section MergeProperties.
Context (U : UrlLib).

(** The three ways a call of [upsert_lead_from_raw] ends: a merge into the
    lead of the id, a new lead, an exception that leaves the store as it
    was. *)
Lemma upsert_cases (t : Time) (rc : RawCompany) (LEADS : LeadStore) :
  (exists l0, dict_get (cid_of U rc) LEADS = Some l0
     /\ upsert_lead_from_raw U t rc LEADS
        = (Ok (merge_lead l0 rc), dict_set (cid_of U rc) (merge_lead l0 rc) LEADS))
  \/ (exists site, dict_get (cid_of U rc) LEADS = None
        /\ new_lead U t (cid_of U rc) rc = Ok (lead_of t (cid_of U rc) rc site)
        /\ upsert_lead_from_raw U t rc LEADS
           = (Ok (lead_of t (cid_of U rc) rc site),
              dict_set (cid_of U rc) (lead_of t (cid_of U rc) rc site) LEADS))
  \/ (dict_get (cid_of U rc) LEADS = None
      /\ ~ website_ok U rc
      /\ upsert_lead_from_raw U t rc LEADS = (Raise ValidationError, LEADS)).
Proof.
  unfold upsert_lead_from_raw, new_lead, website_ok.
  destruct (dict_get (cid_of U rc) LEADS) as [l0|] eqn:Hg.
  - left. now exists l0.
  - right. destruct (rc_website rc) as [w|] eqn:Hw.
    + destruct (http_url U w) as [w'|] eqn:Hu.
      * left. now exists (Some w').
      * right. repeat split; try reflexivity.
        intros Hok. now apply (Hok w).
    + left. now exists None.
Qed.

Lemma upsert_all_cons_ok (t : Time) (rc : RawCompany) (rcs : list RawCompany)
  (LEADS LEADS' : LeadStore) (l : Lead) :
  upsert_lead_from_raw U t rc LEADS = (Ok l, LEADS') ->
  upsert_all U t (rc :: rcs) LEADS = upsert_all U t rcs LEADS'.
Proof. intros Hu. cbn [upsert_all]. now rewrite Hu. Qed.

Lemma upsert_all_cons_raise (t : Time) (rc : RawCompany) (rcs : list RawCompany)
  (LEADS LEADS' : LeadStore) (e : Error) :
  upsert_lead_from_raw U t rc LEADS = (Raise e, LEADS') ->
  upsert_all U t (rc :: rcs) LEADS = (Raise e, LEADS').
Proof. intros Hu. cbn [upsert_all]. now rewrite Hu. Qed.

(** Upserts into a store that already holds a lead under the id. *)
Lemma upsert_all_present (t : Time) (cid : string) (rcs : list RawCompany) :
  Forall (fun rc => cid_of U rc = cid) rcs ->
  forall (LEADS : LeadStore) (l0 : Lead),
    dict_get cid LEADS = Some l0 ->
    exists lead,
      fst (upsert_all U t rcs LEADS) = Ok tt
      /\ dict_get cid (snd (upsert_all U t rcs LEADS)) = Some lead
      /\ dict_count cid (snd (upsert_all U t rcs LEADS)) = dict_count cid LEADS
      /\ sources lead = (sources l0 ++ map hit_of rcs)%list
      /\ (forall tag, In tag (stack_tags lead) <->
            In tag (stack_tags l0)
            \/ exists rc, In rc rcs /\ In tag (base_stacks (rc_source rc)))
      /\ (segment l0 <> None -> segment lead = segment l0).
Proof.
  induction 1 as [|rc rcs Hrc Hall IH]; intros LEADS l0 Hget.
  - exists l0. simpl. rewrite app_nil_r. repeat split; auto.
    intros [?|(rc & [] & _)]; assumption.
  - assert (Hu : upsert_lead_from_raw U t rc LEADS
                 = (Ok (merge_lead l0 rc), dict_set cid (merge_lead l0 rc) LEADS)).
    { unfold upsert_lead_from_raw. now rewrite Hrc, Hget. }
    rewrite (upsert_all_cons_ok _ _ _ _ _ _ Hu).
    destruct (IH (dict_set cid (merge_lead l0 rc) LEADS) (merge_lead l0 rc))
      as (lead & Hr & Hl & Hc & Hs & Ht & Hseg).
    { apply dict_get_set_eq. }
    exists lead. split; [exact Hr|]. split; [exact Hl|]. split.
    { rewrite Hc. apply dict_count_set_same. rewrite Hget. eauto. }
    split.
    { rewrite Hs. simpl. rewrite <- app_assoc. reflexivity. }
    split.
    { intros tag. rewrite Ht. simpl. rewrite append_new_In. split.
      - intros [[?|?]|(rc' & Hin & Htag)]; [tauto| |].
        + right. exists rc. split; [now left | assumption].
        + right. exists rc'. split; [now right | assumption].
      - intros [?|(rc' & [<-|Hin] & Htag)]; [tauto|tauto|].
        right. exists rc'. tauto. }
    intros Hne. rewrite Hseg.
    + simpl. destruct (segment l0); [reflexivity | contradiction].
    + simpl. destruct (segment l0); [discriminate | contradiction].
Qed.

(** Upserts of candidates of one company into a store without it, when the
    first of them passes the validation. *)
Lemma upsert_all_fresh (t : Time) (cid : string) (rcs : list RawCompany)
  (LEADS : LeadStore) :
  rcs <> [] ->
  Forall (fun rc => cid_of U rc = cid) rcs ->
  Forall (website_ok U) rcs ->
  dict_get cid LEADS = None ->
  exists lead,
    fst (upsert_all U t rcs LEADS) = Ok tt
    /\ dict_get cid (snd (upsert_all U t rcs LEADS)) = Some lead
    /\ dict_count cid (snd (upsert_all U t rcs LEADS)) = 1%nat
    /\ sources lead = map hit_of rcs
    /\ (forall tag, In tag (stack_tags lead) <->
          exists rc, In rc rcs /\ In tag (base_stacks (rc_source rc))).
Proof.
  intros Hne Hall Hweb Hnone. destruct rcs as [|rc rcs]; [congruence|].
  inversion Hall as [|? ? Hrc Hall']; subst.
  inversion Hweb as [|? ? Hw _]; subst.
  set (cid := cid_of U rc) in *.
  destruct (upsert_cases t rc LEADS)
    as [(l0 & Hg & _) | [(site & _ & _ & Hu) | (_ & Hbad & _)]];
    [fold cid in Hg; congruence | | contradiction].
  fold cid in Hu. rewrite (upsert_all_cons_ok _ _ _ _ _ _ Hu).
  destruct (upsert_all_present t cid rcs Hall'
              (dict_set cid (lead_of t cid rc site) LEADS) (lead_of t cid rc site))
    as (lead & Hr & Hl & Hc & Hs & Ht & _).
  { apply dict_get_set_eq. }
  exists lead. split; [exact Hr|]. split; [exact Hl|]. split.
  { rewrite Hc. now apply dict_count_set_new. }
  split; [exact Hs|].
  intros tag. rewrite Ht. simpl. split.
  - intros [Hin|(rc' & Hin & Htag)].
    + exists rc. split; [now left | exact Hin].
    + exists rc'. split; [now right | exact Htag].
  - intros (rc' & [<-|Hin] & Htag); [now left|].
    right. exists rc'. tauto.
Qed.

(** Leads stored under other ids are left as they are. *)
Lemma upsert_all_other (t : Time) (cid k : string) (rcs : list RawCompany) :
  Forall (fun rc => cid_of U rc = cid) rcs ->
  k <> cid ->
  forall LEADS : LeadStore,
    dict_get k (snd (upsert_all U t rcs LEADS)) = dict_get k LEADS.
Proof.
  induction 1 as [|rc rcs Hrc Hall IH]; intros Hk LEADS; [reflexivity|].
  destruct (upsert_cases t rc LEADS)
    as [(l0 & _ & Hu) | [(site & _ & _ & Hu) | (_ & _ & Hu)]].
  - rewrite (upsert_all_cons_ok _ _ _ _ _ _ Hu), IH by assumption.
    rewrite Hrc. apply dict_get_set_ne. congruence.
  - rewrite (upsert_all_cons_ok _ _ _ _ _ _ Hu), IH by assumption.
    rewrite Hrc. apply dict_get_set_ne. congruence.
  - now rewrite (upsert_all_cons_raise _ _ _ _ _ _ Hu).
Qed.

(** C1, as the code has it: a non-empty sequence of candidates of one
    company, each with no website or with one that the validation of the
    lead accepts, upserted one after the other into a store that has no
    lead under their id, raises nothing and leaves exactly one lead under
    that id; its sources are the hits of the candidates in submission
    order, each with the candidate's source name, the strength constant of
    that source and the candidate's source URL; its stack tags are, as a
    set, the union of the tags the sources imply.  Submitting the
    candidates in another order gives the same set of tags and the same
    hits up to their order. *)
Theorem upsert_same_company (t : Time) (cid : string) (rcs : list RawCompany)
  (LEADS : LeadStore) :
  rcs <> [] ->
  Forall (fun rc => cid_of U rc = cid) rcs ->
  Forall (website_ok U) rcs ->
  dict_get cid LEADS = None ->
  exists lead,
    fst (upsert_all U t rcs LEADS) = Ok tt
    /\ dict_get cid (snd (upsert_all U t rcs LEADS)) = Some lead
    /\ dict_count cid (snd (upsert_all U t rcs LEADS)) = 1%nat
    /\ sources lead
       = map (fun rc => {| hit_name := rc_source rc;
                           hit_strength := src_strength (rc_source rc);
                           hit_source_url := rc_source_url rc |}) rcs
    /\ (forall tag, In tag (stack_tags lead) <->
          exists rc, In rc rcs /\ In tag (base_stacks (rc_source rc)))
    /\ (forall rcs', Permutation rcs rcs' ->
          exists lead',
            fst (upsert_all U t rcs' LEADS) = Ok tt
            /\ dict_get cid (snd (upsert_all U t rcs' LEADS)) = Some lead'
            /\ Permutation (sources lead) (sources lead')
            /\ (forall tag, In tag (stack_tags lead) <-> In tag (stack_tags lead'))).
Proof.
  intros Hne Hall Hweb Hnone.
  destruct (upsert_all_fresh t cid rcs LEADS Hne Hall Hweb Hnone)
    as (lead & Hr & Hl & Hc & Hs & Ht).
  exists lead. repeat split; try assumption; try (apply Ht).
  intros rcs' Hperm.
  assert (Hne' : rcs' <> []).
  { intros ->. symmetry in Hperm. apply Permutation_nil in Hperm. congruence. }
  assert (Hall' : Forall (fun rc => cid_of U rc = cid) rcs').
  { now apply (Permutation_Forall Hperm). }
  assert (Hweb' : Forall (website_ok U) rcs').
  { now apply (Permutation_Forall Hperm). }
  destruct (upsert_all_fresh t cid rcs' LEADS Hne' Hall' Hweb' Hnone)
    as (lead' & Hr' & Hl' & _ & Hs' & Ht').
  exists lead'. split; [exact Hr'|]. split; [exact Hl'|]. split.
  - rewrite Hs, Hs'. now apply Permutation_map.
  - intros tag. rewrite Ht, Ht'. split; intros (rc & Hin & Htag); exists rc;
      (split; [|exact Htag]).
    + apply Permutation_in with (l := rcs); assumption.
    + apply Permutation_in with (l := rcs'); [now symmetry | assumption].
Qed.

End MergeProperties.

Lemma upsert_same_company_witness :
  exists lead,
    dict_get (cid_of plain_urls acme_site)
      (snd (upsert_all plain_urls 0%Q [acme_site; acme_partner] [])) = Some lead
    /\ length (sources lead) = 2%nat.
Proof.
  destruct (upsert_same_company plain_urls 0%Q (cid_of plain_urls acme_site)
              [acme_site; acme_partner] [])
    as (lead & _ & Hl & _ & Hs & _).
  - discriminate.
  - constructor; [reflexivity|].
    constructor; [vm_compute; reflexivity | constructor].
  - constructor; [intros w [= <-]; vm_compute; discriminate|].
    constructor; [intros w [= <-]; vm_compute; discriminate | constructor].
  - reflexivity.
  - exists lead. split; [exact Hl|]. rewrite Hs. reflexivity.
Defined.

(** C1, as it is stated, fails: the two candidates below have the same
    id; submitted with the one without a website first they give one lead
    with two source hits, and submitted in the other order the first call
    raises the validation error of the lead's website, and the store is
    left without a lead. *)
Theorem upsert_order_raises :
  cid_of plain_urls bare_candidate = cid_of plain_urls sited_candidate
  /\ (exists lead,
        upsert_all plain_urls 0%Q [bare_candidate; sited_candidate] []
        = (Ok tt, [(cid_of plain_urls bare_candidate, lead)])
        /\ length (sources lead) = 2%nat)
  /\ upsert_all plain_urls 0%Q [sited_candidate; bare_candidate] []
     = (Raise ValidationError, []).
Proof.
  split; [vm_compute; reflexivity|]. split.
  - eexists. split; [vm_compute; reflexivity|]. reflexivity.
  - vm_compute. reflexivity.
Qed.

(** ** The scorer: idempotence *)

Lemma score_lead_idempotent (l : Lead) : score_lead (score_lead l) = score_lead l.
Proof. destruct l. reflexivity. Qed.

Lemma dict_update_all_idempotent {V} (f : V -> V) (d : Dict V) :
  (forall v, f (f v) = f v) ->
  dict_update_all f (dict_update_all f d) = dict_update_all f d.
Proof.
  intros Hf. unfold dict_update_all. rewrite map_map. apply map_ext.
  intros [k v]. simpl. now rewrite Hf.
Qed.

(** C8: a second run of [score] right after a first one leaves the store
    as the first run left it; in particular the score, the priority class,
    the reason and the pitch of every lead are the same after both runs. *)
Theorem score_twice (t1 t2 : Time) (jid1 jid2 : string)
  (LEADS : LeadStore) (JOBS : JobRegistry) :
  let '(_, LEADS1, JOBS1) := score_op t1 jid1 LEADS JOBS in
  let '(_, LEADS2, _) := score_op t2 jid2 LEADS1 JOBS1 in
  LEADS2 = LEADS1
  /\ forall k l1, dict_get k LEADS1 = Some l1 ->
       exists l2, dict_get k LEADS2 = Some l2
         /\ score l2 = score l1 /\ priority_class l2 = priority_class l1
         /\ reason l2 = reason l1 /\ pitch l2 = pitch l1.
Proof.
  simpl.
  assert (Heq : dict_update_all score_lead (dict_update_all score_lead LEADS)
                = dict_update_all score_lead LEADS).
  { apply dict_update_all_idempotent, score_lead_idempotent. }
  split; [exact Heq|].
  intros k l1 Hl1. exists l1. rewrite Heq. auto.
Qed.

(** ** Operations called with an unknown job id *)

Lemma touch_job_unknown (st : StatusType) (t : Time) (jid : string) (JOBS : JobRegistry) :
  JOBS !! jid = None -> touch_job st t jid JOBS = JOBS.
Proof. intros Hn. unfold touch_job. now rewrite Hn. Qed.

(** C9: [enrich] and [score] called with a job id that is not in the job
    registry answer with the status "enriched" (resp. "scored"), leave the
    registry as it is, and treat the leads (and, for [enrich], the fetcher)
    exactly as a call with any other job id does. *)
Theorem unknown_job_id (U : UrlLib) (N : Net) (H : Html) (depth : nat)
  (jid : string) (LEADS : LeadStore) (JOBS : JobRegistry)
  (h : RobustHttp) (w : World) (t : Time) :
  JOBS !! jid = None ->
  (forall jid',
     let '(r, L, J, h1, w1) := enrich U N H depth jid LEADS JOBS h w in
     let '(_, L', _, h2, w2) := enrich U N H depth jid' LEADS JOBS h w in
     r = {| ja_job_id := jid; ja_status := enriched |}
     /\ J = JOBS /\ L = L' /\ h1 = h2 /\ w1 = w2)
  /\ (forall jid',
        let '(r, L, J) := score_op t jid LEADS JOBS in
        let '(_, L', _) := score_op t jid' LEADS JOBS in
        r = {| ja_job_id := jid; ja_status := scored |}
        /\ J = JOBS /\ L = L').
Proof.
  intros Hn. split; intros jid'.
  - unfold enrich.
    destruct (enrich_leads U N H depth LEADS h w) as [[L h1] w1].
    rewrite touch_job_unknown by exact Hn. auto.
  - unfold score_op. rewrite touch_job_unknown by exact Hn. auto.
Qed.

Lemma unknown_job_id_witness :
  fst (fst (fst (fst (enrich plain_urls open_net blank_html 8 "job_0" [] ∅
                        (new_http DEFAULT_TIMEOUT 0.5%float RESPECT_ROBOTS)
                        {| now := 0%Q; sent := []; draws := 0 |}))))
  = {| ja_job_id := "job_0"; ja_status := enriched |}.
Proof.
  pose proof (unknown_job_id plain_urls open_net blank_html 8 "job_0" [] ∅
                (new_http DEFAULT_TIMEOUT 0.5%float RESPECT_ROBOTS)
                {| now := 0%Q; sent := []; draws := 0 |} 0%Q
                (lookup_empty "job_0")) as [He _].
  specialize (He "job_0"). simpl in He. apply He.
Defined.

(** ** The fetcher: cache hits *)

Lemma get_unfold (U : UrlLib) (N : Net) (d : nat) (url : string) (cache_ok : bool)
  (h : RobustHttp) (w : World) :
  get U N (S d) url cache_ok h w
  = match (if cache_ok then cache h !! url else None) with
    | Some body => (Ok body, h, w)
    | None =>
        let '(allowed, h1, w1) := robots_allowed_with U (get U N d) url h w in
        if negb allowed then (Raise (RobotsDisallow (url_netloc U url)), h1, w1)
        else get_loop N url (url_netloc U url) cache_ok 0 MAX_RETRIES h1 w1
    end.
Proof. reflexivity. Qed.

(** C10: [get] with [cache_ok=True] for a URL that is in the response cache
    returns the cached body and leaves the fetcher and its surroundings as
    they are: no request is sent, no time passes, the rate buckets and the
    robots cache are not touched, and no robots policy is looked at. *)
Theorem cached_get (U : UrlLib) (N : Net) (depth : nat) (url body : string)
  (h : RobustHttp) (w : World) :
  cache h !! url = Some body ->
  let '(r, h', w') := get U N (S depth) url true h w in
  r = Ok body /\ h' = h /\ w' = w
  /\ sent w' = sent w /\ now w' = now w /\ buckets h' = buckets h.
Proof. intros Hc. rewrite get_unfold, Hc. cbv beta iota. repeat split; reflexivity. Qed.

Lemma cached_get_witness :
  robots_cache forbidden_host_http
    !! robots_url_of plain_urls "https://example.com/page" = Some "Disallow: /"
  /\ fst (fst (get plain_urls open_net 1 "https://example.com/page" true
                 forbidden_host_http {| now := 0%Q; sent := []; draws := 0 |}))
     = Ok "<html>cached</html>".
Proof.
  split; [reflexivity|].
  pose proof (cached_get plain_urls open_net 0 "https://example.com/page"
                "<html>cached</html>" forbidden_host_http
                {| now := 0%Q; sent := []; draws := 0 |}) as Hc.
  destruct (get plain_urls open_net 1 "https://example.com/page" true
              forbidden_host_http {| now := 0%Q; sent := []; draws := 0 |})
    as [[r h'] w'].
  apply Hc. reflexivity.
Defined.

(** ** The fetcher: the robots gate *)

Lemma wait_host_sent (host : string) (h : RobustHttp) (w : World) :
  sent (snd (wait_host host h w)) = sent w.
Proof.
  unfold wait_host, bucket_wait.
  destruct (Qle_bool _ _); reflexivity.
Qed.

(** The retry loop begins by sending the request. *)
Lemma get_loop_sends (N : Net) (url host : string) (cache_ok : bool) (n i : nat)
  (h : RobustHttp) (w : World) :
  exists earlier,
    sent (snd (get_loop N url host cache_ok i (S n) h w))
    = (earlier ++ url :: sent w)%list.
Proof.
  revert i h w. induction n as [|n IH]; intros i h w.
  - cbn [get_loop].
    pose proof (wait_host_sent host h w) as Hw.
    destruct (wait_host host h w) as [h1 w1]. simpl in Hw.
    unfold draw. cbn [fst snd now sent draws].
    destruct (http_get N (sent w1) url) as [code body|].
    + destruct ((200 <=? code)%Z && (code <? 300)%Z).
      * exists []. simpl. now rewrite Hw.
      * destruct (retryable code); exists []; simpl; now rewrite Hw.
    + exists []. simpl. now rewrite Hw.
  - remember (S n) as m eqn:Hm. cbn [get_loop].
    pose proof (wait_host_sent host h w) as Hw.
    destruct (wait_host host h w) as [h1 w1]. simpl in Hw.
    unfold draw. cbn [fst snd now sent draws].
    destruct (http_get N (sent w1) url) as [code body|].
    + destruct ((200 <=? code)%Z && (code <? 300)%Z).
      * exists []. simpl. now rewrite Hw.
      * destruct (retryable code).
        -- subst m. edestruct IH as [pre Hpre]. rewrite Hpre.
           exists (pre ++ [url])%list. cbn [sleep sent]. rewrite Hw.
           now rewrite <- app_assoc.
        -- exists []. simpl. now rewrite Hw.
    + subst m. edestruct IH as [pre Hpre]. rewrite Hpre.
      exists (pre ++ [url])%list. cbn [sleep sent]. rewrite Hw.
      now rewrite <- app_assoc.
Qed.

(** C5, as the code has it: for a URL that is not served from the response
    cache, with robots compliance on and the robots file of the host in the
    robots cache, [get] raises the robots error, before any request and
    without any other effect, exactly when that file contains the text
    "Disallow: /" anywhere; otherwise, and whenever robots compliance is
    off, it enters the request loop, which sends the request. *)
Theorem robots_gate (U : UrlLib) (N : Net) (depth : nat) (url : string)
  (cache_ok : bool) (h : RobustHttp) (w : World) :
  (if cache_ok then cache h !! url else None) = None ->
  (respect_robots h = false ->
     get U N (S depth) url cache_ok h w
     = get_loop N url (url_netloc U url) cache_ok 0 MAX_RETRIES h w)
  /\ (forall txt,
        respect_robots h = true ->
        robots_cache h !! robots_url_of U url = Some txt ->
        get U N (S depth) url cache_ok h w
        = if PyStr.contains "Disallow: /" txt
          then (Raise (RobotsDisallow (url_netloc U url)), h, w)
          else get_loop N url (url_netloc U url) cache_ok 0 MAX_RETRIES h w)
  /\ (exists earlier,
        sent (snd (get_loop N url (url_netloc U url) cache_ok 0 MAX_RETRIES h w))
        = (earlier ++ url :: sent w)%list).
Proof.
  intros Hmiss. split; [|split].
  - intros Hoff. rewrite get_unfold, Hmiss.
    unfold robots_allowed_with. rewrite Hoff. reflexivity.
  - intros txt Hon Hrobots. rewrite get_unfold, Hmiss.
    unfold robots_allowed_with. rewrite Hon, Hrobots. cbv beta iota.
    unfold robots_text_allows.
    destruct (PyStr.contains "Disallow: /" txt); reflexivity.
  - apply get_loop_sends.
Qed.

Lemma robots_gate_witness :
  get plain_urls open_net 8 "https://example.com/page" true private_path_http world0
  = (Raise (RobotsDisallow "example.com"), private_path_http, world0).
Proof.
  pose proof (robots_gate plain_urls open_net 7 "https://example.com/page" true
                private_path_http world0 eq_refl) as (_ & Hon & _).
  rewrite (Hon "Disallow: /private" eq_refl eq_refl). reflexivity.
Defined.

(** C5, as it is stated, fails: the robots file below has no blanket rule
    for "/", only a rule for the path "/private", and the fetch of a page
    of that host is refused all the same. *)
Lemma path_rule_blocks_fetch :
  blanket_disallow "Disallow: /private" = false
  /\ robots_cache private_path_http
       !! robots_url_of plain_urls "https://example.com/page"
     = Some "Disallow: /private"
  /\ cache private_path_http !! "https://example.com/page" = None
  /\ respect_robots private_path_http = true
  /\ fst (fst (get plain_urls open_net 8 "https://example.com/page" true
                 private_path_http world0))
     = Raise (RobotsDisallow "example.com").
Proof. vm_compute. repeat split; reflexivity. Qed.

(** When the robots file of the host is not in the robots cache,
    [robots_allowed] asks [get] for it, and that call asks [robots_allowed]
    about the robots URL itself: the two call each other until the call
    stack has no room left.  What the outermost call then does with a
    blanket rule depends on the room there was: with room for three calls
    the page is fetched, with room for four the fetch is refused. *)
Example uncached_robots_file :
  let page := "https://example.com/page" in
  (let '(r, _, w) := get plain_urls strict_net 3 page true fresh_http world0 in
   r = Ok "<html></html>"
   /\ sent w = [page; "https://example.com/robots.txt"])
  /\ (let '(r, _, w) := get plain_urls strict_net 4 page true fresh_http world0 in
      r = Raise (RobotsDisallow "example.com")
      /\ sent w = ["https://example.com/robots.txt"; "https://example.com/robots.txt"]).
Proof. vm_compute. repeat split; reflexivity. Qed.

(** ** The scan orchestrator *)

Section ScanProperties.
Context (U : UrlLib) (E : ScanEnv).

(** A task whose adapter raises on each of its [MAX_RETRIES] calls ends
    with an error and no rows. *)
Lemma scan_task_exhausted (req : ScanRequest) (src : SourceName) (c : string) :
  (forall i, (i < MAX_RETRIES)%nat ->
     adapter_scan E src c (since_months req) (max_per_source req) i = None) ->
  scan_task E req src c = ([], true).
Proof.
  intros Hfail. unfold scan_task.
  assert (Hgen : forall n i, (i + n <= MAX_RETRIES)%nat ->
            scan_attempts E req src c i n = ([], true)).
  { induction n as [|n IH]; intros i Hi; [reflexivity|].
    simpl. rewrite Hfail by lia. apply IH. lia. }
  apply Hgen. lia.
Qed.

(** A task whose adapter returns at call [i], after raising at the calls
    before it, ends with the rows of that call. *)
Lemma scan_task_returns (req : ScanRequest) (src : SourceName) (c : string)
  (i : nat) (rows : list RawCompany) :
  (i < MAX_RETRIES)%nat ->
  (forall k, (k < i)%nat ->
     adapter_scan E src c (since_months req) (max_per_source req) k = None) ->
  adapter_scan E src c (since_months req) (max_per_source req) i = Some rows ->
  scan_task E req src c = (rows, false).
Proof.
  intros Hi Hfail Hok. unfold scan_task.
  assert (Hgen : forall n k, (k <= i)%nat -> (i < k + n)%nat ->
            scan_attempts E req src c k n = (rows, false)).
  { induction n as [|n IH]; intros k Hk Hn; [lia|].
    simpl. destruct (Nat.eq_dec k i) as [->|Hne].
    - now rewrite Hok.
    - rewrite Hfail by lia. apply IH; lia. }
  apply Hgen; lia.
Qed.

(** What the two kinds of task add to the counters. *)
Lemma task_counts (req : ScanRequest) (src : SourceName) (c : string) :
  ((forall i, (i < MAX_RETRIES)%nat ->
      adapter_scan E src c (since_months req) (max_per_source req) i = None) ->
   task_found E req (src, c) = 0%Z /\ task_errors E req (src, c) = 1%Z)
  /\ (forall i rows,
        (i < MAX_RETRIES)%nat ->
        (forall k, (k < i)%nat ->
           adapter_scan E src c (since_months req) (max_per_source req) k = None) ->
        adapter_scan E src c (since_months req) (max_per_source req) i = Some rows ->
        task_found E req (src, c) = Z.of_nat (length rows)
        /\ task_errors E req (src, c) = 0%Z).
Proof.
  unfold task_found, task_errors. cbn [fst snd]. split.
  - intros Hfail. now rewrite (scan_task_exhausted req src c Hfail).
  - intros i rows Hi Hfail Hok. now rewrite (scan_task_returns req src c i rows Hi Hfail Hok).
Qed.

Lemma sum_Z_cons (x : Z) (l : list Z) : sum_Z (x :: l) = (x + sum_Z l)%Z.
Proof. reflexivity. Qed.

(** Candidates that pass the validation are upserted without an
    exception. *)
Lemma upsert_all_valid (t : Time) (rcs : list RawCompany) (LEADS : LeadStore) :
  Forall (website_ok U) rcs -> fst (upsert_all U t rcs LEADS) = Ok tt.
Proof.
  intros Hall. revert LEADS.
  induction Hall as [|rc rcs Hrc Hall IH]; intros LEADS; [reflexivity|].
  destruct (upsert_cases U t rc LEADS)
    as [(l0 & _ & Hu) | [(site & _ & _ & Hu) | (_ & Hbad & _)]];
    [| | contradiction];
    rewrite (upsert_all_cons_ok U _ _ _ _ _ _ Hu); apply IH.
Qed.

Lemma merge_tasks_cons_ok (t : Time) (req : ScanRequest) (total : Z)
  (task : SourceName * string) (tasks : list (SourceName * string))
  (st st' : ScanState) (u : unit) :
  merge_task U E t req total st task = (Ok u, st') ->
  merge_tasks U E t req total (task :: tasks) st = merge_tasks U E t req total tasks st'.
Proof. intros Hm. cbn [merge_tasks]. now rewrite Hm. Qed.

Lemma merge_tasks_cons_raise (t : Time) (req : ScanRequest) (total : Z)
  (task : SourceName * string) (tasks : list (SourceName * string))
  (st st' : ScanState) (e : Error) :
  merge_task U E t req total st task = (Raise e, st') ->
  merge_tasks U E t req total (task :: tasks) st = (Raise e, st').
Proof. intros Hm. cbn [merge_tasks]. now rewrite Hm. Qed.

(** Merging a task whose rows pass the validation. *)
Lemma merge_task_valid (t : Time) (req : ScanRequest) (total : Z)
  (st : ScanState) (task : SourceName * string) :
  task_valid U E req task ->
  exists st',
    merge_task U E t req total st task = (Ok tt, st')
    /\ ss_found st' = (ss_found st + task_found E req task)%Z
    /\ ss_errors st' = (ss_errors st + task_errors E req task)%Z.
Proof.
  destruct task as [src c].
  unfold task_valid, merge_task, task_found, task_errors. cbn [fst snd].
  destruct (scan_task E req src c) as [rows [|]]; cbn [fst]; intros Hv.
  - eexists. split; [reflexivity|]. cbn [ss_found ss_errors]. lia.
  - pose proof (upsert_all_valid t rows (ss_leads st) Hv) as Hr.
    destruct (upsert_all U t rows (ss_leads st)) as [r leads]. cbn [fst] in Hr.
    subst r. eexists. split; [reflexivity|]. cbn [ss_found ss_errors]. lia.
Qed.

Lemma merge_tasks_counters (t : Time) (req : ScanRequest) (total : Z)
  (tasks : list (SourceName * string)) (st : ScanState) :
  Forall (task_valid U E req) tasks ->
  exists st',
    merge_tasks U E t req total tasks st = (Ok tt, st')
    /\ ss_found st' = (ss_found st + sum_Z (map (task_found E req) tasks))%Z
    /\ ss_errors st' = (ss_errors st + sum_Z (map (task_errors E req) tasks))%Z.
Proof.
  intros Hall. revert st.
  induction Hall as [|task tasks Hv Hall IH]; intros st.
  - exists st. simpl. repeat split; lia.
  - destruct (merge_task_valid t req total st task Hv) as (st1 & Hm & Hf1 & He1).
    rewrite (merge_tasks_cons_ok _ _ _ _ _ _ _ _ Hm).
    destruct (IH st1) as (st' & Hms & Hf & He).
    exists st'. split; [exact Hms|]. cbn [map]. rewrite !sum_Z_cons. lia.
Qed.

(** With at least one registered source in the request and rows that pass
    the validation of the lead's website, [start_scan] ends with the job
    in status "scanned": a task that used up its retries adds one to
    [errors], any other task adds the number of its rows to [found], and
    every finished task is merged. *)
Lemma start_scan_completes (t : Time) (jid : string) (req : ScanRequest)
  (LEADS : LeadStore) (JOBS : JobRegistry) :
  expand_sources (req_sources req) <> [] ->
  Forall (task_valid U E req) (as_completed E (scan_tasks req)) ->
  exists LEADS' job,
    start_scan U E t jid req LEADS JOBS
    = (Ok {| ja_job_id := jid; ja_status := scanned |}, LEADS', <[jid := job]> JOBS)
    /\ status job = scanned
    /\ found job = sum_Z (map (task_found E req) (as_completed E (scan_tasks req)))
    /\ errors job = sum_Z (map (task_errors E req) (as_completed E (scan_tasks req))).
Proof.
  intros Hsrc Hvalid. unfold start_scan.
  destruct (expand_sources (req_sources req)) as [|s0 srcs] eqn:Hs; [congruence|].
  assert (Hpos : (Z.min MAX_WORKERS
                    (Z.of_nat (length (s0 :: srcs))
                     * Z.max 1 (Z.of_nat (length (expand_countries (req_countries req)))))
                  <=? 0)%Z = false).
  { apply Z.leb_gt. unfold MAX_WORKERS. simpl length. nia. }
  rewrite Hpos.
  unfold scan_tasks in *. rewrite Hs in *.
  match goal with
  | |- context [merge_tasks U E t req ?n ?l ?i] =>
      destruct (merge_tasks_counters t req n l i Hvalid) as (st' & Hm & Hf & He);
      rewrite Hm
  end.
  eexists _, _. split; [rewrite insert_insert_eq; reflexivity|].
  cbn [status found errors]. rewrite Hf, He. cbn [ss_found ss_errors].
  repeat split; lia.
Qed.

(** A row whose website the validation refuses ends the scan with the
    exception of the [Lead] constructor: nothing is stored, and the job
    stays as it was registered, in status "running" and without
    progress. *)
Example scan_invalid_row :
  exists job,
    start_scan plain_urls hostless_scan 0%Q "scan_0" etg_dk_request [] ∅
    = (Raise ValidationError, [], <["scan_0" := job]> ∅)
    /\ status job = running /\ progress job = [].
Proof. eexists. split; [vm_compute; reflexivity|]. split; reflexivity. Qed.

(** C6 at a request without a registered source: no worker pool can be
    built for zero workers, the call ends with that exception, and the job
    it registered stays in status "running". *)
Theorem scan_without_sources (t : Time) (jid : string)
  (LEADS : LeadStore) (JOBS : JobRegistry) :
  expand_sources (req_sources unknown_source_request) = []
  /\ exists job,
       start_scan U E t jid unknown_source_request LEADS JOBS
       = (Raise (ValueError "max_workers must be greater than 0"), LEADS,
          <[jid := job]> JOBS)
       /\ status job = running.
Proof.
  split; [reflexivity|].
  eexists. split; [reflexivity|]. reflexivity.
Qed.

End ScanProperties.

(** ** The scorer: the formula *)

(** Strengths 0.90 and 0.85 times 40 are the floats 36.0 and 34.0. *)
Lemma signal_points (s : SourceName) :
  py_int (src_strength s * float_of_Z SIGNAL_WEIGHT)%float
  = match s with
    | ETG | SIEMENS | BECKHOFF | PI_PROFINET => 36%Z
    | _ => 34%Z
    end.
Proof. destruct s; vm_compute; reflexivity. Qed.

Lemma max_float_strengths (hits : list SourceHit) :
  Forall (fun hit => hit_strength hit = src_strength (hit_name hit)) hits ->
  max_float (map hit_strength hits) = 0%float
  \/ max_float (map hit_strength hits) = 0.85%float
  \/ max_float (map hit_strength hits) = 0.90%float.
Proof.
  intros Hall. destruct hits as [|h0 hits]; [now left|].
  right. inversion Hall as [|? ? H0 Hrest]; subst. simpl.
  assert (Hm : hit_strength h0 = 0.85%float \/ hit_strength h0 = 0.90%float).
  { rewrite H0. destruct (hit_name h0); simpl; auto. }
  clear H0 Hall. revert Hm. generalize (hit_strength h0) as m.
  induction Hrest as [|h1 hits H1 Hrest IH]; intros m Hm; [exact Hm|].
  simpl. apply IH.
  rewrite H1. destruct Hm as [-> | ->]; destruct (hit_name h1); simpl; auto.
Qed.

(** Rounding a number that is within a half of the integer [k], shifted by
    the integer [n]. *)
Lemma round_half_even_near (q : Q) (k n : Z) :
  (inject_Z k - (1 # 2) < q)%Q -> (q < inject_Z k + (1 # 2))%Q ->
  round_half_even (q + inject_Z n) = (k + n)%Z.
Proof.
  intros Hlo Hhi. unfold round_half_even.
  set (f := Qfloor (q + inject_Z n)).
  pose proof (Qfloor_le (q + inject_Z n)) as Hf1.
  pose proof (Qlt_floor (q + inject_Z n)) as Hf2.
  fold f in Hf1, Hf2. rewrite inject_Z_plus in Hf2.
  change (inject_Z 1) with 1%Q in Hf2.
  assert (Hup : (f < k + n + 1)%Z).
  { rewrite Zlt_Qlt, !inject_Z_plus. change (inject_Z 1) with 1%Q. lra. }
  assert (Hdn : (k + n < f + 2)%Z).
  { rewrite Zlt_Qlt, !inject_Z_plus. change (inject_Z 2) with 2%Q. lra. }
  assert (Hcase : (f + 1 = k + n)%Z \/ f = (k + n)%Z) by lia.
  assert (HQ : (f + 1 = k + n)%Z -> (inject_Z f + 1 == inject_Z k + inject_Z n)%Q).
  { intros Hc. change 1%Q with (inject_Z 1). rewrite <- !inject_Z_plus, Hc.
    reflexivity. }
  assert (HQ' : f = (k + n)%Z -> (inject_Z f == inject_Z k + inject_Z n)%Q).
  { intros Hc. rewrite <- inject_Z_plus, Hc. reflexivity. }
  destruct (Qcompare_spec (q + inject_Z n - inject_Z f) (1 # 2)) as [He|Hl|Hg].
  - exfalso. destruct Hcase as [Hc|Hc];
      [pose proof (HQ Hc) | pose proof (HQ' Hc)]; lra.
  - destruct Hcase as [Hc|Hc]; [|exact Hc].
    exfalso. pose proof (HQ Hc). lra.
  - destruct Hcase as [Hc|Hc]; [lia|].
    exfalso. pose proof (HQ' Hc). lra.
Qed.

(** The stated parts of the score and the parts that the code computes. *)
Lemma stated_tag_weight_code (t : StackTag) : stated_tag_weight t = stack_weight t.
Proof. destruct t; reflexivity. Qed.

Lemma stated_tag_sum_code (tags : list StackTag) :
  stated_tag_sum tags = sum_Z (map stack_weight tags).
Proof.
  unfold stated_tag_sum.
  assert (Hgen : forall acc,
            fold_left (fun a t => (a + stated_tag_weight t)%Z) tags acc
            = (acc + sum_Z (map stack_weight tags))%Z).
  { induction tags as [|t tags IH]; intros acc; cbn [fold_left map].
    - unfold sum_Z. simpl. lia.
    - rewrite IH, stated_tag_weight_code, sum_Z_cons. lia. }
  rewrite Hgen. lia.
Qed.

Lemma stated_clamp_code (lo hi x : Z) :
  (lo <= hi)%Z -> stated_clamp lo hi x = clamp lo hi x.
Proof.
  intros Hle. unfold stated_clamp, clamp.
  destruct (Z.ltb_spec x lo); [lia|]. destruct (Z.ltb_spec hi x); lia.
Qed.

Lemma src_strength_strong (s : SourceName) :
  src_strength s = if strong s then 0.90%float else 0.85%float.
Proof. destruct s; reflexivity. Qed.

(** The first largest strength, as the code finds it, is 0.90 when a
    strong source is among the hits and 0.85 otherwise. *)
Lemma max_float_hits (hits : list SourceHit) (m : float) :
  Forall (fun hit => hit_strength hit = src_strength (hit_name hit)) hits ->
  m = 0.85%float \/ m = 0.90%float ->
  fold_left (fun m y => if PrimFloat.ltb m y then y else m) (map hit_strength hits) m
  = if PrimFloat.eqb m 0.90 || existsb (fun hit => strong (hit_name hit)) hits
    then 0.90%float else 0.85%float.
Proof.
  intros Hall. revert m.
  induction Hall as [|h hits Hh Hall IH]; intros m Hm.
  - destruct Hm as [-> | ->]; reflexivity.
  - cbn [map fold_left existsb]. rewrite Hh, src_strength_strong.
    destruct Hm as [-> | ->]; destruct (strong (hit_name h));
      rewrite IH by (simpl; auto); reflexivity.
Qed.

(** The largest exact value of the strengths is the one of 0.90 when a
    strong source is among the hits and the one of 0.85 otherwise. *)
Lemma stated_max_hits (h : SourceHit) (hits : list SourceHit) :
  Forall (fun hit => hit_strength hit = src_strength (hit_name hit)) (h :: hits) ->
  stated_max (map (fun hit => float_value (hit_strength hit)) (h :: hits))
  = if existsb (fun hit => strong (hit_name hit)) (h :: hits)
    then float_value 0.90 else float_value 0.85.
Proof.
  revert h. induction hits as [|h' hits IH]; intros h Hall.
  - inversion Hall as [|? ? Hh _]; subst. cbn [map stated_max existsb].
    rewrite Hh, src_strength_strong. now destruct (strong (hit_name h)).
  - inversion Hall as [|? ? Hh Hall']; subst.
    specialize (IH h' Hall').
    change (stated_max (map (fun hit => float_value (hit_strength hit)) (h :: h' :: hits)))
      with (let m := stated_max (map (fun hit => float_value (hit_strength hit))
                                   (h' :: hits)) in
            if Qle_bool m (float_value (hit_strength h))
            then float_value (hit_strength h) else m).
    cbv zeta. rewrite IH, Hh, src_strength_strong.
    change (existsb (fun hit => strong (hit_name hit)) (h :: h' :: hits))
      with (strong (hit_name h)
            || existsb (fun hit => strong (hit_name hit)) (h' :: hits)).
    destruct (strong (hit_name h));
      destruct (existsb (fun hit => strong (hit_name hit)) (h' :: hits));
      reflexivity.
Qed.

(** On strengths that [upsert_lead_from_raw] assigns, the score that the
    code computes, by truncation, is the stated one, by rounding. *)
Lemma raw_score_stated (l : Lead) : strengths_ok l -> raw_score l = stated_score l.
Proof.
  intros Hok. unfold raw_score, stated_score, stack_points, strengths_ok in *.
  rewrite stated_clamp_code by lia. f_equal.
  rewrite stated_tag_sum_code. symmetry.
  destruct (sources l) as [|h hits].
  - cbn [map max_float stated_max].
    change (py_int (0 * float_of_Z SIGNAL_WEIGHT)) with 0%Z.
    apply (round_half_even_near _ 0); vm_compute; reflexivity.
  - rewrite (stated_max_hits h hits Hok).
    inversion Hok as [|? ? Hh Hall]; subst.
    cbn [map max_float].
    rewrite (max_float_hits hits (hit_strength h) Hall)
      by (rewrite Hh, src_strength_strong; destruct (strong (hit_name h)); auto).
    rewrite Hh, src_strength_strong. cbn [existsb].
    destruct (strong (hit_name h)); cbn [orb].
    + change (PrimFloat.eqb 0.9 0.9) with true. cbn [orb].
      change (py_int (0.90 * float_of_Z SIGNAL_WEIGHT)) with 36%Z.
      apply (round_half_even_near _ 36); vm_compute; reflexivity.
    + change (PrimFloat.eqb 0.85 0.9) with false. cbn [orb].
      destruct (existsb (fun hit => strong (hit_name hit)) hits).
      * change (py_int (0.90 * float_of_Z SIGNAL_WEIGHT)) with 36%Z.
        apply (round_half_even_near _ 36); vm_compute; reflexivity.
      * change (py_int (0.85 * float_of_Z SIGNAL_WEIGHT)) with 34%Z.
        apply (round_half_even_near _ 34); vm_compute; reflexivity.
Qed.

(** ** What every reachable store satisfies *)

Lemma append_new_NoDup {A} `{EqDecision A} (ts tags : list A) :
  NoDup tags -> NoDup (append_new tags ts).
Proof.
  revert tags. induction ts as [|x ts IH]; intros tags Hnd; simpl; [exact Hnd|].
  apply IH. case_bool_decide as Hx; [exact Hnd|].
  apply NoDup_app. repeat split; [exact Hnd| |apply NoDup_singleton].
  intros y Hy Hy'. apply list_elem_of_singleton in Hy'. subst. contradiction.
Qed.

Lemma append_new_incl {A} `{EqDecision A} (ts tags X : list A) :
  incl tags X -> incl ts X -> incl (append_new tags ts) X.
Proof.
  intros H1 H2 x Hx. apply append_new_In in Hx. destruct Hx; auto.
Qed.

Lemma insert_by_In {A} (leb : A -> A -> bool) (x y : A) (l : list A) :
  In x (insert_by leb y l) <-> x = y \/ In x l.
Proof.
  induction l as [|z l IH]; simpl; [intuition congruence|].
  destruct (leb y z); simpl; [intuition congruence|].
  rewrite IH. intuition congruence.
Qed.

Lemma sort_by_In {A} (leb : A -> A -> bool) (x : A) (l : list A) :
  In x (sort_by leb l) <-> In x l.
Proof.
  unfold sort_by. induction l as [|y l IH]; simpl; [tauto|].
  rewrite insert_by_In, IH. intuition congruence.
Qed.

Lemma set_add_incl {A} `{EqDecision A} (x : A) (s X : list A) :
  In x X -> incl s X -> incl (set_add x s) X.
Proof.
  intros Hx Hs. unfold set_add. case_bool_decide; [exact Hs|].
  intros y Hy. apply in_app_iff in Hy. destruct Hy as [Hy|[<-|[]]]; auto.
Qed.

Lemma detect_languages_codes (H : Html) (html : string) :
  incl (detect_languages H html) LANG_CODES.
Proof.
  unfold detect_languages. intros x Hx. apply sort_by_In in Hx. revert x Hx.
  change (incl
    (fold_left
       (fun langs kc =>
          if re_word H (fst kc) (PyStr.lower (soup_text H html))
             && (length langs <? 6)%nat
          then set_add (snd kc) langs else langs)
       LANG_HINTS
       match html_lang H html with
       | Some lang =>
           if PyStr.nonempty lang
           then match dict_get (PyStr.lower (before_dash lang)) LANG_HINTS with
                | Some code => [code]
                | None => []
                end
           else []
       | None => []
       end) LANG_CODES).
  assert (Hinit : incl
            match html_lang H html with
            | Some lang =>
                if PyStr.nonempty lang
                then match dict_get (PyStr.lower (before_dash lang)) LANG_HINTS with
                     | Some code => [code]
                     | None => []
                     end
                else []
            | None => []
            end LANG_CODES).
  { destruct (html_lang H html) as [lang|]; [|easy].
    destruct (PyStr.nonempty lang); [|easy].
    destruct (dict_get _ LANG_HINTS) as [code|] eqn:Hg; [|easy].
    intros y [<-|[]]. apply dict_get_In in Hg.
    unfold LANG_CODES. change code with (snd (PyStr.lower (before_dash lang), code)).
    now apply in_map. }
  revert Hinit. generalize (match html_lang H html with
                            | Some lang =>
                                if PyStr.nonempty lang
                                then match dict_get (PyStr.lower (before_dash lang))
                                             LANG_HINTS with
                                     | Some code => [code]
                                     | None => []
                                     end
                                else []
                            | None => []
                            end) as init.
  assert (Hall : incl (List.map snd LANG_HINTS) LANG_CODES) by apply incl_refl.
  revert Hall. generalize LANG_HINTS as hints.
  induction hints as [|kc hints IH]; intros Hall init Hinit; [exact Hinit|].
  simpl. apply IH.
  - intros y Hy. apply Hall. now right.
  - destruct (re_word H (fst kc) _ && _); [|exact Hinit].
    apply set_add_incl; [|exact Hinit]. apply Hall. now left.
Qed.

Arguments detect_languages : simpl never.
Arguments detect_stacks_extended : simpl never.
Arguments sorted_set : simpl never.
Arguments sort_by : simpl never.
Arguments fetch : simpl never.
Arguments add_contacts : simpl never.
Arguments add_same_as : simpl never.
Arguments add_projects : simpl never.
Arguments append_new : simpl never.

Section Invariant.
Context (U : UrlLib) (N : Net) (H : Html).

Lemma add_page_signals_langs (html : string) (ctx : CompanyContext) :
  langs_ok (languages ctx) -> langs_ok (languages (add_page_signals H html ctx)).
Proof.
  intros [Hnd Hin]. unfold add_page_signals.
  destruct (detect_partners_and_sectors H html) as [ps ss]. simpl. split.
  - now apply append_new_NoDup.
  - apply append_new_incl; [exact Hin | apply detect_languages_codes].
Qed.

Lemma add_orgs_frame (u : string) (orgs : list Org) (lead : Lead) (ctx : CompanyContext) :
  sources (fst (fold_left (add_org u) orgs (lead, ctx))) = sources lead
  /\ languages (snd (fold_left (add_org u) orgs (lead, ctx))) = languages ctx.
Proof.
  revert lead ctx. induction orgs as [|org orgs IH]; intros lead ctx; [easy|].
  simpl. destruct (truthy (org_size org) && negb (truthy (size_hint ctx)));
    destruct (IH (set_contacts (add_same_as u (org_same_as org) (contacts lead)) lead)
                 (set_size_hint (org_size org) ctx)) as [Hs Hl];
    destruct (IH (set_contacts (add_same_as u (org_same_as org) (contacts lead)) lead)
                 ctx) as [Hs' Hl']; split; assumption.
Qed.

Lemma visit_base_kept (depth : nat) (u : string) (l0 lead : Lead)
  (ctx : CompanyContext) (links : list (float * string)) (h : RobustHttp) (w : World) :
  kept l0 lead ctx ->
  let '(lead', ctx', _, _, _) := visit_base U N H depth u lead ctx links h w in
  kept l0 lead' ctx'.
Proof.
  intros [Hs Hl]. unfold visit_base.
  destruct (fetch U N depth u h w) as [[html h1] w1].
  destruct (negb (PyStr.nonempty html)); [now split|].
  pose proof (add_orgs_frame u (jsonld_orgs H html)
                (set_stack_tags
                   (append_new (stack_tags lead)
                      (detect_stacks_extended H (soup_text H html))) lead) ctx)
    as [Hs' Hl'].
  destruct (fold_left (add_org u) (jsonld_orgs H html) _) as [lead1 ctx1].
  simpl in Hs', Hl'. split.
  - simpl. congruence.
  - apply add_page_signals_langs. now rewrite Hl'.
Qed.

Lemma visit_bases_kept (depth : nat) (us : list string) (l0 lead : Lead)
  (ctx : CompanyContext) (links : list (float * string)) (h : RobustHttp) (w : World) :
  kept l0 lead ctx ->
  let '(lead', ctx', _, _, _) := visit_bases U N H depth us lead ctx links h w in
  kept l0 lead' ctx'.
Proof.
  revert lead ctx links h w.
  induction us as [|u us IH]; intros lead ctx links h w Hk; [exact Hk|].
  simpl. pose proof (visit_base_kept depth u l0 lead ctx links h w Hk) as Hb.
  destruct (visit_base U N H depth u lead ctx links h w) as [[[[lead1 ctx1] links1] h1] w1].
  now apply IH.
Qed.

Lemma visit_page_kept (url html : string) (l0 lead : Lead) (ctx : CompanyContext) :
  kept l0 lead ctx ->
  let '(lead', ctx') := visit_page H url html lead ctx in kept l0 lead' ctx'.
Proof.
  intros [Hs Hl]. unfold visit_page. split.
  - destruct (truthy (phone _)); [exact Hs|].
    destruct (find_phone H (soup_text H html)); exact Hs.
  - simpl. now apply add_page_signals_langs.
Qed.

Lemma visit_ranked_kept (depth : nat) (req : DeepEnrichRequest)
  (links : list (float * string)) (l0 lead : Lead) (ctx : CompanyContext)
  (vl vg : list string) (h : RobustHttp) (w : World) :
  kept l0 lead ctx ->
  let '(lead', ctx', _, _, _) := visit_ranked U N H depth req links lead ctx vl vg h w in
  kept l0 lead' ctx'.
Proof.
  revert lead ctx vl vg h w.
  induction links as [|[sc url] links IH]; intros lead ctx vl vg h w Hk; [exact Hk|].
  cbn [visit_ranked].
  destruct (max_pages_per_lead req <=? Z.of_nat (length vl))%Z; [exact Hk|].
  destruct (same_domain_only req && truthy (website lead)
            && PyStr.nonempty (url_netloc U url)
            && negb (url_netloc U url =? url_netloc U (str_opt (website lead)))%string);
    [now apply IH|].
  destruct (bool_decide (url ∈ vl) || bool_decide (url ∈ vg)); [now apply IH|].
  destruct (fetch U N depth url h w) as [[html h1] w1].
  destruct (negb (PyStr.nonempty html)); [now apply IH|].
  pose proof (visit_page_kept url html l0 lead ctx Hk) as Hp.
  destruct (visit_page H url html lead ctx) as [lead1 ctx1].
  now apply IH.
Qed.

Lemma cap_lead_ok (lead : Lead) (ctx : CompanyContext) (t : Time) :
  strengths_ok lead -> langs_ok (languages ctx) -> lead_ok (cap_lead lead ctx t).
Proof.
  intros Hs Hl. unfold cap_lead, lead_ok. simpl. split; [exact Hs|]. split.
  - rewrite length_firstn. lia.
  - intros c [= <-]. unfold ctx_ok. simpl.
    rewrite !length_firstn. repeat split; try lia; apply Hl.
Qed.

Lemma deep_lead_ok (depth : nat) (req : DeepEnrichRequest) (lead : Lead)
  (vg : list string) (h : RobustHttp) (w : World) :
  lead_ok lead ->
  lead_ok (fst (fst (fst (deep_lead U N H depth req lead vg h w)))).
Proof.
  intros (Hs & Hc & Hctx). unfold deep_lead.
  destruct (base_urls_of lead) as [|u us]; [exact (conj Hs (conj Hc Hctx))|].
  set (lead1 := set_context (Some (default empty_context (context lead))) lead).
  assert (Hk : kept lead lead1 (default empty_context (context lead))).
  { split; [reflexivity|].
    destruct (context lead) as [c|] eqn:Hcx; simpl.
    - apply (Hctx c eq_refl).
    - split; [constructor | easy]. }
  pose proof (visit_bases_kept depth
                (List.filter (fun u0 => negb (bool_decide (u0 ∈ vg))) (u :: us))
                lead lead1 _ [] h w Hk) as Hb.
  destruct (visit_bases U N H depth _ lead1 _ [] h w)
    as [[[[lead2 ctx2] links2] h2] w2].
  pose proof (visit_ranked_kept depth req (sort_by link_geb links2) lead lead2 ctx2
                [] vg h2 w2 Hb) as Hr.
  destruct (visit_ranked U N H depth req _ lead2 ctx2 [] vg h2 w2)
    as [[[[lead3 ctx3] vg3] h3] w3].
  simpl. destruct Hr as [Hs3 Hl3]. apply cap_lead_ok; [|exact Hl3].
  unfold strengths_ok. now rewrite Hs3.
Qed.

Lemma dict_set_ok (k : string) (l : Lead) (LEADS : LeadStore) :
  store_ok LEADS -> lead_ok l -> store_ok (dict_set k l LEADS).
Proof.
  intros Hst Hl. unfold store_ok in *. rewrite List.Forall_forall in *.
  intros [k0 l0] Hin. apply dict_set_In in Hin.
  destruct Hin as [[_ ->]|Hin]; [exact Hl | exact (Hst _ Hin)].
Qed.

Lemma store_ok_get (k : string) (l : Lead) (LEADS : LeadStore) :
  store_ok LEADS -> dict_get k LEADS = Some l -> lead_ok l.
Proof.
  intros Hst Hg. apply dict_get_In in Hg.
  unfold store_ok in Hst. rewrite List.Forall_forall in Hst. exact (Hst _ Hg).
Qed.

Lemma deep_leads_ok (depth : nat) (req : DeepEnrichRequest) (targets : list string)
  (LEADS : LeadStore) (vg : list string) (h : RobustHttp) (w : World) :
  store_ok LEADS ->
  store_ok (fst (fst (deep_leads U N H depth req targets LEADS vg h w))).
Proof.
  revert LEADS vg h w.
  induction targets as [|k targets IH]; intros LEADS vg h w Hst; [exact Hst|].
  simpl. destruct (dict_get k LEADS) as [lead|] eqn:Hg; [|now apply IH].
  pose proof (deep_lead_ok depth req lead vg h w (store_ok_get _ _ _ Hst Hg)) as Hd.
  destruct (deep_lead U N H depth req lead vg h w) as [[[lead' vg'] h'] w'].
  apply IH. now apply dict_set_ok.
Qed.

Lemma enrich_lead_frame (depth : nat) (lead : Lead) (h : RobustHttp) (w : World) :
  let lead' := fst (fst (enrich_lead U N H depth lead h w)) in
  sources lead' = sources lead /\ contacts lead' = contacts lead
  /\ context lead' = context lead.
Proof.
  destruct lead. unfold enrich_lead.
  cbn [sources contacts context website contact_url contact_email stack_tags].
  repeat break_match; simpl; auto.
Qed.

Lemma enrich_leads_ok (depth : nat) (LEADS : LeadStore) (h : RobustHttp) (w : World) :
  store_ok LEADS -> store_ok (fst (fst (enrich_leads U N H depth LEADS h w))).
Proof.
  revert h w. induction LEADS as [|[k lead] LEADS IH]; intros h w Hst; [constructor|].
  inversion Hst as [|? ? Hl Hrest]; subst. simpl.
  pose proof (enrich_lead_frame depth lead h w) as (Hs & Hc & Hx).
  destruct (enrich_lead U N H depth lead h w) as [[lead' h1] w1].
  specialize (IH h1 w1 Hrest).
  destruct (enrich_leads U N H depth LEADS h1 w1) as [[r' h2] w2].
  simpl in *. constructor; [|exact IH].
  destruct Hl as (Hl1 & Hl2 & Hl3). unfold lead_ok, strengths_ok. simpl.
  rewrite Hs, Hc, Hx. auto.
Qed.

Lemma upsert_ok (t : Time) (rc : RawCompany) (LEADS : LeadStore) :
  store_ok LEADS -> store_ok (snd (upsert_lead_from_raw U t rc LEADS)).
Proof.
  intros Hst.
  destruct (upsert_cases U t rc LEADS)
    as [(l0 & Hg & ->) | [(site & _ & _ & ->) | (_ & _ & ->)]]; cbn [snd];
    [| | exact Hst]; (apply dict_set_ok; [exact Hst|]).
  - destruct (store_ok_get _ _ _ Hst Hg) as (Hs & Hc & Hx).
    unfold lead_ok, strengths_ok, merge_lead. simpl.
    split; [|split; assumption].
    apply Forall_app. split; [exact Hs|]. constructor; [reflexivity | constructor].
  - unfold lead_ok, strengths_ok, lead_of. simpl. split; [|split].
    + constructor; [reflexivity | constructor].
    + lia.
    + discriminate.
Qed.

Lemma score_ok (LEADS : LeadStore) :
  store_ok LEADS -> store_ok (dict_update_all score_lead LEADS).
Proof.
  unfold store_ok, dict_update_all. intros Hst.
  induction Hst as [|[k l] LEADS Hl Hst IH]; simpl; constructor; [exact Hl | exact IH].
Qed.

(** Every reachable store satisfies the invariant. *)
Lemma reachable_ok (LEADS : LeadStore) : reachable U N H LEADS -> store_ok LEADS.
Proof.
  induction 1.
  - constructor.
  - now apply upsert_ok.
  - now apply enrich_leads_ok.
  - now apply deep_leads_ok.
  - now apply score_ok.
Qed.

End Invariant.

(** ** The scorer on reachable stores *)

(** C3: after a scoring pass over a store built by the operations, the
    score of every lead is clamp(0, 100, round(max strength * 40 + sum of
    the tag weights)), with 0 for the maximum over no source, and the
    priority class is HOT from 70, WARM from 45 to 69 and COLD below. *)
Theorem score_formula (U : UrlLib) (N : Net) (H : Html) (LEADS : LeadStore)
  (t : Time) (jid : string) (JOBS : JobRegistry) :
  reachable U N H LEADS ->
  forall k l, In (k, l) (snd (fst (score_op t jid LEADS JOBS))) ->
    score l = stated_score l
    /\ ((70 <= score l)%Z -> priority_class l = Some HOT)
    /\ ((45 <= score l < 70)%Z -> priority_class l = Some WARM)
    /\ ((score l < 45)%Z -> priority_class l = Some COLD).
Proof.
  intros Hreach k l Hin. apply reachable_ok in Hreach.
  unfold score_op in Hin. cbn [fst snd] in Hin.
  unfold dict_update_all in Hin. apply in_map_iff in Hin.
  destruct Hin as ([k0 l0] & Heq & Hin0). cbn [fst snd] in Heq.
  injection Heq as <- <-.
  assert (Hok : strengths_ok l0).
  { unfold store_ok in Hreach. rewrite List.Forall_forall in Hreach.
    exact (proj1 (Hreach _ Hin0)). }
  assert (Hscore : score (score_lead l0) = raw_score l0) by reflexivity.
  assert (Hprio : priority_class (score_lead l0) = Some (priority_of (raw_score l0)))
    by reflexivity.
  rewrite Hprio, Hscore. split.
  - rewrite (raw_score_stated l0 Hok). reflexivity.
  - unfold priority_of.
    destruct (70 <=? raw_score l0)%Z eqn:H70; [apply Z.leb_le in H70 | apply Z.leb_gt in H70];
      (destruct (45 <=? raw_score l0)%Z eqn:H45;
       [apply Z.leb_le in H45 | apply Z.leb_gt in H45]);
      repeat split; intros; try reflexivity; lia.
Qed.

Lemma score_formula_witness :
  Forall (fun kl => score (snd kl) = stated_score (snd kl)) one_lead_store.
Proof.
  apply List.Forall_forall. intros [k l] Hin.
  exact (proj1 (score_formula plain_urls open_net blank_html _ 0%Q "job_0" ∅
                  (reach_upsert plain_urls open_net blank_html 0%Q etg_member []
                     (reach_empty plain_urls open_net blank_html))
                  k l Hin)).
Defined.

(** The score of the lead of the example: 36 for the ETG hit and 25 for
    EtherCAT. *)
Example one_lead_store_score :
  List.map (fun kl => (score (snd kl), priority_class (snd kl))) one_lead_store
  = [(61%Z, Some WARM)].
Proof. vm_compute. reflexivity. Qed.

(** Outside the reachable stores truncation and rounding part: a hit of
    strength 0.99 gives 39.6 points, which [int] cuts to 39. *)
Example truncation_differs :
  let hit := {| hit_name := ETG; hit_strength := 0.99%float; hit_source_url := None |} in
  py_int (hit_strength hit * float_of_Z SIGNAL_WEIGHT)%float = 39%Z
  /\ round_half_even (float_value (hit_strength hit) * inject_Z SIGNAL_WEIGHT) = 40%Z.
Proof. vm_compute. split; reflexivity. Qed.

(** ** The enrichment walker: the caps *)

Lemma lang_codes_length : length LANG_CODES = 20%nat.
Proof. reflexivity. Qed.

Lemma langs_ok_length (langs : list string) :
  langs_ok langs -> (length langs <= 20)%nat.
Proof.
  intros [Hnd Hin]. rewrite <- lang_codes_length.
  apply List.NoDup_incl_length; [now apply NoDup_ListNoDup | assumption].
Qed.

(** C7: after a pass of [enrich_deep] over a store built by the operations,
    every lead the pass targeted has at most 50 contacts and, in its
    context, at most 25 partners, 25 sectors, 25 recent projects and 25
    languages, whatever the pages contributed. *)
Theorem deep_caps (U : UrlLib) (N : Net) (H : Html) (depth : nat)
  (req : DeepEnrichRequest) (LEADS : LeadStore) (JOBS : JobRegistry)
  (h : RobustHttp) (w : World) :
  reachable U N H LEADS ->
  forall k lead,
    In k (deep_targets req LEADS) ->
    dict_get k (snd (fst (fst (fst (enrich_deep U N H depth req LEADS JOBS h w)))))
    = Some lead ->
    (length (contacts lead) <= 50)%nat
    /\ forall ctx, context lead = Some ctx ->
         (length (partners ctx) <= 25)%nat /\ (length (sectors ctx) <= 25)%nat
         /\ (length (recent_projects ctx) <= 25)%nat
         /\ (length (languages ctx) <= 25)%nat.
Proof.
  intros Hreach k lead _ Hget.
  assert (Hok : store_ok
                  (snd (fst (fst (fst (enrich_deep U N H depth req LEADS JOBS h w)))))).
  { unfold enrich_deep.
    pose proof (deep_leads_ok U N H depth req (deep_targets req LEADS) LEADS [] h w
                  (reachable_ok U N H LEADS Hreach)) as Hd.
    destruct (deep_leads U N H depth req (deep_targets req LEADS) LEADS [] h w)
      as [[L h'] w']. exact Hd. }
  destruct (store_ok_get _ _ _ Hok Hget) as (_ & Hc & Hctx).
  split; [exact Hc|].
  intros ctx Hx. destruct (Hctx ctx Hx) as (Hp & Hs & Hr & Hl).
  repeat split; try assumption.
  apply langs_ok_length in Hl. lia.
Qed.

Lemma one_lead_store_reachable : reachable plain_urls open_net blank_html one_lead_store.
Proof.
  apply reach_score, reach_upsert, reach_empty.
Qed.

Lemma deep_caps_witness :
  exists lead,
    dict_get "2f76ed360a3abe1a"
      (snd (fst (fst (fst (enrich_deep plain_urls open_net blank_html 8 deep_request
                             one_lead_store ∅ fresh_http world0)))))
    = Some lead
    /\ (length (contacts lead) <= 50)%nat.
Proof.
  destruct (dict_get "2f76ed360a3abe1a"
              (snd (fst (fst (fst (enrich_deep plain_urls open_net blank_html 8
                                     deep_request one_lead_store ∅ fresh_http world0))))))
    as [lead|] eqn:Hget; [|vm_compute in Hget; discriminate].
  exists lead. split; [reflexivity|].
  apply (deep_caps plain_urls open_net blank_html 8 deep_request one_lead_store ∅
           fresh_http world0 one_lead_store_reachable "2f76ed360a3abe1a" lead).
  - vm_compute. now left.
  - exact Hget.
Defined.

(** ** The identity key *)

#[local] Arguments String.append !_ _ / : simpl nomatch.
#[local] Arguments Ascii.eqb : simpl never.

Lemma append_assoc (a b c : string) : (a ++ b) ++ c = a ++ (b ++ c).
Proof. induction a as [|x a IH]; simpl; [reflexivity | now rewrite IH]. Qed.


Lemma append_inv_head (a x y : string) : a ++ x = a ++ y -> x = y.
Proof. induction a as [|c a IH]; simpl; [easy | intros [= Heq]; auto]. Qed.

Lemma lstrip_all (p : ascii -> bool) (s : string) :
  all_chars p s = true -> PyStr.lstrip_by p s = "".
Proof.
  induction s as [|c r IH]; simpl; [reflexivity|].
  intros Hall. apply andb_true_iff in Hall as [Hc Hr]. rewrite Hc. auto.
Qed.

Lemma rstrip_all (p : ascii -> bool) (s : string) :
  all_chars p s = true -> PyStr.rstrip_by p s = "".
Proof.
  induction s as [|c r IH]; simpl; [reflexivity|].
  intros Hall. apply andb_true_iff in Hall as [Hc Hr]. rewrite (IH Hr), Hc. reflexivity.
Qed.

Lemma rstrip_app_tail (p : ascii -> bool) (x sl : string) :
  all_chars p sl = true -> PyStr.rstrip_by p (x ++ sl) = PyStr.rstrip_by p x.
Proof.
  intros Hall. induction x as [|c r IH]; simpl.
  - now apply rstrip_all.
  - now rewrite IH.
Qed.

Lemma strip_app_tail (p : ascii -> bool) (x sl : string) :
  all_chars p sl = true -> PyStr.strip_by p (x ++ sl) = PyStr.strip_by p x.
Proof.
  intros Hall. unfold PyStr.strip_by. induction x as [|c r IH]; simpl.
  - rewrite (lstrip_all p sl Hall). reflexivity.
  - destruct (p c); [exact IH|].
    change (String c (r ++ sl)) with (String c r ++ sl).
    now apply rstrip_app_tail.
Qed.

(** A string is what [rstrip] leaves of it, followed by stripped
    characters. *)
Lemma rstrip_decompose (p : ascii -> bool) (x : string) :
  exists sl, all_chars p sl = true /\ x = PyStr.rstrip_by p x ++ sl.
Proof.
  induction x as [|c r (sl & Hall & Heq)]; [now exists ""|].
  simpl. destruct (PyStr.rstrip_by p r) as [|c' r'] eqn:Hr.
  - simpl in Heq. subst r. destruct (p c) eqn:Hc.
    + exists (String c sl). simpl. now rewrite Hc, Hall.
    + exists sl. now split.
  - exists sl. split; [exact Hall|]. simpl in *. congruence.
Qed.

Lemma startswith_length (q s : string) :
  PyStr.startswith q s = true -> (String.length q <= String.length s)%nat.
Proof.
  revert s. induction q as [|a q IH]; intros s; simpl; [lia|].
  destruct s as [|b s]; [discriminate|].
  intros Hs. apply andb_true_iff in Hs as [_ Hs]. apply IH in Hs. simpl. lia.
Qed.

Lemma startswith_split (q s : string) :
  PyStr.startswith q s = true -> s = q ++ drop_chars (String.length q) s.
Proof.
  revert s. induction q as [|a q IH]; intros s; simpl.
  - intros _. now destruct s.
  - destruct s as [|b s]; [discriminate|].
    intros Hs. apply andb_true_iff in Hs as [Hab Hs].
    apply Ascii.eqb_eq in Hab. subst b. f_equal. now apply IH.
Qed.

(** Characters of the class [p] after a string do not make it start with
    a string that has none of them. *)
Lemma startswith_app_tail (p : ascii -> bool) (q y sl : string) :
  all_chars (fun c => negb (p c)) q = true ->
  all_chars p sl = true ->
  PyStr.startswith q (y ++ sl) = PyStr.startswith q y.
Proof.
  intros Hq Hsl. revert y. induction q as [|a q IH]; intros y; [reflexivity|].
  cbn [all_chars] in Hq. apply andb_true_iff in Hq as [Ha Hq].
  destruct y as [|b y]; cbn [String.append PyStr.startswith].
  - destruct sl as [|c sl']; [reflexivity|].
    cbn [all_chars] in Hsl. apply andb_true_iff in Hsl as [Hc _].
    destruct (Ascii.eqb_spec a c) as [->|Hne]; [|reflexivity].
    rewrite Hc in Ha. discriminate.
  - now rewrite (IH Hq).
Qed.

Lemma startswith_www_app (y sl : string) :
  all_chars PyStr.is_slash sl = true ->
  PyStr.startswith "www." (y ++ sl) = PyStr.startswith "www." y.
Proof. apply startswith_app_tail. reflexivity. Qed.

Lemma slash_not_w (c : ascii) : PyStr.is_slash c = true -> Ascii.eqb "w" c = false.
Proof.
  unfold PyStr.is_slash. intros Hc. apply Ascii.eqb_eq in Hc. now subst c.
Qed.

Lemma replace_www_slashes (sl : string) :
  all_chars PyStr.is_slash sl = true -> PyStr.replace_from "www." "" 0 sl = sl.
Proof.
  induction sl as [|c r IH]; [reflexivity|].
  intros Hall. simpl in Hall. apply andb_true_iff in Hall as [Hc Hr].
  apply slash_not_w in Hc.
  cbn [PyStr.replace_from PyStr.startswith]. rewrite Hc. cbn [andb].
  now rewrite (IH Hr).
Qed.

(** Removing "www." commutes with appending slashes. *)
Lemma replace_www_app (sl : string) :
  all_chars PyStr.is_slash sl = true ->
  forall y k, (k <= String.length y)%nat ->
    PyStr.replace_from "www." "" k (y ++ sl) = PyStr.replace_from "www." "" k y ++ sl.
Proof.
  intros Hall. induction y as [|c r IH]; intros k Hk.
  - simpl in Hk. assert (k = 0%nat) by lia. subst k. simpl.
    now apply replace_www_slashes.
  - change (String c r ++ sl) with (String c (r ++ sl)).
    destruct k as [|k].
    + cbn [PyStr.replace_from].
      change (String c (r ++ sl)) with (String c r ++ sl).
      rewrite (startswith_www_app (String c r) sl Hall).
      destruct (PyStr.startswith "www." (String c r)) eqn:Hsw.
      * apply startswith_length in Hsw. simpl in Hsw.
        simpl String.length. cbn [Nat.sub]. simpl. apply IH. lia.
      * simpl. f_equal. apply IH. lia.
    + cbn [PyStr.replace_from]. apply IH. simpl in Hk. lia.
Qed.

Lemma replace_www_prefix (h : string) :
  PyStr.replace "www." "" (remove_prefix "www." h) = PyStr.replace "www." "" h.
Proof.
  unfold remove_prefix. destruct (PyStr.startswith "www." h) eqn:Hsw; [|reflexivity].
  rewrite (startswith_split _ _ Hsw) at 2. reflexivity.
Qed.

(** The stated normalisation keeps what the code's normalisation reads:
    hosts that are the same up to a leading "www." and trailing slashes
    get the same host key. *)
Lemma host_normal_form (h : string) :
  PyStr.strip_slashes
    (PyStr.replace "www." "" (PyStr.rstrip_by PyStr.is_slash (remove_prefix "www." h)))
  = PyStr.strip_slashes (PyStr.replace "www." "" h).
Proof.
  rewrite <- (replace_www_prefix h).
  destruct (rstrip_decompose PyStr.is_slash (remove_prefix "www." h))
    as (sl & Hall & Heq).
  rewrite Heq at 2. unfold PyStr.replace.
  rewrite (replace_www_app sl Hall) by lia.
  unfold PyStr.strip_slashes. now rewrite strip_app_tail.
Qed.





Lemma compress_two_words (h : Sha1.State) (blk : list Z) :
  two_words (Sha1.compress h blk).
Proof.
  unfold Sha1.compress.
  destruct (Sha1.rounds 0 _ h) as [[[[a b] c] d] e].
  destruct h as [[[[h0 h1] h2] h3] h4]. unfold two_words, Sha1.w32.
  split; apply Z.mod_pos_bound; lia.
Qed.

Lemma fold_left_step {A B} (f : A -> B -> A) (x : B) (l : list B) (a : A) :
  fold_left f (x :: l) a = fold_left f l (f a x).
Proof. reflexivity. Qed.

Lemma fold_compress_two_words (blocks : list (list Z)) (st : Sha1.State) :
  two_words st -> two_words (fold_left Sha1.compress blocks st).
Proof.
  revert st. induction blocks as [|blk blocks IH]; intros st Hst; [exact Hst|].
  rewrite fold_left_step. apply IH. apply compress_two_words.
Qed.

Lemma init_two_words : two_words Sha1.init.
Proof. unfold two_words, Sha1.init. lia. Qed.

Lemma digest_two_words (msg : list Z) : two_words (Sha1.digest msg).
Proof.
  unfold Sha1.digest. apply fold_compress_two_words, init_two_words.
Qed.

(** Inputs that agree on the stated key (the host of the website without
    a leading "www." and trailing slashes, or the name-derived key when
    there is no website), on the name up to case and surrounding blanks
    and on the country up to case get the same id, the code's
    normalisation of the host being coarser than the stated one; and
    countries that differ after upper-casing give different key strings
    host|name|COUNTRY, of which the id is a truncated digest. *)
Lemma company_id_same_key (U : UrlLib) :
  (forall w1 n1 c1 w2 n2 c2,
     stated_host_key U w1 n1 = stated_host_key U w2 n2 ->
     PyStr.lower (PyStr.strip n1) = PyStr.lower (PyStr.strip n2) ->
     PyStr.upper c1 = PyStr.upper c2 ->
     company_id_from U w1 n1 c1 = company_id_from U w2 n2 c2)
  /\ (forall w n c1 c2,
        PyStr.upper c1 <> PyStr.upper c2 -> raw_key U w n c1 <> raw_key U w n c2).
Proof.
  split.
  - intros w1 n1 c1 w2 n2 c2 Hhost Hname Hcountry.
    unfold company_id_from, raw_key. rewrite Hname, Hcountry.
    replace (host_key U w1 n1) with (host_key U w2 n2); [reflexivity|].
    unfold stated_host_key in Hhost. unfold host_key.
    destruct (PyStr.nonempty (PyStr.lower (PyStr.strip (default "" w1))));
      destruct (PyStr.nonempty (PyStr.lower (PyStr.strip (default "" w2))));
      try discriminate.
    + injection Hhost as Hhost.
      rewrite <- (host_normal_form (PyStr.or_else _ (PyStr.lower (PyStr.strip (default "" w2))))).
      rewrite <- (host_normal_form (PyStr.or_else _ (PyStr.lower (PyStr.strip (default "" w1))))).
      now rewrite Hhost.
    + injection Hhost as Hhost. now rewrite Hhost.
  - intros w n c1 c2 Hne Heq. apply Hne. unfold raw_key in Heq.
    rewrite <- !append_assoc in Heq. now apply append_inv_head in Heq.
Qed.

(* ================================================================== *)
(** * Further properties of the code *)

(** ** The rate bucket *)

Lemma bucket_wait_spec (b : RateBucket) (w : World) :
  (last b + min_gap b <= now (snd (bucket_wait b w)))%Q
  /\ (now w <= now (snd (bucket_wait b w)))%Q
  /\ last (fst (bucket_wait b w)) = now (snd (bucket_wait b w))
  /\ min_gap (fst (bucket_wait b w)) = min_gap b
  /\ sent (snd (bucket_wait b w)) = sent w.
Proof.
  unfold bucket_wait.
  destruct (Qle_bool (min_gap b) (now w - last b)) eqn:Hle; cbn [fst snd last min_gap now sent].
  - apply Qle_bool_iff in Hle. repeat split; try reflexivity; lra.
  - assert (Hlt : ~ (min_gap b <= now w - last b)%Q).
    { intros Hc. apply Qle_bool_iff in Hc. congruence. }
    unfold sleep. cbn [now sent]. repeat split; try reflexivity; lra.
Qed.

(** X1: Pacing: a call of [wait] on a bucket returns no earlier than one gap
    after the previous call on that bucket returned, whatever the clock
    shows when it is made; it does not sleep when the gap has passed. *)
Theorem bucket_wait_paces (b : RateBucket) (w w_next : World) :
  let '(b1, w1) := bucket_wait b w in
  let '(b2, w2) := bucket_wait b1 w_next in
  (now w1 + min_gap b <= now w2)%Q
  /\ (now w_next <= now w2)%Q
  /\ ((now w1 + min_gap b <= now w_next)%Q -> w2 = w_next).
Proof.
  pose proof (bucket_wait_spec b w) as (_ & _ & Hlast & Hgap & _).
  destruct (bucket_wait b w) as [b1 w1]. cbn [fst snd] in Hlast, Hgap.
  pose proof (bucket_wait_spec b1 w_next) as (Hp & Hmono & _).
  assert (Hidle : (now w1 + min_gap b <= now w_next)%Q -> snd (bucket_wait b1 w_next) = w_next).
  { intros Hlate. unfold bucket_wait.
    assert (Hle : Qle_bool (min_gap b1) (now w_next - last b1) = true).
    { apply Qle_bool_iff. rewrite Hgap, Hlast. lra. }
    now rewrite Hle. }
  destruct (bucket_wait b1 w_next) as [b2 w2]. cbn [fst snd] in Hp, Hmono, Hidle.
  rewrite Hlast, Hgap in Hp. repeat split; [lra | exact Hmono | exact Hidle].
Qed.


(** ** The retry loop *)

Lemma wait_host_frame (host : string) (h : RobustHttp) (w : World) :
  cache (fst (wait_host host h w)) = cache h
  /\ robots_cache (fst (wait_host host h w)) = robots_cache h
  /\ respect_robots (fst (wait_host host h w)) = respect_robots h
  /\ (forall other, other <> host ->
        buckets (fst (wait_host host h w)) !! other = buckets h !! other)
  /\ sent (snd (wait_host host h w)) = sent w
  /\ (now w <= now (snd (wait_host host h w)))%Q.
Proof.
  unfold wait_host.
  set (b := match buckets h !! host with Some b => b | None => new_bucket (rps h) end).
  pose proof (bucket_wait_spec b w) as (_ & Hmono & _ & _ & Hsent).
  destruct (bucket_wait b w) as [b' w']. cbn [fst snd] in *.
  repeat split; try assumption.
  intros other Hne. cbn [set_buckets buckets]. now rewrite lookup_insert_ne.
Qed.

(** What one run of the retry loop does: it sends between one and [n]
    requests, all of them for [url]; it returns a body or raises the
    "GET failed" error, nothing else; a body is stored in the response
    cache when caching is on, and a failure leaves that cache as it was;
    the robots cache and the buckets of other hosts are not touched; the
    clock never goes back when the random numbers are not negative. *)
Lemma get_loop_outcome (N : Net) (url host : string) (cache_ok : bool) (n : nat) :
  forall (i : nat) (h : RobustHttp) (w : World),
  (exists k, (k <= n)%nat /\ (n = 0%nat \/ 1 <= k)%nat
             /\ sent (snd (get_loop N url host cache_ok i n h w))
                = (repeat url k ++ sent w)%list)
  /\ match fst (fst (get_loop N url host cache_ok i n h w)) with
     | Ok body =>
         cache (snd (fst (get_loop N url host cache_ok i n h w)))
         = (if cache_ok then <[url := body]> (cache h) else cache h)
     | Raise e =>
         e = GetFailed url
         /\ cache (snd (fst (get_loop N url host cache_ok i n h w))) = cache h
     end
  /\ robots_cache (snd (fst (get_loop N url host cache_ok i n h w))) = robots_cache h
  /\ respect_robots (snd (fst (get_loop N url host cache_ok i n h w))) = respect_robots h
  /\ (forall other, other <> host ->
        buckets (snd (fst (get_loop N url host cache_ok i n h w))) !! other
        = buckets h !! other).
Proof.
  induction n as [|n IH]; intros i h w.
  - cbn [get_loop fst snd]. split; [exists 0%nat; repeat split; auto|].
    repeat split; reflexivity.
  - cbn [get_loop].
    pose proof (wait_host_frame host h w) as (Hc & Hr & Hp & Hb & Hs & _).
    destruct (wait_host host h w) as [h1 w1]. cbn [fst snd] in Hc, Hr, Hp, Hb, Hs.
    unfold draw. cbn [fst snd now sent draws].
    assert (Hretry : forall w4,
      sent w4 = url :: sent w ->
      (exists k, (k <= S n)%nat /\ (S n = 0%nat \/ 1 <= k)%nat
             /\ sent (snd (get_loop N url host cache_ok (S i) n h1 w4))
                = (repeat url k ++ sent w)%list)
      /\ match fst (fst (get_loop N url host cache_ok (S i) n h1 w4)) with
         | Ok body =>
             cache (snd (fst (get_loop N url host cache_ok (S i) n h1 w4)))
             = (if cache_ok then <[url := body]> (cache h) else cache h)
         | Raise e =>
             e = GetFailed url
             /\ cache (snd (fst (get_loop N url host cache_ok (S i) n h1 w4))) = cache h
         end
      /\ robots_cache (snd (fst (get_loop N url host cache_ok (S i) n h1 w4)))
         = robots_cache h
      /\ respect_robots (snd (fst (get_loop N url host cache_ok (S i) n h1 w4)))
         = respect_robots h
      /\ (forall other, other <> host ->
            buckets (snd (fst (get_loop N url host cache_ok (S i) n h1 w4))) !! other
            = buckets h !! other)).
    { intros w4 Hw4.
      destruct (IH (S i) h1 w4) as ((k & Hk & _ & Hsent) & Hres & Hrc & Hrp & Hbk).
      split.
      - exists (S k). split; [lia|]. split; [right; lia|].
        rewrite Hsent, Hw4. cbn [repeat].
        rewrite repeat_cons, <- List.app_assoc. reflexivity.
      - rewrite <- Hc, <- Hr, <- Hp. repeat split; try assumption.
        intros other Hne. rewrite Hbk by assumption. now apply Hb. }
    destruct (http_get N (sent w1) url) as [code body|].
    + destruct ((200 <=? code)%Z && (code <? 300)%Z).
      * cbn [fst snd sent]. split.
        { exists 1%nat. repeat split; [lia | right; lia | now rewrite Hs]. }
        destruct cache_ok; cbn [set_cache cache robots_cache respect_robots buckets];
          rewrite ?Hc; repeat split; assumption.
      * destruct (retryable code).
        -- apply Hretry. cbn [sleep sent]. now rewrite Hs.
        -- cbn [fst snd sent]. split.
           { exists 1%nat. repeat split; [lia | right; lia | now rewrite Hs]. }
           repeat split; assumption.
    + apply Hretry. cbn [sleep sent]. now rewrite Hs.
Qed.

(** X3: The retry loop as [get] runs it: between one and five requests, all
    for the URL asked for; either a body, stored in the response cache
    exactly when caching is on, or the "GET failed" error with the
    response cache as before; the robots cache, the robots switch and the
    rate buckets of all other hosts stay as they are. *)
Theorem get_loop_effects (N : Net) (url host : string) (cache_ok : bool)
  (h : RobustHttp) (w : World) :
  let '(r, h', w') := get_loop N url host cache_ok 0 MAX_RETRIES h w in
  (exists k, (1 <= k <= MAX_RETRIES)%nat /\ sent w' = (repeat url k ++ sent w)%list)
  /\ match r with
     | Ok body => cache h' = (if cache_ok then <[url := body]> (cache h) else cache h)
     | Raise e => e = GetFailed url /\ cache h' = cache h
     end
  /\ robots_cache h' = robots_cache h
  /\ respect_robots h' = respect_robots h
  /\ (forall other, other <> host -> buckets h' !! other = buckets h !! other).
Proof.
  pose proof (get_loop_outcome N url host cache_ok MAX_RETRIES 0 h w)
    as ((k & Hk & Hpos & Hsent) & Hrest).
  destruct (get_loop N url host cache_ok 0 MAX_RETRIES h w) as [[r h'] w'].
  cbn [fst snd] in *. split; [|exact Hrest].
  exists k. split; [|exact Hsent].
  destruct Hpos as [Hz | Hpos]; [discriminate Hz | lia].
Qed.

Lemma get_loop_failure (N : Net) (url host : string) (cache_ok : bool) (i n : nat)
  (h : RobustHttp) (w : World) :
  (forall s, http_get N s url = Failure) ->
  get_loop N url host cache_ok i (S n) h w
  = get_loop N url host cache_ok (S i) n (fst (wait_host host h w))
      (sleep (Qpower BACKOFF_BASE (Z.of_nat i)
              + random N (S (draws (snd (wait_host host h w)))) * (1 # 2))%Q
         {| now := now (snd (wait_host host h w));
            sent := url :: sent (snd (wait_host host h w));
            draws := S (S (draws (snd (wait_host host h w)))) |}).
Proof.
  intros Hdead. cbn [get_loop].
  destruct (wait_host host h w) as [h1 w1]. unfold draw. cbn [fst snd now sent draws].
  now rewrite Hdead.
Qed.

Lemma get_loop_dead (N : Net) (url host : string) (cache_ok : bool) (n : nat) :
  (forall s, http_get N s url = Failure) ->
  (forall k, (0 <= random N k)%Q) ->
  forall (i : nat) (h : RobustHttp) (w : World),
  fst (fst (get_loop N url host cache_ok i n h w)) = Raise (GetFailed url)
  /\ sent (snd (get_loop N url host cache_ok i n h w)) = (repeat url n ++ sent w)%list
  /\ cache (snd (fst (get_loop N url host cache_ok i n h w))) = cache h
  /\ (now w + backoff_total i n <= now (snd (get_loop N url host cache_ok i n h w)))%Q.
Proof.
  intros Hdead Hrand. induction n as [|n IH]; intros i h w.
  - cbn [get_loop fst snd backoff_total repeat]. repeat split. lra.
  - rewrite get_loop_failure by assumption.
    pose proof (wait_host_frame host h w) as (Hc & _ & _ & _ & Hs & Ht).
    destruct (wait_host host h w) as [h1 w1]. cbn [fst snd] in *.
    match goal with |- context [get_loop _ _ _ _ _ _ _ ?v] => set (v1 := v) end.
    destruct (IH (S i) h1 v1) as (Hr & Hsent & Hcache & Htime).
    split; [exact Hr|]. split; [|split].
    + rewrite Hsent. subst v1. cbn [sleep sent repeat]. rewrite Hs.
      rewrite repeat_cons, <- List.app_assoc. reflexivity.
    + congruence.
    + cbn [backoff_total].
      assert (Hv : (now w1 + Qpower BACKOFF_BASE (Z.of_nat i) <= now v1)%Q).
      { subst v1. cbn [sleep now]. pose proof (Hrand (S (draws w1))). lra. }
      lra.
Qed.

(** X4: A host that never answers: [get] tries five times and raises the
    "GET failed" error; the response cache is unchanged; and with random
    numbers that are not negative, as [random.random] gives them, the
    back-off alone has taken 1 + 1.7 + 1.7^2 + 1.7^3 + 1.7^4 = 18.8551
    seconds by then. *)
Theorem get_loop_dead_host (N : Net) (url host : string) (cache_ok : bool)
  (h : RobustHttp) (w : World) :
  (forall s, http_get N s url = Failure) ->
  (forall k, (0 <= random N k)%Q) ->
  let '(r, h', w') := get_loop N url host cache_ok 0 MAX_RETRIES h w in
  r = Raise (GetFailed url)
  /\ sent w' = (repeat url 5 ++ sent w)%list
  /\ cache h' = cache h
  /\ (now w + (188551 # 10000) <= now w')%Q.
Proof.
  intros Hdead Hrand.
  pose proof (get_loop_dead N url host cache_ok MAX_RETRIES Hdead Hrand 0 h w)
    as (Hr & Hsent & Hcache & Htime).
  destruct (get_loop N url host cache_ok 0 MAX_RETRIES h w) as [[r h'] w'].
  cbn [fst snd] in *. repeat split; try assumption.
  assert (E : (backoff_total 0 MAX_RETRIES == 188551 # 10000)%Q) by reflexivity.
  rewrite <- E. exact Htime.
Qed.

Lemma get_loop_dead_host_witness :
  fst (fst (get_loop dead_net "https://example.com/" "example.com" true 0 MAX_RETRIES
              careless_http world0))
  = Raise (GetFailed "https://example.com/").
Proof.
  pose proof (get_loop_dead_host dead_net "https://example.com/" "example.com" true
                careless_http world0) as H.
  destruct (get_loop dead_net "https://example.com/" "example.com" true 0 MAX_RETRIES
              careless_http world0) as [[r h'] w'].
  apply H; [reflexivity | intros k; simpl; lra].
Defined.

(** ** The fetcher: what a call keeps *)

Lemma grows_refl (h : RobustHttp) (w : World) : grows h w h w.
Proof. repeat split; try reflexivity. now exists []. Qed.

Lemma robots_allowed_with_grows (U : UrlLib)
  (get_rec : string -> bool -> RobustHttp -> World -> Result string * RobustHttp * World)
  (url : string) (h : RobustHttp) (w : World) :
  (forall u c h0 w0,
     grows h0 w0 (snd (fst (get_rec u c h0 w0))) (snd (get_rec u c h0 w0))) ->
  grows h w (snd (fst (robots_allowed_with U get_rec url h w)))
    (snd (robots_allowed_with U get_rec url h w)).
Proof.
  intros Hrec. unfold robots_allowed_with.
  destruct (negb (respect_robots h)); [apply grows_refl|].
  destruct (robots_cache h !! robots_url_of U url) as [txt|] eqn:Hmiss;
    [apply grows_refl|].
  specialize (Hrec (robots_url_of U url) true h w).
  destruct (get_rec (robots_url_of U url) true h w) as [[[txt|e] h'] w'];
    cbn [fst snd] in *; [|exact Hrec].
  destruct Hrec as (Hc & Hr & Hp & Hs).
  repeat split; cbn [set_robots_cache cache robots_cache respect_robots]; try assumption.
  now apply insert_subseteq_r.
Qed.

Lemma get_grows (U : UrlLib) (N : Net) (depth : nat) :
  forall (url : string) (cache_ok : bool) (h : RobustHttp) (w : World),
  grows h w (snd (fst (get U N depth url cache_ok h w)))
    (snd (get U N depth url cache_ok h w)).
Proof.
  induction depth as [|d IH]; intros url cache_ok h w; [apply grows_refl|].
  rewrite get_unfold.
  destruct (if cache_ok then cache h !! url else None) as [body|] eqn:Hmiss;
    [apply grows_refl|].
  pose proof (robots_allowed_with_grows U (get U N d) url h w IH) as Hrob.
  destruct (robots_allowed_with U (get U N d) url h w) as [[allowed h1] w1].
  cbn [fst snd] in Hrob.
  destruct (negb allowed); [exact Hrob|].
  destruct Hrob as (Hc & Hr & Hp & (new & Hs)).
  pose proof (get_loop_outcome N url (url_netloc U url) cache_ok MAX_RETRIES 0 h1 w1)
    as ((k & _ & _ & Hsent) & Hres & Hrc & Hrp & _).
  destruct (get_loop N url (url_netloc U url) cache_ok 0 MAX_RETRIES h1 w1)
    as [[r h2] w2]. cbn [fst snd] in *.
  split; [|split; [|split]].
  - destruct r as [body|e].
    + rewrite Hres. destruct cache_ok; [|exact Hc].
      now apply insert_subseteq_r.
    + destruct Hres as [_ ->]. exact Hc.
  - now rewrite Hrc.
  - congruence.
  - exists (repeat url k ++ new)%list. rewrite Hsent, Hs. now rewrite List.app_assoc.
Qed.

(** X6: Whatever [get] does, at any depth of the call stack and whether it
    returns or raises: no entry of the response cache or of the robots
    cache is removed or changed, the robots switch stays as it is, and the
    requests sent before are still the tail of the log. *)
Theorem get_keeps_caches (U : UrlLib) (N : Net) (depth : nat) (url : string)
  (cache_ok : bool) (h : RobustHttp) (w : World) :
  let '(_, h', w') := get U N depth url cache_ok h w in
  (forall u body, cache h !! u = Some body -> cache h' !! u = Some body)
  /\ (forall u txt, robots_cache h !! u = Some txt -> robots_cache h' !! u = Some txt)
  /\ respect_robots h' = respect_robots h
  /\ exists new, sent w' = (new ++ sent w)%list.
Proof.
  pose proof (get_grows U N depth url cache_ok h w) as (Hc & Hr & Hp & Hs).
  destruct (get U N depth url cache_ok h w) as [[r h'] w']. cbn [fst snd] in *.
  repeat split; try assumption.
  - intros u body Hu. exact (lookup_weaken _ _ _ _ Hu Hc).
  - intros u txt Hu. exact (lookup_weaken _ _ _ _ Hu Hr).
Qed.

(** X7: Round trip through the response cache: when [get] with caching on has
    returned a body, a later [get] of the same URL returns that body
    again, from the cache: without a request, at any clock, and whatever
    the network would answer then. *)
Theorem get_then_cached (U : UrlLib) (N N2 : Net) (depth d2 : nat) (url body : string)
  (h h' : RobustHttp) (w w' w2 : World) :
  get U N depth url true h w = (Ok body, h', w') ->
  get U N2 (S d2) url true h' w2 = (Ok body, h', w2).
Proof.
  intros Hget.
  assert (Hin : cache h' !! url = Some body).
  { destruct depth as [|d]; [discriminate Hget|].
    rewrite get_unfold in Hget.
    destruct (cache h !! url) as [b|] eqn:Hmiss.
    - now inversion Hget; subst.
    - destruct (robots_allowed_with U (get U N d) url h w) as [[allowed h1] w1].
      destruct (negb allowed); [discriminate Hget|].
      pose proof (get_loop_outcome N url (url_netloc U url) true MAX_RETRIES 0 h1 w1)
        as (_ & Hres & _).
      rewrite Hget in Hres. cbn [fst snd] in Hres. rewrite Hres.
      apply lookup_insert_eq. }
  now rewrite get_unfold, Hin.
Qed.

Lemma get_then_cached_witness :
  fst (fst (get plain_urls dead_net 1 "https://example.com/page" true
              (snd (fst (get plain_urls open_net 2 "https://example.com/page" true
                           careless_http world0)))
              world0))
  = Ok "<html></html>".
Proof.
  rewrite (get_then_cached plain_urls open_net dead_net 2 0 "https://example.com/page"
             "<html></html>" careless_http
             (snd (fst (get plain_urls open_net 2 "https://example.com/page" true
                          careless_http world0)))
             world0
             (snd (get plain_urls open_net 2 "https://example.com/page" true
                     careless_http world0))
             world0).
  - reflexivity.
  - vm_compute. reflexivity.
Defined.


Lemma refusal_cached (U : UrlLib) (N : Net) (depth : nat) (url : string)
  (h h1 : RobustHttp) (w w1 : World) :
  robots_allowed U N depth url h w = (false, h1, w1) ->
  respect_robots h1 = true
  /\ exists txt, robots_cache h1 !! robots_url_of U url = Some txt
                 /\ robots_text_allows txt = false.
Proof.
  unfold robots_allowed, robots_allowed_with. intros Hfirst.
  destruct (respect_robots h) eqn:Hon; cbn [negb] in Hfirst; [|discriminate Hfirst].
  destruct (robots_cache h !! robots_url_of U url) as [txt|] eqn:Hmiss.
  - injection Hfirst as Hv Hh Hw. subst h1 w1. split; [exact Hon|]. now exists txt.
  - pose proof (get_grows U N depth (robots_url_of U url) true h w) as (_ & _ & Hp & _).
    destruct (get U N depth (robots_url_of U url) true h w) as [[[txt|e] h'] w'];
      cbn [fst snd] in *; [|discriminate Hfirst].
    injection Hfirst as Hv Hh Hw. subst h1 w1.
    cbn [set_robots_cache respect_robots robots_cache].
    split; [congruence|]. exists txt. split; [apply lookup_insert_eq | exact Hv].
Qed.

(** X8: A refusal lasts: once [robots_allowed] has answered no for a URL, then
    after any further [get], of any URL and whatever its outcome, the answer
    for that URL is still no, given without a request; and [get] of it,
    unless the response cache has it, raises the robots error without a
    request or any other effect. *)
Theorem robots_refusal_lasts (U : UrlLib) (N N2 N3 : Net) (d1 d2 d3 : nat)
  (url other : string) (cache_ok : bool) (h h1 : RobustHttp) (w w1 w2 w4 : World) :
  robots_allowed U N d1 url h w = (false, h1, w1) ->
  let '(_, h2, _) := get U N2 d2 other cache_ok h1 w2 in
  robots_allowed U N3 d3 url h2 w4 = (false, h2, w4)
  /\ (cache h2 !! url = None ->
      get U N3 (S d3) url true h2 w4
      = (Raise (RobotsDisallow (url_netloc U url)), h2, w4)).
Proof.
  intros Hfirst.
  destruct (refusal_cached U N d1 url h h1 w w1 Hfirst) as (Hon & txt & Htxt & Hno).
  pose proof (get_grows U N2 d2 other cache_ok h1 w2) as (_ & Hr & Hp & _).
  destruct (get U N2 d2 other cache_ok h1 w2) as [[r h2] w3]. cbn [fst snd] in *.
  assert (Hon2 : respect_robots h2 = true) by congruence.
  assert (Htxt2 : robots_cache h2 !! robots_url_of U url = Some txt)
    by exact (lookup_weaken _ _ _ _ Htxt Hr).
  assert (Hverdict : forall get_rec,
            robots_allowed_with U get_rec url h2 w4 = (false, h2, w4)).
  { intros get_rec. unfold robots_allowed_with. now rewrite Hon2, Htxt2, Hno. }
  split; [apply Hverdict|].
  intros Hmiss. rewrite get_unfold, Hmiss, Hverdict. reflexivity.
Qed.

Lemma robots_refusal_lasts_witness :
  fst (fst (robots_allowed plain_urls dead_net 0 "https://example.com/page"
              (snd (fst (get plain_urls open_net 3 "https://example.org/" true
                           forbidden_host_http world0)))
              world0))
  = false.
Proof.
  pose proof (robots_refusal_lasts plain_urls open_net open_net dead_net 1 3 0
                "https://example.com/page" "https://example.org/" true
                forbidden_host_http forbidden_host_http world0 world0 world0 world0
                eq_refl) as H.
  destruct (get plain_urls open_net 3 "https://example.org/" true
              forbidden_host_http world0) as [[r h2] w3].
  cbn [fst snd]. destruct H as [-> _]. reflexivity.
Defined.

(** X5: A reply that is neither a success nor one of 403, 429, 503 ends the
    loop at once: one request, no back-off, the "GET failed" error, and
    nothing stored. *)
Theorem get_loop_gives_up (N : Net) (url host : string) (cache_ok : bool)
  (code : Z) (body : string) (h : RobustHttp) (w : World) :
  http_get N (sent w) url = Response code body ->
  (code < 200 \/ 300 <= code)%Z ->
  code <> 403%Z -> code <> 429%Z -> code <> 503%Z ->
  let '(r, h', w') := get_loop N url host cache_ok 0 MAX_RETRIES h w in
  r = Raise (GetFailed url)
  /\ sent w' = url :: sent w
  /\ cache h' = cache h
  /\ now w' = now (snd (wait_host host h w)).
Proof.
  intros Hreply Hcode H403 H429 H503. unfold MAX_RETRIES. cbn [get_loop].
  pose proof (wait_host_frame host h w) as (Hc & _ & _ & _ & Hs & _).
  destruct (wait_host host h w) as [h1 w1]. cbn [fst snd] in *.
  unfold draw. cbn [fst snd now sent draws]. rewrite Hs, Hreply.
  assert (Hrange : ((200 <=? code)%Z && (code <? 300)%Z) = false).
  { apply andb_false_iff. destruct Hcode; [left | right]; lia. }
  assert (Hretry : retryable code = false).
  { unfold retryable. apply bool_decide_eq_false. lia. }
  rewrite Hrange, Hretry. repeat split; assumption.
Qed.

Lemma get_loop_gives_up_witness :
  fst (fst (get_loop missing_net "https://example.com/" "example.com" true 0
              MAX_RETRIES careless_http world0))
  = Raise (GetFailed "https://example.com/").
Proof.
  pose proof (get_loop_gives_up missing_net "https://example.com/" "example.com" true
                404 "not found" careless_http world0) as H.
  destruct (get_loop missing_net "https://example.com/" "example.com" true 0
              MAX_RETRIES careless_http world0) as [[r h'] w'].
  apply H; [reflexivity | right; lia | lia | lia | lia].
Defined.


(** ** Sorting and sets *)

Lemma insert_by_perm {A} (leb : A -> A -> bool) (x : A) (l : list A) :
  Permutation (insert_by leb x l) (x :: l).
Proof.
  induction l as [|y r IH]; simpl; [reflexivity|].
  destruct (leb x y); [reflexivity|].
  rewrite IH. apply perm_swap.
Qed.

Lemma sort_by_perm {A} (leb : A -> A -> bool) (l : list A) :
  Permutation (sort_by leb l) l.
Proof.
  induction l as [|x r IH]; simpl; [reflexivity|].
  unfold sort_by in *. simpl. rewrite insert_by_perm. now constructor.
Qed.

Lemma sort_by_length {A} (leb : A -> A -> bool) (l : list A) :
  length (sort_by leb l) = length l.
Proof. apply Permutation_length, sort_by_perm. Qed.

Lemma insert_by_sorted {A} (leb : A -> A -> bool) (x : A) (l : list A) :
  (forall a b, leb a b = true \/ leb b a = true) ->
  Sorted (fun a b => leb a b = true) l ->
  Sorted (fun a b => leb a b = true) (insert_by leb x l).
Proof.
  intros Htot Hs. induction Hs as [|y r Hr IH Hhd]; simpl.
  - repeat constructor.
  - destruct (leb x y) eqn:Hxy.
    + constructor; [now constructor | now constructor].
    + constructor; [exact IH|].
      assert (Hyx : leb y x = true) by (destruct (Htot x y); congruence).
      destruct r as [|z r']; simpl; [now constructor|].
      destruct (leb x z); constructor; [exact Hyx|].
      now inversion Hhd.
Qed.

Lemma sort_by_sorted {A} (leb : A -> A -> bool) (l : list A) :
  (forall a b, leb a b = true \/ leb b a = true) ->
  Sorted (fun a b => leb a b = true) (sort_by leb l).
Proof.
  intros Htot. induction l as [|x r IH]; [constructor|].
  unfold sort_by in *. simpl. now apply insert_by_sorted.
Qed.

Lemma set_add_NoDup {A} `{EqDecision A} (x : A) (s : list A) :
  NoDup s -> NoDup (set_add x s).
Proof.
  intros Hnd. unfold set_add. destruct (bool_decide (x ∈ s)) eqn:Hin; [exact Hnd|].
  apply bool_decide_eq_false in Hin.
  apply NoDup_app. split; [exact Hnd|]. split.
  - intros y Hy Hy'. apply list_elem_of_singleton in Hy'. now subst.
  - apply NoDup_singleton.
Qed.

Lemma set_add_In {A} `{EqDecision A} (x y : A) (s : list A) :
  In y (set_add x s) <-> y = x \/ In y s.
Proof.
  unfold set_add. destruct (bool_decide (x ∈ s)) eqn:Hin.
  - apply bool_decide_eq_true in Hin. apply list_elem_of_In in Hin.
    split; [now right | intros [->|?]; assumption].
  - rewrite in_app_iff. simpl. intuition.
Qed.

Lemma set_fold_spec (l acc : list string) :
  NoDup acc ->
  NoDup (fold_left (fun s x => set_add x s) l acc)
  /\ forall y, In y (fold_left (fun s x => set_add x s) l acc) <-> In y l \/ In y acc.
Proof.
  revert acc. induction l as [|x r IH]; intros acc Hnd; simpl.
  - split; [exact Hnd | intuition].
  - destruct (IH (set_add x acc) (set_add_NoDup x acc Hnd)) as [Hn Hi].
    split; [exact Hn|]. intros y. rewrite Hi, set_add_In. intuition.
Qed.

(** [sorted(set(l))] lists every element of [l] and nothing else, each
    once, in ascending order. *)
Lemma sorted_set_spec (l : list string) :
  NoDup (sorted_set l)
  /\ Sorted (fun a b => String.leb a b = true) (sorted_set l)
  /\ forall y, In y (sorted_set l) <-> In y l.
Proof.
  unfold sorted_set.
  destruct (set_fold_spec l [] (NoDup_nil_2)) as [Hn Hi].
  split; [|split].
  - rewrite sort_by_perm. exact Hn.
  - apply sort_by_sorted, String.leb_total.
  - intros y. rewrite sort_by_In, Hi. simpl. intuition.
Qed.

(** ** Language detection *)

Lemma lang_fold_spec (H : Html) (text : string) (hints : list (string * string))
  (langs : list string) :
  NoDup langs -> (length langs <= 6)%nat ->
  NoDup (fold_left
           (fun langs kc =>
              if re_word H (fst kc) text && (length langs <? 6)%nat
              then set_add (snd kc) langs else langs) hints langs)
  /\ (length (fold_left
                (fun langs kc =>
                   if re_word H (fst kc) text && (length langs <? 6)%nat
                   then set_add (snd kc) langs else langs) hints langs) <= 6)%nat.
Proof.
  revert langs. induction hints as [|kc r IH]; intros langs Hnd Hlen; simpl; [easy|].
  apply IH.
  - destruct (re_word H (fst kc) text && (length langs <? 6)%nat);
      [now apply set_add_NoDup | exact Hnd].
  - destruct (re_word H (fst kc) text); simpl; [|exact Hlen].
    destruct (length langs <? 6)%nat eqn:Hlt; [|exact Hlen].
    apply Nat.ltb_lt in Hlt. unfold set_add.
    destruct (bool_decide (snd kc ∈ langs)); [exact Hlen|].
    rewrite length_app. simpl. lia.
Qed.

Lemma lang_fold_keeps (H : Html) (text code : string) (hints : list (string * string))
  (langs : list string) :
  In code langs ->
  In code (fold_left
             (fun langs kc =>
                if re_word H (fst kc) text && (length langs <? 6)%nat
                then set_add (snd kc) langs else langs) hints langs).
Proof.
  revert langs. induction hints as [|kc r IH]; intros langs Hin; simpl; [exact Hin|].
  apply IH.
  destruct (re_word H (fst kc) text && (length langs <? 6)%nat);
    [apply set_add_In; now right | exact Hin].
Qed.

(** X9: [detect_languages] returns at most six codes, each once, in ascending
    order, all of them values of [LANG_HINTS]; and when the page declares a
    language that the table knows, its code is among them. *)
Theorem detect_languages_spec (H : Html) (html : string) :
  (length (detect_languages H html) <= 6)%nat
  /\ NoDup (detect_languages H html)
  /\ Sorted (fun a b => String.leb a b = true) (detect_languages H html)
  /\ incl (detect_languages H html) LANG_CODES
  /\ (forall lang code,
        html_lang H html = Some lang -> PyStr.nonempty lang = true ->
        dict_get (PyStr.lower (before_dash lang)) LANG_HINTS = Some code ->
        In code (detect_languages H html)).
Proof.
  split; [|split; [|split; [|split]]]; try apply detect_languages_codes;
    unfold detect_languages.
  - rewrite sort_by_length. apply lang_fold_spec.
    + destruct (html_lang H html) as [lang|]; [|apply NoDup_nil_2].
      destruct (PyStr.nonempty lang); [|apply NoDup_nil_2].
      destruct (dict_get _ LANG_HINTS); [apply NoDup_singleton | apply NoDup_nil_2].
    + destruct (html_lang H html) as [lang|]; [|apply Nat.le_0_l].
      destruct (PyStr.nonempty lang); [|apply Nat.le_0_l].
      destruct (dict_get _ LANG_HINTS); cbn [length]; lia.
  - rewrite sort_by_perm. apply lang_fold_spec.
    + destruct (html_lang H html) as [lang|]; [|apply NoDup_nil_2].
      destruct (PyStr.nonempty lang); [|apply NoDup_nil_2].
      destruct (dict_get _ LANG_HINTS); [apply NoDup_singleton | apply NoDup_nil_2].
    + destruct (html_lang H html) as [lang|]; [|apply Nat.le_0_l].
      destruct (PyStr.nonempty lang); [|apply Nat.le_0_l].
      destruct (dict_get _ LANG_HINTS); cbn [length]; lia.
  - apply sort_by_sorted, String.leb_total.
  - intros lang code Hlang Hne Hcode. apply sort_by_In, lang_fold_keeps.
    rewrite Hlang, Hne, Hcode. now left.
Qed.


(** ** The expansion of a scan request *)

(** X10: The countries of a scan: every requested token, stripped and
    upper-cased, stands for the members of its region when it names one
    and for itself otherwise; the result lists each country once, in
    ascending order, however often and in whatever order the tokens name
    it. *)
Theorem expand_countries_spec (cs : list string) :
  NoDup (expand_countries cs)
  /\ Sorted (fun a b => String.leb a b = true) (expand_countries cs)
  /\ (forall c, In c (expand_countries cs) <->
        exists tok, In tok cs
          /\ match dict_get (PyStr.upper (PyStr.strip tok)) REGION_EXPANSIONS with
             | Some members => In c members
             | None => c = PyStr.upper (PyStr.strip tok)
             end).
Proof.
  unfold expand_countries.
  destruct (sorted_set_spec
              (flat_map (fun c =>
                 match dict_get (PyStr.upper (PyStr.strip c)) REGION_EXPANSIONS with
                 | Some l => l
                 | None => [PyStr.upper (PyStr.strip c)]
                 end) cs)) as (Hn & Hs & Hi).
  split; [exact Hn|]. split; [exact Hs|].
  intros c. rewrite Hi, in_flat_map. split; intros (tok & Htok & Hc); exists tok;
    (split; [exact Htok|]);
    destruct (dict_get (PyStr.upper (PyStr.strip tok)) REGION_EXPANSIONS);
    first [exact Hc | destruct Hc as [<-|[]]; reflexivity | subst c; now left].
Qed.

Lemma adapter_key_source_str (s : SourceName) : adapter_key (source_str s) = Some s.
Proof. destruct s; reflexivity. Qed.

Lemma adapter_key_Some (tok : string) (s : SourceName) :
  adapter_key tok = Some s -> tok = source_str s.
Proof.
  unfold adapter_key. intros Hf. apply find_some in Hf. destruct Hf as [_ Heq].
  apply String.eqb_eq in Heq. now symmetry.
Qed.

(** X11: The sources of a scan: all seven adapters when some token reads ALL in
    any letter case; otherwise the tokens that are exactly the name of an
    adapter, in the order and as often as they are given, and every other
    token is dropped without a word. *)
Theorem expand_sources_spec (ss : list string) :
  (existsb (fun s => String.eqb (PyStr.upper s) "ALL") ss = true ->
     expand_sources ss = ADAPTER_KEYS)
  /\ (existsb (fun s => String.eqb (PyStr.upper s) "ALL") ss = false ->
        List.map source_str (expand_sources ss)
        = List.filter
            (fun tok => bool_decide (tok ∈ List.map source_str ADAPTER_KEYS)) ss)
  /\ forall names : list SourceName, expand_sources (List.map source_str names) = names.
Proof.
  unfold expand_sources. split; [|split].
  - intros ->. reflexivity.
  - intros ->. induction ss as [|tok r IH]; [reflexivity|]. cbn [omap list_omap List.filter].
    destruct (adapter_key tok) as [s|] eqn:Hk.
    + apply adapter_key_Some in Hk. subst tok.
      rewrite bool_decide_eq_true_2
        by (apply list_elem_of_In, in_map; destruct s; simpl; tauto).
      cbn [List.map]. now f_equal.
    + rewrite bool_decide_eq_false_2; [exact IH|].
      intros Hin. apply list_elem_of_In, in_map_iff in Hin.
      destruct Hin as (s & <- & _). now rewrite adapter_key_source_str in Hk.
  - intros names.
    assert (Hnone : existsb (fun s => String.eqb (PyStr.upper s) "ALL")
                      (List.map source_str names) = false).
    { induction names as [|s r IH]; [reflexivity|]. cbn [List.map existsb].
      rewrite IH. now destruct s. }
    rewrite Hnone. induction names as [|s r IH]; [reflexivity|].
    cbn [List.map omap list_omap]. rewrite adapter_key_source_str.
    cbn [existsb] in Hnone. apply orb_false_iff in Hnone. destruct Hnone as [_ Hr].
    now rewrite (IH Hr).
Qed.


(** ** What enrichment keeps of a lead *)

Lemma append_new_cons {A} `{EqDecision A} (t : A) (ts tags : list A) :
  append_new tags (t :: ts)
  = append_new (if bool_decide (t ∈ tags) then tags else (tags ++ [t])%list) ts.
Proof. reflexivity. Qed.

Lemma append_new_prefix {A} `{EqDecision A} (ts tags : list A) :
  exists more, append_new tags ts = (tags ++ more)%list.
Proof.
  revert tags. induction ts as [|t r IH]; intros tags.
  - exists []. now rewrite List.app_nil_r.
  - rewrite append_new_cons. case_bool_decide; [apply IH|].
    destruct (IH (tags ++ [t])%list) as [more ->].
    exists (t :: more). now rewrite <- List.app_assoc.
Qed.

Lemma tags_grow_refl (tags : list StackTag) : tags_grow tags tags.
Proof. split; [exists []; now rewrite List.app_nil_r | auto]. Qed.

Lemma tags_grow_trans (a b c : list StackTag) :
  tags_grow a b -> tags_grow b c -> tags_grow a c.
Proof.
  intros [[m1 ->] Hn1] [[m2 ->] Hn2]. split; [|auto].
  exists (m1 ++ m2)%list. now rewrite List.app_assoc.
Qed.

Lemma tags_grow_append_new (tags ts : list StackTag) :
  tags_grow tags (append_new tags ts).
Proof. split; [apply append_new_prefix | apply append_new_NoDup]. Qed.

Lemma first_wins_refl (o : option string) : first_wins o o.
Proof. now intros _. Qed.

Lemma first_wins_fill (o' : option string) (o : option string) :
  truthy o = false -> first_wins o o'.
Proof. intros Hf Ht. congruence. Qed.

Lemma first_wins_trans (a b c : option string) :
  first_wins a b -> first_wins b c -> first_wins a c.
Proof.
  intros Hab Hbc Ha. pose proof (Hab Ha) as ->. now apply Hbc.
Qed.

Lemma extends_refl (l : Lead) : extends l l.
Proof.
  unfold extends. repeat split; try reflexivity; auto using first_wins_refl.
  exists []. now rewrite List.app_nil_r.
Qed.

Lemma extends_trans (a b c : Lead) : extends a b -> extends b c -> extends a c.
Proof.
  unfold extends.
  intros (A1 & A2 & A3 & A4 & A5 & A6 & A7 & A8 & A9 & A10 & A11 & A12 & A13 & A14)
         (B1 & B2 & B3 & B4 & B5 & B6 & B7 & B8 & B9 & B10 & B11 & B12 & B13 & B14).
  repeat match goal with |- _ /\ _ => split end; try congruence;
    eauto using tags_grow_trans, first_wins_trans.
Qed.

Lemma extends_fields (l l' : Lead) :
  company_id l' = company_id l -> company_name l' = company_name l ->
  country l' = country l -> segment l' = segment l -> sources l' = sources l ->
  score l' = score l -> priority_class l' = priority_class l ->
  reason l' = reason l -> pitch l' = pitch l ->
  tags_grow (stack_tags l) (stack_tags l') ->
  first_wins (website l) (website l') ->
  first_wins (contact_email l) (contact_email l') ->
  first_wins (contact_url l) (contact_url l') ->
  first_wins (phone l) (phone l') ->
  extends l l'.
Proof. unfold extends. intuition. Qed.


Section Extends.
Context (U : UrlLib) (N : Net) (H : Html).

Lemma enrich_lead_extends (depth : nat) (lead : Lead) (h : RobustHttp) (w : World) :
  extends lead (fst (fst (enrich_lead U N H depth lead h w))).
Proof.
  destruct lead. unfold enrich_lead, extends, first_wins.
  repeat (cbn [fst snd set_last_seen set_contact_email set_website set_stack_tags
               set_contact_url sources contacts context website contact_url
               contact_email stack_tags phone company_id company_name country
               segment score priority_class reason pitch];
          break_match_eqn).
  all: cbn [fst snd set_last_seen set_contact_email set_website set_stack_tags
            set_contact_url sources contacts context website contact_url
            contact_email stack_tags phone company_id company_name country
            segment score priority_class reason pitch].
  all: repeat match goal with |- _ /\ _ => split end;
    try reflexivity;
    try (intros Ht; rewrite Ht in *; cbn [negb] in *; rewrite ?andb_false_r in *;
         congruence);
    first [apply tags_grow_refl | apply tags_grow_append_new].
Qed.

Lemma add_orgs_extends (u : string) (orgs : list Org) (lead : Lead)
  (ctx : CompanyContext) :
  extends lead (fst (fold_left (add_org u) orgs (lead, ctx))).
Proof.
  revert lead ctx. induction orgs as [|org orgs IH]; intros lead ctx;
    [apply extends_refl|].
  cbn [fold_left add_org].
  eapply extends_trans; [|apply IH].
  apply extends_fields; try reflexivity;
    first [apply tags_grow_refl | apply first_wins_refl].
Qed.

Lemma visit_base_extends (depth : nat) (u : string) (lead : Lead)
  (ctx : CompanyContext) (links : list (float * string)) (h : RobustHttp) (w : World) :
  extends lead (fst (fst (fst (fst (visit_base U N H depth u lead ctx links h w))))).
Proof.
  unfold visit_base.
  destruct (fetch U N depth u h w) as [[html h1] w1].
  destruct (negb (PyStr.nonempty html)); [apply extends_refl|].
  pose proof (add_orgs_extends u (jsonld_orgs H html)
                (set_stack_tags
                   (append_new (stack_tags lead)
                      (detect_stacks_extended H (soup_text H html))) lead) ctx) as Ho.
  destruct (fold_left (add_org u) (jsonld_orgs H html) _) as [lead1 ctx1].
  cbn [fst snd] in *.
  eapply extends_trans; [|eapply extends_trans; [exact Ho|]].
  - apply extends_fields; try reflexivity;
      first [apply tags_grow_append_new | apply first_wins_refl].
  - apply extends_fields; try reflexivity;
      first [apply tags_grow_refl | apply first_wins_refl].
Qed.

Lemma visit_bases_extends (depth : nat) (us : list string) (lead : Lead)
  (ctx : CompanyContext) (links : list (float * string)) (h : RobustHttp) (w : World) :
  extends lead (fst (fst (fst (fst (visit_bases U N H depth us lead ctx links h w))))).
Proof.
  revert lead ctx links h w.
  induction us as [|u us IH]; intros lead ctx links h w; [apply extends_refl|].
  cbn [visit_bases].
  pose proof (visit_base_extends depth u lead ctx links h w) as Hb.
  destruct (visit_base U N H depth u lead ctx links h w) as [[[[lead1 ctx1] links1] h1] w1].
  cbn [fst] in Hb. eapply extends_trans; [exact Hb | apply IH].
Qed.

Lemma visit_page_extends (url html : string) (lead : Lead) (ctx : CompanyContext) :
  extends lead (fst (visit_page H url html lead ctx)).
Proof.
  unfold visit_page. cbn [fst].
  destruct (truthy (phone (set_contacts _ _))) eqn:Hp.
  - apply extends_fields; try reflexivity;
      first [apply tags_grow_append_new | apply first_wins_refl].
  - cbn [set_contacts set_stack_tags phone] in Hp.
    destruct (find_phone H (soup_text H html));
      apply extends_fields; try reflexivity;
      first [apply tags_grow_append_new | apply first_wins_refl
            | now apply first_wins_fill].
Qed.

Lemma visit_ranked_extends (depth : nat) (req : DeepEnrichRequest)
  (links : list (float * string)) (lead : Lead) (ctx : CompanyContext)
  (vl vg : list string) (h : RobustHttp) (w : World) :
  extends lead
    (fst (fst (fst (fst (visit_ranked U N H depth req links lead ctx vl vg h w))))).
Proof.
  revert lead ctx vl vg h w.
  induction links as [|[sc url] links IH]; intros lead ctx vl vg h w;
    [apply extends_refl|].
  cbn [visit_ranked].
  destruct (max_pages_per_lead req <=? Z.of_nat (length vl))%Z; [apply extends_refl|].
  destruct (same_domain_only req && truthy (website lead)
            && PyStr.nonempty (url_netloc U url)
            && negb (url_netloc U url =? url_netloc U (str_opt (website lead)))%string);
    [apply IH|].
  destruct (bool_decide (url ∈ vl) || bool_decide (url ∈ vg)); [apply IH|].
  destruct (fetch U N depth url h w) as [[html h1] w1].
  destruct (negb (PyStr.nonempty html)); [apply IH|].
  pose proof (visit_page_extends url html lead ctx) as Hp.
  destruct (visit_page H url html lead ctx) as [lead1 ctx1].
  cbn [fst] in Hp. eapply extends_trans; [exact Hp | apply IH].
Qed.

Lemma deep_lead_extends (depth : nat) (req : DeepEnrichRequest) (lead : Lead)
  (vg : list string) (h : RobustHttp) (w : World) :
  extends lead (fst (fst (fst (deep_lead U N H depth req lead vg h w)))).
Proof.
  unfold deep_lead.
  destruct (base_urls_of lead) as [|u us]; [apply extends_refl|].
  set (lead1 := set_context (Some (default empty_context (context lead))) lead).
  assert (H1 : extends lead lead1).
  { apply extends_fields; try reflexivity;
      first [apply tags_grow_refl | apply first_wins_refl]. }
  pose proof (visit_bases_extends depth
                (List.filter (fun u0 => negb (bool_decide (u0 ∈ vg))) (u :: us))
                lead1 (default empty_context (context lead)) [] h w) as Hb.
  destruct (visit_bases U N H depth _ lead1 _ [] h w)
    as [[[[lead2 ctx2] links2] h2] w2].
  pose proof (visit_ranked_extends depth req (sort_by link_geb links2) lead2 ctx2
                [] vg h2 w2) as Hr.
  destruct (visit_ranked U N H depth req _ lead2 ctx2 [] vg h2 w2)
    as [[[[lead3 ctx3] vg3] h3] w3].
  cbn [fst] in *.
  eapply extends_trans; [exact H1|]. eapply extends_trans; [exact Hb|].
  eapply extends_trans; [exact Hr|].
  apply extends_fields; try reflexivity;
    first [apply tags_grow_refl | apply first_wins_refl].
Qed.

End Extends.


(** ** Dictionaries: keys *)

Lemma dict_get_None_keys {V} (k : string) (d : Dict V) :
  dict_get k d = None <-> ~ In k (map fst d).
Proof.
  induction d as [|[k' v] r IH]; simpl; [tauto|].
  destruct (decide (k = k')) as [->|Hne].
  - split; [discriminate | intros Hn; exfalso; apply Hn; now left].
  - rewrite IH. split; [intros Hn [Hk|Hk]; [congruence | tauto] | tauto].
Qed.

Lemma dict_set_keys {V} (k : string) (v : V) (d : Dict V) :
  map fst (dict_set k v d)
  = match dict_get k d with
    | Some _ => map fst d
    | None => (map fst d ++ [k])%list
    end.
Proof.
  induction d as [|[k' v'] r IH]; simpl; [reflexivity|].
  destruct (decide (k = k')) as [->|Hne]; simpl; [reflexivity|].
  rewrite IH. now destruct (dict_get k r).
Qed.

Lemma dict_set_NoDup {V} (k : string) (v : V) (d : Dict V) :
  NoDup (map fst d) -> NoDup (map fst (dict_set k v d)).
Proof.
  intros Hnd. rewrite dict_set_keys.
  destruct (dict_get k d) eqn:Hg; [exact Hnd|].
  apply dict_get_None_keys in Hg.
  apply NoDup_app. split; [exact Hnd|]. split; [|apply NoDup_singleton].
  intros y Hy Hy'. apply list_elem_of_singleton in Hy'. subst y.
  apply Hg. now apply list_elem_of_In.
Qed.

Lemma dict_set_Forall {V} (P : string * V -> Prop) (k : string) (v : V) (d : Dict V) :
  Forall P d -> P (k, v) -> Forall P (dict_set k v d).
Proof.
  intros Hd Hv. induction Hd as [|[k' v'] r Hx Hr IH]; simpl.
  - constructor; [exact Hv | constructor].
  - destruct (decide (k = k')); constructor; assumption.
Qed.

Lemma dict_get_Forall {V} (P : string * V -> Prop) (k : string) (v : V) (d : Dict V) :
  Forall P d -> dict_get k d = Some v -> P (k, v).
Proof.
  intros Hd Hg. apply dict_get_In in Hg.
  rewrite List.Forall_forall in Hd. exact (Hd _ Hg).
Qed.

Lemma dict_get_of_In {V} (k : string) (v : V) (d : Dict V) :
  NoDup (map fst d) -> In (k, v) d -> dict_get k d = Some v.
Proof.
  induction d as [|[k' v'] r IH]; simpl; [tauto|].
  intros Hnd [Heq|Hin].
  - injection Heq as -> ->. now rewrite decide_True.
  - apply NoDup_cons in Hnd. destruct Hnd as [Hk Hr].
    destruct (decide (k = k')) as [->|Hne]; [|now apply IH].
    exfalso. apply Hk. apply list_elem_of_In.
    change k' with (fst (k', v)). now apply in_map.
Qed.

(** ** Stores under enrichment *)

Lemma store_extends_refl (LEADS : LeadStore) : store_extends LEADS LEADS.
Proof.
  induction LEADS as [|kl r IH]; constructor; [|exact IH].
  split; [reflexivity | apply extends_refl].
Qed.

Lemma store_extends_trans (A B C : LeadStore) :
  store_extends A B -> store_extends B C -> store_extends A C.
Proof.
  intros HAB. revert C. induction HAB as [|a b ra rb [Hk He] Hr IH]; intros C HBC.
  - inversion HBC. constructor.
  - inversion HBC as [|b' c rb' rc [Hk' He'] Hr']; subst. constructor.
    + split; [congruence | eapply extends_trans; eassumption].
    + now apply IH.
Qed.

Lemma store_extends_keys (A B : LeadStore) :
  store_extends A B -> map fst B = map fst A.
Proof.
  induction 1 as [|a b ra rb [Hk He] Hr IH]; simpl; [reflexivity|]. congruence.
Qed.

Lemma store_extends_set (k : string) (l l' : Lead) (LEADS : LeadStore) :
  dict_get k LEADS = Some l -> extends l l' ->
  store_extends LEADS (dict_set k l' LEADS).
Proof.
  intros Hg He. induction LEADS as [|[k0 l0] r IH]; simpl in *; [discriminate|].
  destruct (decide (k = k0)) as [->|Hne].
  - injection Hg as ->. constructor; [now split | apply store_extends_refl].
  - constructor; [split; [reflexivity | apply extends_refl] | now apply IH].
Qed.

Lemma store_extends_get (A B : LeadStore) (k : string) :
  store_extends A B ->
  match dict_get k A, dict_get k B with
  | Some l, Some l' => extends l l'
  | None, None => True
  | _, _ => False
  end.
Proof.
  induction 1 as [|[ka la] [kb lb] ra rb [Hk He] Hr IH]; simpl in *; [exact I|].
  subst kb. destruct (decide (k = ka)); [exact He | exact IH].
Qed.

Section Stores.
Context (U : UrlLib) (N : Net) (H : Html).

Lemma enrich_leads_extends (depth : nat) (LEADS : LeadStore) (h : RobustHttp) (w : World) :
  store_extends LEADS (fst (fst (enrich_leads U N H depth LEADS h w))).
Proof.
  revert h w. induction LEADS as [|[k lead] r IH]; intros h w; [constructor|].
  cbn [enrich_leads].
  pose proof (enrich_lead_extends U N H depth lead h w) as He.
  destruct (enrich_lead U N H depth lead h w) as [[lead' h1] w1].
  specialize (IH h1 w1).
  destruct (enrich_leads U N H depth r h1 w1) as [[r' h2] w2].
  cbn [fst snd] in *. constructor; [now split | exact IH].
Qed.

Lemma deep_leads_extends (depth : nat) (req : DeepEnrichRequest) (targets : list string)
  (LEADS : LeadStore) (vg : list string) (h : RobustHttp) (w : World) :
  store_extends LEADS (fst (fst (deep_leads U N H depth req targets LEADS vg h w))).
Proof.
  revert LEADS vg h w.
  induction targets as [|k targets IH]; intros LEADS vg h w;
    [apply store_extends_refl|].
  cbn [deep_leads]. destruct (dict_get k LEADS) as [lead|] eqn:Hg; [|apply IH].
  pose proof (deep_lead_extends U N H depth req lead vg h w) as Hd.
  destruct (deep_lead U N H depth req lead vg h w) as [[[lead' vg'] h'] w'].
  cbn [fst] in Hd.
  eapply store_extends_trans; [eapply store_extends_set; eassumption | apply IH].
Qed.

Lemma deep_leads_other (depth : nat) (req : DeepEnrichRequest) (targets : list string)
  (k : string) :
  ~ In k targets ->
  forall (LEADS : LeadStore) (vg : list string) (h : RobustHttp) (w : World),
  dict_get k (fst (fst (deep_leads U N H depth req targets LEADS vg h w)))
  = dict_get k LEADS.
Proof.
  induction targets as [|t targets IH]; intros Hk LEADS vg h w; [reflexivity|].
  cbn [deep_leads].
  assert (Hne : t <> k) by (intros ->; apply Hk; now left).
  assert (Hk' : ~ In k targets) by (intros Hin; apply Hk; now right).
  destruct (dict_get t LEADS) as [lead|]; [|now apply IH].
  destruct (deep_lead U N H depth req lead vg h w) as [[[lead' vg'] h'] w'].
  rewrite IH by assumption. now apply dict_get_set_ne.
Qed.

End Stores.


(** ** Enrichment, deep enrichment and the store *)

Section Passes.
Context (U : UrlLib) (N : Net) (H : Html).

(** X12: [enrich] keeps the keys of the store and their order, and of every
    lead its identity, segment, sources, score, priority, reason and
    pitch; stack tags are only added, at the end, without duplicates; and
    a website, contact e-mail, contact URL or phone that is filled is not
    replaced. *)
Theorem enrich_keeps (depth : nat) (jid : string) (LEADS : LeadStore)
  (JOBS : JobRegistry) (h : RobustHttp) (w : World) :
  let '(_, LEADS', _, _, _) := enrich U N H depth jid LEADS JOBS h w in
  map fst LEADS' = map fst LEADS
  /\ forall k, match dict_get k LEADS, dict_get k LEADS' with
               | Some l, Some l' => extends l l'
               | None, None => True
               | _, _ => False
               end.
Proof.
  unfold enrich.
  pose proof (enrich_leads_extends U N H depth LEADS h w) as He.
  destruct (enrich_leads U N H depth LEADS h w) as [[LEADS' h'] w']. cbn [fst] in He.
  split; [now apply store_extends_keys | intros k; now apply store_extends_get].
Qed.

(** X13: [enrich_deep] keeps as much of every lead, and leaves the leads that
    are not among its targets exactly as they are. *)
Theorem enrich_deep_keeps (depth : nat) (req : DeepEnrichRequest) (LEADS : LeadStore)
  (JOBS : JobRegistry) (h : RobustHttp) (w : World) :
  let '(_, LEADS', _, _, _) := enrich_deep U N H depth req LEADS JOBS h w in
  map fst LEADS' = map fst LEADS
  /\ (forall k, match dict_get k LEADS, dict_get k LEADS' with
                | Some l, Some l' => extends l l'
                | None, None => True
                | _, _ => False
                end)
  /\ (forall k, ~ In k (deep_targets req LEADS) -> dict_get k LEADS' = dict_get k LEADS).
Proof.
  unfold enrich_deep.
  pose proof (deep_leads_extends U N H depth req (deep_targets req LEADS) LEADS [] h w)
    as He.
  pose proof (fun k Hk => deep_leads_other U N H depth req (deep_targets req LEADS) k Hk
                            LEADS [] h w) as Ho.
  destruct (deep_leads U N H depth req (deep_targets req LEADS) LEADS [] h w)
    as [[LEADS' h'] w']. cbn [fst] in He, Ho.
  split; [now apply store_extends_keys|].
  split; [intros k; now apply store_extends_get | exact Ho].
Qed.

Lemma entry_ok_extends (k : string) (l l' : Lead) :
  entry_ok (k, l) -> extends l l' -> entry_ok (k, l').
Proof.
  unfold entry_ok, scored_ok, extends. cbn [fst snd].
  intros (Hid & Hnd & Hsrc & Hseg & Hrange & Hsc)
         (E1 & E2 & E3 & E4 & E5 & E6 & E7 & E8 & E9 & [_ Htags] & _).
  rewrite E1, E4, E5, E6, E7, E8, E9. auto 10.
Qed.

Lemma store_extends_ok (A B : LeadStore) :
  store_extends A B -> Forall entry_ok A -> Forall entry_ok B.
Proof.
  induction 1 as [|[ka la] [kb lb] ra rb [Hk He] Hr IH]; intros Hok; [constructor|].
  inversion Hok as [|? ? Ha Hra]; subst. cbn [fst snd] in *. subst kb.
  constructor; [now apply (entry_ok_extends ka la lb) | now apply IH].
Qed.

Lemma base_stacks_NoDup (s : SourceName) : NoDup (base_stacks s).
Proof. destruct s; apply (bool_decide_unpack _); vm_compute; exact I. Qed.

Lemma upsert_entry_ok (t : Time) (rc : RawCompany) (LEADS : LeadStore) :
  Forall entry_ok LEADS ->
  Forall entry_ok (snd (upsert_lead_from_raw U t rc LEADS)).
Proof.
  intros Hok.
  destruct (upsert_cases U t rc LEADS)
    as [(lead & Hg & ->) | [(site & _ & _ & ->) | (_ & _ & ->)]]; cbn [snd];
    [| | exact Hok]; (apply dict_set_Forall; [exact Hok|]).
  - destruct (dict_get_Forall _ _ _ _ Hok Hg) as (Hid & Hnd & Hsrc & Hseg & Hsc).
    unfold entry_ok, scored_ok in *. cbn [fst snd merge_lead company_id stack_tags
      sources segment score priority_class reason pitch] in *.
    split; [exact Hid|]. split; [now apply append_new_NoDup|].
    split; [now destruct (sources lead)|].
    split; [now destruct (segment lead), (rc_source rc)|]. exact Hsc.
  - unfold entry_ok, scored_ok. cbn [fst snd lead_of company_id stack_tags
      sources segment score priority_class reason pitch].
    split; [reflexivity|]. split; [apply base_stacks_NoDup|].
    split; [discriminate|]. split; [now destruct (rc_source rc)|].
    split; [lia|]. now left.
Qed.

Lemma score_entry_ok (LEADS : LeadStore) :
  Forall entry_ok LEADS -> Forall entry_ok (dict_update_all score_lead LEADS).
Proof.
  unfold dict_update_all. induction 1 as [|[k l] r Hl Hr IH]; cbn [map]; constructor;
    [|exact IH].
  destruct Hl as (Hid & Hnd & Hsrc & Hseg & _).
  unfold entry_ok, scored_ok in *. cbn [fst snd score_lead company_id stack_tags
    sources segment score priority_class reason pitch] in *.
  repeat split; try assumption; try (unfold raw_score, clamp; lia).
  right. repeat split; discriminate.
Qed.

Lemma reachable_wf (LEADS : LeadStore) :
  reachable U N H LEADS -> NoDup (map fst LEADS) /\ Forall entry_ok LEADS.
Proof.
  induction 1 as [|t rc LEADS Hr [Hk Hok]|depth LEADS h w Hr [Hk Hok]
                  |depth req LEADS h w Hr [Hk Hok]|LEADS Hr [Hk Hok]].
  - split; constructor.
  - split; [|now apply upsert_entry_ok].
    destruct (upsert_cases U t rc LEADS)
      as [(lead & _ & ->) | [(site & _ & _ & ->) | (_ & _ & ->)]]; cbn [snd];
      [now apply dict_set_NoDup | now apply dict_set_NoDup | exact Hk].
  - pose proof (enrich_leads_extends U N H depth LEADS h w) as He.
    split; [rewrite (store_extends_keys _ _ He); exact Hk
           | exact (store_extends_ok _ _ He Hok)].
  - pose proof (deep_leads_extends U N H depth req (deep_targets req LEADS) LEADS []
                  h w) as He.
    split; [rewrite (store_extends_keys _ _ He); exact Hk
           | exact (store_extends_ok _ _ He Hok)].
  - split; [|now apply score_entry_ok].
    unfold dict_update_all. rewrite map_map. cbn [fst]. exact Hk.
Qed.

(** X14: In every store the operations can build, a lead is stored under its
    own [company_id], no id is stored twice, and looking an id up gives
    the lead stored under it. *)
Theorem reachable_keyed (LEADS : LeadStore) :
  reachable U N H LEADS ->
  NoDup (map fst LEADS)
  /\ forall k l, In (k, l) LEADS -> company_id l = k /\ dict_get k LEADS = Some l.
Proof.
  intros Hr. destruct (reachable_wf LEADS Hr) as [Hk Hok]. split; [exact Hk|].
  intros k l Hin. split; [|now apply dict_get_of_In].
  rewrite List.Forall_forall in Hok. exact (proj1 (Hok _ Hin)).
Qed.

(** X15: In every store the operations can build, every lead has at least one
    source and a segment, its stack tags are distinct, its score lies
    between 0 and 100, and it is either unscored (score 0, no priority, no
    reason, no pitch) or carries the priority class of its score together
    with a reason and a pitch. *)
Theorem reachable_leads (LEADS : LeadStore) :
  reachable U N H LEADS ->
  forall k l, In (k, l) LEADS ->
    sources l <> [] /\ segment l <> None /\ NoDup (stack_tags l)
    /\ (0 <= score l <= 100)%Z
    /\ ((priority_class l = None /\ reason l = None /\ pitch l = None /\ score l = 0%Z)
        \/ (priority_class l = Some (priority_of (score l))
            /\ reason l <> None /\ pitch l <> None)).
Proof.
  intros Hr k l Hin. destruct (reachable_wf LEADS Hr) as [_ Hok].
  rewrite List.Forall_forall in Hok.
  destruct (Hok _ Hin) as (_ & Hnd & Hsrc & Hseg & Hrange & Hsc). auto.
Qed.

End Passes.

Lemma reachable_keyed_witness : NoDup (map fst one_lead_store).
Proof.
  exact (proj1 (reachable_keyed plain_urls open_net blank_html one_lead_store
                  one_lead_store_reachable)).
Defined.

Lemma reachable_leads_witness :
  Forall (fun kl => (0 <= score (snd kl) <= 100)%Z /\ sources (snd kl) <> [])
    one_lead_store.
Proof.
  apply List.Forall_forall. intros [k l] Hin.
  destruct (reachable_leads plain_urls open_net blank_html one_lead_store
              one_lead_store_reachable k l Hin) as (Hsrc & _ & _ & Hrange & _).
  split; assumption.
Defined.


(** ** Scoring after enrichment *)

Lemma sum_Z_app (a b : list Z) : sum_Z (a ++ b) = (sum_Z a + sum_Z b)%Z.
Proof.
  induction a as [|x a IH]; [reflexivity|].
  cbn [app]. rewrite !sum_Z_cons, IH. lia.
Qed.

Lemma stack_weights_nonneg (tags : list StackTag) :
  (0 <= sum_Z (map stack_weight tags))%Z.
Proof.
  induction tags as [|t tags IH]; [reflexivity|].
  cbn [map]. rewrite sum_Z_cons. destruct t; cbn [stack_weight]; lia.
Qed.

Lemma raw_score_extends (l l' : Lead) :
  extends l l' -> (raw_score l <= raw_score l')%Z.
Proof.
  intros (_ & _ & _ & _ & Hsrc & _ & _ & _ & _ & [[more Htags] _] & _).
  unfold raw_score, stack_points, clamp. rewrite Hsrc, Htags, map_app, sum_Z_app.
  pose proof (stack_weights_nonneg more). lia.
Qed.

Lemma priority_of_tier (a b : Z) :
  (a <= b)%Z -> (tier (Some (priority_of b)) <= tier (Some (priority_of a)))%Z.
Proof.
  intros Hab. unfold priority_of.
  destruct (70 <=? b)%Z eqn:Hb, (70 <=? a)%Z eqn:Ha,
           (45 <=? b)%Z eqn:Hb', (45 <=? a)%Z eqn:Ha'; cbn [tier]; lia.
Qed.

Lemma rescore_extends (A B : LeadStore) :
  store_extends A B ->
  Forall2 (fun a b => fst a = fst b
                      /\ (score (snd a) <= score (snd b))%Z
                      /\ (tier (priority_class (snd b))
                          <= tier (priority_class (snd a)))%Z)
    (dict_update_all score_lead A) (dict_update_all score_lead B).
Proof.
  unfold dict_update_all.
  induction 1 as [|[ka la] [kb lb] ra rb [Hk He] Hr IH]; cbn [map]; constructor;
    [|exact IH].
  cbn [fst snd score_lead score priority_class] in *.
  pose proof (raw_score_extends la lb He) as Hs.
  split; [exact Hk|]. split; [exact Hs | now apply priority_of_tier].
Qed.

(** X16: Scoring after an enrichment pass, light or deep, gives every lead at
    least the score, and at least as high a priority class, as scoring
    without that pass: enrichment only adds stack tags, and no tag has a
    negative weight. *)
Theorem rescore_after_enrich (U : UrlLib) (N : Net) (H : Html) (depth : nat)
  (jid : string) (req : DeepEnrichRequest) (LEADS : LeadStore) (JOBS : JobRegistry)
  (h : RobustHttp) (w : World) (t : Time) :
  let better a b :=
    fst a = fst b /\ (score (snd a) <= score (snd b))%Z
    /\ (tier (priority_class (snd b)) <= tier (priority_class (snd a)))%Z in
  Forall2 better
    (snd (fst (score_op t jid LEADS JOBS)))
    (snd (fst (score_op t jid
                 (snd (fst (fst (fst (enrich U N H depth jid LEADS JOBS h w))))) JOBS)))
  /\ Forall2 better
       (snd (fst (score_op t jid LEADS JOBS)))
       (snd (fst (score_op t jid
                    (snd (fst (fst (fst (enrich_deep U N H depth req LEADS JOBS h w)))))
                    JOBS))).
Proof.
  cbv zeta. unfold score_op, enrich, enrich_deep. cbn [fst snd]. split.
  - pose proof (enrich_leads_extends U N H depth LEADS h w) as He.
    destruct (enrich_leads U N H depth LEADS h w) as [[LEADS' h'] w'].
    cbn [fst snd] in *. now apply rescore_extends.
  - pose proof (deep_leads_extends U N H depth req (deep_targets req LEADS) LEADS []
                  h w) as He.
    destruct (deep_leads U N H depth req (deep_targets req LEADS) LEADS [] h w)
      as [[LEADS' h'] w'].
    cbn [fst snd] in *. now apply rescore_extends.
Qed.


(** ** Enrichment without a network *)

Section Offline.
Context (U : UrlLib) (N : Net) (H : Html).
Hypothesis dead : forall sent_before url, http_get N sent_before url = Failure.

Lemma get_loop_dead_raises (url host : string) (cache_ok : bool) (n : nat) :
  forall (i : nat) (h : RobustHttp) (w : World),
  fst (fst (get_loop N url host cache_ok i n h w)) = Raise (GetFailed url).
Proof.
  induction n as [|n IH]; intros i h w; [reflexivity|].
  rewrite get_loop_failure by (intros s; apply dead). apply IH.
Qed.

Lemma get_dead (depth : nat) :
  forall (url : string) (cache_ok : bool) (h : RobustHttp) (w : World),
  cache h = ∅ ->
  (exists e, fst (fst (get U N depth url cache_ok h w)) = Raise e)
  /\ cache (snd (fst (get U N depth url cache_ok h w))) = ∅.
Proof.
  induction depth as [|d IH]; intros url cache_ok h w Hc.
  - split; [now exists RecursionError | exact Hc].
  - rewrite get_unfold.
    assert (Hmiss : (if cache_ok then cache h !! url else None) = None)
      by (destruct cache_ok; [now rewrite Hc | reflexivity]).
    rewrite Hmiss.
    assert (Hrob : cache (snd (fst (robots_allowed_with U (get U N d) url h w))) = ∅).
    { unfold robots_allowed_with. destruct (negb (respect_robots h)); [exact Hc|].
      destruct (robots_cache h !! robots_url_of U url); [exact Hc|].
      destruct (IH (robots_url_of U url) true h w Hc) as [[e He] Hc'].
      destruct (get U N d (robots_url_of U url) true h w) as [[r h'] w'].
      cbn [fst snd] in *. subst r. exact Hc'. }
    destruct (robots_allowed_with U (get U N d) url h w) as [[allowed h1] w1].
    cbn [fst snd] in Hrob.
    destruct (negb allowed);
      [split; [exists (RobotsDisallow (url_netloc U url)); reflexivity | exact Hrob]|].
    pose proof (get_loop_dead_raises url (url_netloc U url) cache_ok MAX_RETRIES 0 h1 w1)
      as Hr.
    pose proof (get_loop_outcome N url (url_netloc U url) cache_ok MAX_RETRIES 0 h1 w1)
      as (_ & Hres & _).
    rewrite Hr in Hres. destruct Hres as [_ Hcache].
    split; [exists (GetFailed url); exact Hr | congruence].
Qed.

Lemma fetch_dead (depth : nat) (url : string) (h : RobustHttp) (w : World) :
  cache h = ∅ ->
  fst (fst (fetch U N depth url h w)) = ""
  /\ cache (snd (fst (fetch U N depth url h w))) = ∅.
Proof.
  intros Hc. unfold fetch.
  destruct (get_dead depth url true h w Hc) as [[e He] Hc'].
  destruct (get U N depth url true h w) as [[r h'] w']. cbn [fst snd] in *.
  subst r. now split.
Qed.

Lemma first_source_html_dead (depth : nat) (srcs : list SourceHit) :
  forall (h : RobustHttp) (w : World),
  cache h = ∅ ->
  fst (fst (first_source_html U N depth srcs h w)) = ""
  /\ cache (snd (fst (first_source_html U N depth srcs h w))) = ∅.
Proof.
  induction srcs as [|s r IH]; intros h w Hc; [now split|].
  cbn [first_source_html]. destruct (truthy (hit_source_url s)); [|now apply IH].
  destruct (fetch_dead depth (str_opt (hit_source_url s)) h w Hc) as [Hhtml Hc'].
  destruct (fetch U N depth (str_opt (hit_source_url s)) h w) as [[html h1] w1].
  cbn [fst snd] in *. subst html. cbn [PyStr.nonempty]. now apply IH.
Qed.

Lemma enrich_lead_dead (depth : nat) (lead : Lead) (h : RobustHttp) (w : World) :
  cache h = ∅ ->
  fst (fst (enrich_lead U N H depth lead h w)) = lead
  /\ cache (snd (fst (enrich_lead U N H depth lead h w))) = ∅.
Proof.
  intros Hc. unfold enrich_lead.
  destruct (first_source_html_dead depth (sources lead) h w Hc) as [Hhtml Hc1].
  destruct (first_source_html U N depth (sources lead) h w) as [[html h1] w1].
  cbn [fst snd] in *. subst html. cbn [PyStr.nonempty negb andb].
  destruct (truthy (website lead)).
  - destruct (fetch_dead depth (str_opt (website lead)) h1 w1 Hc1) as [Hhtml Hc2].
    destruct (fetch U N depth (str_opt (website lead)) h1 w1) as [[html h2] w2].
    cbn [fst snd] in *. subst html. now split.
  - now split.
Qed.

Lemma enrich_leads_dead (depth : nat) (LEADS : LeadStore) :
  forall (h : RobustHttp) (w : World),
  cache h = ∅ ->
  fst (fst (enrich_leads U N H depth LEADS h w)) = LEADS
  /\ cache (snd (fst (enrich_leads U N H depth LEADS h w))) = ∅.
Proof.
  induction LEADS as [|[k lead] r IH]; intros h w Hc; [now split|].
  cbn [enrich_leads].
  destruct (enrich_lead_dead depth lead h w Hc) as [Hl Hc1].
  destruct (enrich_lead U N H depth lead h w) as [[lead' h1] w1].
  cbn [fst snd] in *. subst lead'.
  destruct (IH h1 w1 Hc1) as [Hr Hc2].
  destruct (enrich_leads U N H depth r h1 w1) as [[r' h2] w2].
  cbn [fst snd] in *. subst r'. now split.
Qed.

End Offline.

(** X17: With the network down and nothing in the response cache, [enrich]
    changes no lead at all, not even [last_seen], and caches nothing; it
    answers "enriched" all the same and marks the job, if it exists, as
    enriched. *)
Theorem enrich_offline (U : UrlLib) (N : Net) (H : Html) (depth : nat) (jid : string)
  (LEADS : LeadStore) (JOBS : JobRegistry) (h : RobustHttp) (w : World) :
  (forall sent_before url, http_get N sent_before url = Failure) ->
  cache h = ∅ ->
  let '(acc, LEADS', JOBS', h', _) := enrich U N H depth jid LEADS JOBS h w in
  LEADS' = LEADS /\ cache h' = ∅ /\ ja_status acc = enriched
  /\ status <$> (JOBS' !! jid) = (fun _ => enriched) <$> (JOBS !! jid).
Proof.
  intros Hdead Hc. unfold enrich.
  destruct (enrich_leads_dead U N H Hdead depth LEADS h w Hc) as [Hl Hc'].
  destruct (enrich_leads U N H depth LEADS h w) as [[LEADS' h'] w'].
  cbn [fst snd] in *. repeat split; try assumption.
  unfold touch_job. destruct (JOBS !! jid) as [j|] eqn:Hj.
  - now rewrite lookup_insert_eq.
  - now rewrite Hj.
Qed.

Lemma enrich_offline_witness :
  snd (fst (fst (fst (enrich plain_urls dead_net blank_html 8 "job_0" one_lead_store ∅
                        fresh_http world0))))
  = one_lead_store.
Proof.
  pose proof (enrich_offline plain_urls dead_net blank_html 8 "job_0" one_lead_store ∅
                fresh_http world0 (fun _ _ => eq_refl) eq_refl) as Hoff.
  destruct (enrich plain_urls dead_net blank_html 8 "job_0" one_lead_store ∅
              fresh_http world0) as [[[[acc LEADS'] JOBS'] h'] w'].
  exact (proj1 Hoff).
Defined.


(** ** Sorted lists and slices *)

Lemma insert_by_strongly {A} (leb : A -> A -> bool) (R : A -> A -> Prop) (x : A)
  (l : list A) :
  (forall a b c, R a b -> R b c -> R a c) ->
  (forall a b, leb a b = true -> R a b) ->
  (forall a b, leb a b = false -> R b a) ->
  StronglySorted R l -> StronglySorted R (insert_by leb x l).
Proof.
  intros Htrans Hle Hgt Hs. induction Hs as [|y r Hr IH Hall]; cbn [insert_by].
  - constructor; constructor.
  - destruct (leb x y) eqn:Hxy.
    + constructor; [now constructor|]. constructor; [now apply Hle|].
      rewrite List.Forall_forall in *. intros z Hz.
      apply (Htrans x y z); [now apply Hle | now apply Hall].
    + constructor; [exact IH|].
      rewrite List.Forall_forall in *. intros z Hz.
      apply insert_by_In in Hz. destruct Hz as [->|Hz]; [now apply Hgt | now apply Hall].
Qed.

Lemma sort_by_strongly {A} (leb : A -> A -> bool) (R : A -> A -> Prop) (l : list A) :
  (forall a b c, R a b -> R b c -> R a c) ->
  (forall a b, leb a b = true -> R a b) ->
  (forall a b, leb a b = false -> R b a) ->
  StronglySorted R (sort_by leb l).
Proof.
  intros Htrans Hle Hgt. induction l as [|x r IH]; [constructor|].
  unfold sort_by in *. cbn [fold_right]. now apply insert_by_strongly.
Qed.

Lemma firstn_In {A} (n : nat) (l : list A) (x : A) : In x (firstn n l) -> In x l.
Proof.
  revert n. induction l as [|a r IH]; intros [|n] Hx; cbn [firstn] in *;
    try contradiction.
  destruct Hx as [->|Hx]; [now left | right; now apply (IH n)].
Qed.

Lemma skipn_In {A} (n : nat) (l : list A) (x : A) : In x (skipn n l) -> In x l.
Proof.
  revert n. induction l as [|a r IH]; intros [|n] Hx; cbn [skipn] in *;
    try assumption; try contradiction.
  right. now apply (IH n).
Qed.

Lemma strongly_skipn {A} (R : A -> A -> Prop) (n : nat) (l : list A) :
  StronglySorted R l -> StronglySorted R (skipn n l).
Proof.
  intros Hs. revert n. induction Hs as [|x r Hr IH Hall]; intros [|n]; cbn [skipn];
    try constructor; auto.
Qed.

Lemma strongly_firstn {A} (R : A -> A -> Prop) (n : nat) (l : list A) :
  StronglySorted R l -> StronglySorted R (firstn n l).
Proof.
  intros Hs. revert n. induction Hs as [|x r Hr IH Hall]; intros [|n]; cbn [firstn];
    try constructor; auto.
  rewrite List.Forall_forall in *. intros z Hz. apply Hall.
  now apply (firstn_In n r).
Qed.

Lemma strongly_cut {A} (R : A -> A -> Prop) (n : nat) (l : list A) :
  StronglySorted R l ->
  forall x y, In x (firstn n l) -> In y (skipn n l) -> R x y.
Proof.
  intros Hs. revert n. induction Hs as [|z r Hr IH Hall]; intros [|n] x y Hx Hy;
    cbn [firstn skipn] in *; try contradiction.
  destruct Hx as [<-|Hx]; [|now apply (IH n)].
  rewrite List.Forall_forall in Hall. apply Hall. now apply (skipn_In n r).
Qed.


Lemma firstn_add {A} (n m : nat) (l : list A) :
  firstn (n + m) l = (firstn n l ++ firstn m (skipn n l))%list.
Proof.
  revert l. induction n as [|n IH]; intros l; [reflexivity|].
  destruct l as [|x r]; cbn [Nat.add firstn skipn app].
  - now rewrite firstn_nil.
  - now rewrite IH.
Qed.

Lemma py_slice_forward {A} (a n : Z) (l : list A) :
  (0 <= a)%Z -> (0 <= n)%Z ->
  py_slice a (a + n) l = firstn (Z.to_nat n) (skipn (Z.to_nat a) l).
Proof.
  intros Ha Hn. unfold py_slice, py_bound.
  assert (Ea : (a <? 0)%Z = false) by (apply Z.ltb_ge; lia).
  assert (Eb : (a + n <? 0)%Z = false) by (apply Z.ltb_ge; lia).
  rewrite Ea, Eb. rewrite Z2Nat.inj_add by assumption.
  set (i := Z.to_nat a). set (k := Z.to_nat n).
  destruct (Nat.le_gt_cases (length l) i) as [Hout|Hin].
  - rewrite !skipn_all2 by lia. now rewrite !firstn_nil.
  - rewrite (Nat.min_r _ i) by lia.
    destruct (Nat.le_gt_cases (length l) (i + k)) as [Hall|Hpart].
    + rewrite Nat.min_l by lia.
      rewrite !firstn_all2; [reflexivity | |]; rewrite length_skipn; lia.
    + rewrite Nat.min_r by lia. f_equal. lia.
Qed.

(** ** The lead listing *)

Lemma target_leb_scores (a b : Lead) :
  (target_leb a b = true -> (score b <= score a)%Z)
  /\ (target_leb a b = false -> (score a <= score b)%Z).
Proof.
  unfold target_leb.
  destruct (- score a <? - score b)%Z eqn:Hlt; cbn [orb].
  - apply Z.ltb_lt in Hlt. split; [lia | discriminate].
  - apply Z.ltb_ge in Hlt.
    destruct (- score a =? - score b)%Z eqn:Heq; cbn [andb].
    + apply Z.eqb_eq in Heq. split; lia.
    + split; [discriminate | lia].
Qed.

Lemma leads_leb_ranks (a b : Lead) :
  (leads_leb a b = true -> ranks_before a b)
  /\ (leads_leb a b = false -> ranks_before b a).
Proof.
  unfold leads_leb, ranks_before.
  destruct (target_leb_scores a b) as [Ht Hf].
  destruct (tier (priority_class a) <? tier (priority_class b))%Z eqn:Hlt; cbn [orb].
  - apply Z.ltb_lt in Hlt. split; [now left | discriminate].
  - apply Z.ltb_ge in Hlt.
    destruct (tier (priority_class a) =? tier (priority_class b))%Z eqn:Heq; cbn [andb].
    + apply Z.eqb_eq in Heq. split; intros Hl; right; split; auto.
    + apply Z.eqb_neq in Heq. split; [discriminate | intros _; left; lia].
Qed.

Lemma ranks_before_trans (a b c : Lead) :
  ranks_before a b -> ranks_before b c -> ranks_before a c.
Proof. unfold ranks_before. intros [?|[? ?]] [?|[? ?]]; [left | left | left | right]; lia. Qed.

Lemma leads_rows_spec (priority : option Priority) (ctry : option string)
  (LEADS : LeadStore) (r : Lead) :
  In r (leads_rows priority ctry LEADS) <->
  In r (dict_values LEADS)
  /\ (forall p, priority = Some p -> priority_class r = Some p)
  /\ (truthy ctry = true -> PyStr.upper (country r) = PyStr.upper (str_opt ctry)).
Proof.
  unfold leads_rows.
  assert (Hp : In r (match priority with
                     | Some p =>
                         List.filter (fun r => bool_decide (priority_class r = Some p))
                           (dict_values LEADS)
                     | None => dict_values LEADS
                     end)
               <-> In r (dict_values LEADS)
                   /\ (forall p, priority = Some p -> priority_class r = Some p)).
  { destruct priority as [p|].
    - rewrite filter_In, bool_decide_eq_true. split.
      + intros [Hin Hpr]. split; [exact Hin|]. now intros p' [= <-].
      + intros [Hin Hpr]. split; [exact Hin | now apply Hpr].
    - split; [intros Hin; split; [exact Hin | discriminate] | tauto]. }
  destruct (truthy ctry).
  - rewrite filter_In, Hp, String.eqb_eq. tauto.
  - rewrite Hp. split; [intros [? ?]; repeat split; auto; discriminate | tauto].
Qed.

(** X18: What a page of [leads] holds: only stored leads that pass the
    filters, the priority filter by equality and the country filter without
    regard to letter case; never more than the total it reports; and
    always in ranking order, a better tier first and within a tier the
    higher score first, whatever the offset and the limit, negative ones
    included. *)
Theorem leads_page (priority : option Priority) (ctry : option string)
  (limit offset : Z) (LEADS : LeadStore) :
  let page := leads priority ctry limit offset LEADS in
  (forall r, In r (items page) ->
     In r (dict_values LEADS)
     /\ (forall p, priority = Some p -> priority_class r = Some p)
     /\ (truthy ctry = true -> PyStr.upper (country r) = PyStr.upper (str_opt ctry)))
  /\ (length (items page) <= total page)%nat
  /\ StronglySorted ranks_before (items page).
Proof.
  cbv zeta. unfold leads. cbn [items total]. unfold py_slice.
  set (rows := leads_rows priority ctry LEADS).
  rewrite (sort_by_length leads_leb rows).
  set (lo := py_bound (length rows) offset).
  set (hi := py_bound (length rows) (offset + limit)).
  split; [|split].
  - intros r Hin. apply leads_rows_spec. fold rows.
    apply (sort_by_In leads_leb). eapply skipn_In, firstn_In, Hin.
  - rewrite length_firstn, length_skipn, sort_by_length. lia.
  - apply strongly_firstn, strongly_skipn, sort_by_strongly.
    + exact ranks_before_trans.
    + intros a b. apply leads_leb_ranks.
    + intros a b. apply leads_leb_ranks.
Qed.

(** X19: Paging forward: with an offset and limits that are not negative, a
    page holds [min(limit, total - offset)] leads, and the page after a
    page continues it: the two together are the page of their joint
    length; from offset 0, a limit that reaches the total gives every
    selected lead. *)
Theorem leads_paging (priority : option Priority) (ctry : option string)
  (offset limit limit2 : Z) (LEADS : LeadStore) :
  (0 <= offset)%Z -> (0 <= limit)%Z -> (0 <= limit2)%Z ->
  length (items (leads priority ctry limit offset LEADS))
  = Nat.min (Z.to_nat limit)
      (total (leads priority ctry limit offset LEADS) - Z.to_nat offset)
  /\ (items (leads priority ctry limit offset LEADS)
      ++ items (leads priority ctry limit2 (offset + limit) LEADS))%list
     = items (leads priority ctry (limit + limit2) offset LEADS)
  /\ ((Z.of_nat (total (leads priority ctry limit 0 LEADS)) <= limit)%Z ->
      Permutation (items (leads priority ctry limit 0 LEADS))
        (leads_rows priority ctry LEADS)).
Proof.
  intros Ho Hl Hl2. unfold leads. cbn [items total].
  set (rows := leads_rows priority ctry LEADS).
  rewrite !py_slice_forward by lia. split; [|split].
  - rewrite length_firstn, length_skipn, sort_by_length. reflexivity.
  - rewrite !Z2Nat.inj_add by lia. rewrite firstn_add, skipn_skipn.
    now rewrite (Nat.add_comm (Z.to_nat limit)).
  - intros Hall. change (Z.to_nat 0) with 0%nat. rewrite skipn_O.
    rewrite firstn_all2 by (rewrite sort_by_length; lia).
    apply sort_by_perm.
Qed.

Lemma leads_paging_witness :
  length (items (leads None None 200 0 one_lead_store)) = 1%nat.
Proof.
  rewrite (proj1 (leads_paging None None 0 200 0 one_lead_store
                    ltac:(lia) ltac:(lia) ltac:(lia))).
  reflexivity.
Defined.


(** ** Deep enrichment: the targets and the page budget *)

Lemma slice_to_firstn {A} (n : Z) (l : list A) :
  exists m, slice_to n l = firstn m l /\ ((0 <= n)%Z -> m = Z.to_nat n).
Proof.
  unfold slice_to. destruct (0 <=? n)%Z eqn:Hn.
  - now exists (Z.to_nat n).
  - apply Z.leb_gt in Hn. eexists. split; [reflexivity | lia].
Qed.

(** X20: The targets of a deep enrichment are stored leads whose priority class
    is one of the requested ones, taken best score first; when
    [max_leads] is not negative there are at most that many; and the cut
    never keeps a lead while dropping one with a higher score. *)
Theorem deep_targets_spec (req : DeepEnrichRequest) (LEADS : LeadStore) :
  let wanted kl :=
    exists p, priority_class (snd kl) = Some p /\ In p (priorities req) in
  exists sel : list (string * Lead),
    deep_targets req LEADS = map fst sel
    /\ (forall kl, In kl sel -> In kl LEADS /\ wanted kl)
    /\ StronglySorted (fun a b => (score (snd b) <= score (snd a))%Z) sel
    /\ ((0 <= max_leads req)%Z -> (Z.of_nat (length sel) <= max_leads req)%Z)
    /\ (forall kl kept_one,
          In kl LEADS -> wanted kl -> ~ In kl sel -> In kept_one sel ->
          (score (snd kl) <= score (snd kept_one))%Z).
Proof.
  cbv zeta. unfold deep_targets.
  set (keep := fun kl : string * Lead =>
                 match priority_class (snd kl) with
                 | Some p => bool_decide (p ∈ priorities req)
                 | None => false
                 end).
  set (sorted := sort_by (fun a b => target_leb (snd a) (snd b)) (List.filter keep LEADS)).
  assert (Hkeep : forall kl, keep kl = true <->
            exists p, priority_class (snd kl) = Some p /\ In p (priorities req)).
  { intros kl. unfold keep. destruct (priority_class (snd kl)) as [p|].
    - rewrite bool_decide_eq_true, list_elem_of_In. split.
      + intros Hin. now exists p.
      + intros (p' & [= <-] & Hin). exact Hin.
    - split; [discriminate | intros (p & Hp & _); discriminate]. }
  assert (Hsorted : StronglySorted (fun a b => (score (snd b) <= score (snd a))%Z) sorted).
  { apply sort_by_strongly.
    - intros a b c Hab Hbc. lia.
    - intros a b. apply target_leb_scores.
    - intros a b. apply target_leb_scores. }
  destruct (slice_to_firstn (max_leads req) sorted) as (m & Hm & Hlen).
  exists (slice_to (max_leads req) sorted). rewrite Hm.
  split; [reflexivity|]. split; [|split; [|split]].
  - intros kl Hin. apply firstn_In, sort_by_In, filter_In in Hin.
    destruct Hin as [Hin Hk]. split; [exact Hin | now apply Hkeep].
  - now apply strongly_firstn.
  - intros Hpos. rewrite length_firstn, (Hlen Hpos). lia.
  - intros kl kept_one Hin Hwant Hout Hkept.
    assert (Hs : In kl sorted) by (apply sort_by_In, filter_In; split; [exact Hin | now apply Hkeep]).
    rewrite <- (firstn_skipn m sorted) in Hs. apply in_app_iff in Hs.
    destruct Hs as [Hs|Hs]; [contradiction|].
    exact (strongly_cut _ m sorted Hsorted kept_one kl Hkept Hs).
Qed.

(** X21: The page budget of one lead: the loop over the ranked links visits at
    most [max_pages_per_lead] pages, counting those of [visited_local];
    every page it visits is one of the ranked links, is in neither
    [visited_local] nor [visited_global] when the loop starts, is visited
    once by the loop and is recorded in [visited_global], which keeps what
    it had.  The base pages of the lead, which are fetched before the loop,
    are recorded in neither set: the loop may visit one of them again. *)
Theorem visit_ranked_budget (U : UrlLib) (N : Net) (H : Html) (depth : nat)
  (req : DeepEnrichRequest) (links : list (float * string)) :
  forall (lead : Lead) (ctx : CompanyContext) (vl vg : list string)
         (h : RobustHttp) (w : World),
  let '(_, _, vg', _, _) := visit_ranked U N H depth req links lead ctx vl vg h w in
  exists new,
    vg' = (new ++ vg)%list
    /\ (Z.of_nat (length new)
        <= Z.max 0 (max_pages_per_lead req - Z.of_nat (length vl)))%Z
    /\ (forall u, In u new -> In u (map snd links) /\ ~ In u vl /\ ~ In u vg)
    /\ NoDup new.
Proof.
  induction links as [|[sc url] links IH]; intros lead ctx vl vg h w.
  - exists []. split; [reflexivity|]. split; [cbn [length]; lia|].
    split; [intros u [] | constructor].
  - cbn [visit_ranked].
    destruct (max_pages_per_lead req <=? Z.of_nat (length vl))%Z eqn:Hfull.
    { exists []. split; [reflexivity|]. split; [cbn [length]; lia|].
      split; [intros u [] | constructor]. }
    apply Z.leb_gt in Hfull.
    assert (Hskip : forall lead ctx h w,
      let '(_, _, vg', _, _) := visit_ranked U N H depth req links lead ctx vl vg h w in
      exists new,
        vg' = (new ++ vg)%list
        /\ (Z.of_nat (length new)
            <= Z.max 0 (max_pages_per_lead req - Z.of_nat (length vl)))%Z
        /\ (forall u, In u new ->
              In u (map snd ((sc, url) :: links)) /\ ~ In u vl /\ ~ In u vg)
        /\ NoDup new).
    { intros lead0 ctx0 h0 w0. specialize (IH lead0 ctx0 vl vg h0 w0).
      destruct (visit_ranked U N H depth req links lead0 ctx0 vl vg h0 w0)
        as [[[[l1 c1] vg1] h1] w1].
      destruct IH as (new & Hvg & Hlen & Hnew & Hnd). exists new.
      split; [exact Hvg|]. split; [exact Hlen|]. split; [|exact Hnd].
      intros u Hu. destruct (Hnew u Hu) as (Hl & Hnl & Hng).
      split; [now right | now split]. }
    destruct (same_domain_only req && truthy (website lead)
              && PyStr.nonempty (url_netloc U url)
              && negb (url_netloc U url =? url_netloc U (str_opt (website lead)))%string);
      [apply Hskip|].
    destruct (bool_decide (url ∈ vl) || bool_decide (url ∈ vg)) eqn:Hseen;
      [apply Hskip|].
    apply orb_false_iff in Hseen. destruct Hseen as [Hvl Hvg].
    apply bool_decide_eq_false in Hvl, Hvg.
    rewrite list_elem_of_In in Hvl, Hvg.
    assert (Hvisit : forall lead ctx h w,
      let '(_, _, vg', _, _) :=
        visit_ranked U N H depth req links lead ctx (url :: vl) (url :: vg) h w in
      exists new,
        vg' = (new ++ vg)%list
        /\ (Z.of_nat (length new)
            <= Z.max 0 (max_pages_per_lead req - Z.of_nat (length vl)))%Z
        /\ (forall u, In u new ->
              In u (map snd ((sc, url) :: links)) /\ ~ In u vl /\ ~ In u vg)
        /\ NoDup new).
    { intros lead0 ctx0 h0 w0. specialize (IH lead0 ctx0 (url :: vl) (url :: vg) h0 w0).
      destruct (visit_ranked U N H depth req links lead0 ctx0 (url :: vl) (url :: vg)
                  h0 w0) as [[[[l1 c1] vg1] h1] w1].
      destruct IH as (new & Hvg1 & Hlen & Hnew & Hnd).
      exists (new ++ [url])%list. split; [|split; [|split]].
      - rewrite Hvg1. now rewrite <- List.app_assoc.
      - rewrite length_app. cbn [length] in *. lia.
      - intros u Hu. apply in_app_iff in Hu. destruct Hu as [Hu|[<-|[]]].
        + destruct (Hnew u Hu) as (Hl & Hnl & Hng). repeat split.
          * now right.
          * intros Hc. apply Hnl. now right.
          * intros Hc. apply Hng. now right.
        + repeat split; [now left | exact Hvl | exact Hvg].
      - apply NoDup_app. split; [exact Hnd|]. split; [|apply NoDup_singleton].
        intros u Hu Hu'. apply list_elem_of_singleton in Hu'. subst u.
        apply list_elem_of_In in Hu. destruct (Hnew url Hu) as (_ & Hnl & _).
        apply Hnl. now left. }
    destruct (fetch U N depth url h w) as [[html h1] w1].
    destruct (negb (PyStr.nonempty html)); [apply Hvisit|].
    destruct (visit_page H url html lead ctx) as [lead1 ctx1]. apply Hvisit.
Qed.


(** ** What a scan keeps of the store *)

Lemma merged_refl (l : Lead) : merged l l.
Proof.
  unfold merged. repeat split; try reflexivity; try tauto.
  - exists []. now rewrite List.app_nil_r.
  - exists []. now rewrite List.app_nil_r.
Qed.

Lemma merged_trans (a b c : Lead) : merged a b -> merged b c -> merged a c.
Proof.
  unfold merged.
  intros (A1 & A2 & A3 & A4 & A5 & A6 & A7 & A8 & A9 & A10 & A11 & A12 & A13
          & [m1 A14] & A15 & A16 & A17)
         (B1 & B2 & B3 & B4 & B5 & B6 & B7 & B8 & B9 & B10 & B11 & B12 & B13
          & [m2 B14] & B15 & B16 & B17).
  repeat match goal with |- _ /\ _ => split end; try congruence.
  - exists (m1 ++ m2)%list. rewrite B14, A14. now rewrite List.app_assoc.
  - eapply tags_grow_trans; eassumption.
  - intros Hs. rewrite B16; [now apply A16 | now rewrite A16].
  - intros Hw. rewrite B17; [now apply A17 | now rewrite A17].
Qed.

Lemma merge_lead_merged (l : Lead) (rc : RawCompany) : merged l (merge_lead l rc).
Proof.
  unfold merged, merge_lead. cbn.
  repeat match goal with |- _ /\ _ => split end; try reflexivity.
  - now eexists.
  - apply tags_grow_append_new.
  - now destruct (segment l).
  - now destruct (website l).
Qed.

Lemma store_merged_refl (LEADS : LeadStore) : store_merged LEADS LEADS.
Proof.
  split.
  - intros k l Hg. exists l. split; [exact Hg | apply merged_refl].
  - exists []. now rewrite List.app_nil_r.
Qed.

Lemma store_merged_trans (A B C : LeadStore) :
  store_merged A B -> store_merged B C -> store_merged A C.
Proof.
  intros [HAB [n1 KAB]] [HBC [n2 KBC]]. split.
  - intros k l Hg. destruct (HAB k l Hg) as (l1 & Hg1 & Hm1).
    destruct (HBC k l1 Hg1) as (l2 & Hg2 & Hm2).
    exists l2. split; [exact Hg2 | eapply merged_trans; eassumption].
  - exists (n1 ++ n2)%list. rewrite KBC, KAB. now rewrite List.app_assoc.
Qed.

Section ScanKeeps.
Context (U : UrlLib) (E : ScanEnv).

Lemma upsert_merged (t : Time) (rc : RawCompany) (LEADS : LeadStore) :
  store_merged LEADS (snd (upsert_lead_from_raw U t rc LEADS))
  /\ (forall k, k <> cid_of U rc ->
        dict_get k (snd (upsert_lead_from_raw U t rc LEADS)) = dict_get k LEADS)
  /\ exists new,
       map fst (snd (upsert_lead_from_raw U t rc LEADS)) = (map fst LEADS ++ new)%list
       /\ incl new [cid_of U rc].
Proof.
  destruct (upsert_cases U t rc LEADS)
    as [(l0 & Hg0 & ->) | [(site & Hg0 & _ & ->) | (_ & _ & ->)]]; cbn [snd].
  - split; [split|split].
    + intros k l Hg. destruct (decide (k = cid_of U rc)) as [->|Hne].
      * rewrite dict_get_set_eq. exists (merge_lead l0 rc). split; [reflexivity|].
        replace l with l0 by congruence. apply merge_lead_merged.
      * rewrite dict_get_set_ne by congruence.
        exists l. split; [exact Hg | apply merged_refl].
    + rewrite dict_set_keys, Hg0. exists []. now rewrite List.app_nil_r.
    + intros k Hne. apply dict_get_set_ne. congruence.
    + rewrite dict_set_keys, Hg0. exists []. split; [now rewrite List.app_nil_r | easy].
  - split; [split|split].
    + intros k l Hg. destruct (decide (k = cid_of U rc)) as [->|Hne]; [congruence|].
      rewrite dict_get_set_ne by congruence.
      exists l. split; [exact Hg | apply merged_refl].
    + rewrite dict_set_keys, Hg0. now eexists.
    + intros k Hne. apply dict_get_set_ne. congruence.
    + rewrite dict_set_keys, Hg0. exists [cid_of U rc]. split; [reflexivity | easy].
  - split; [apply store_merged_refl|]. split; [reflexivity|].
    exists []. split; [now rewrite List.app_nil_r | easy].
Qed.

Lemma upsert_all_merged (t : Time) (rcs : list RawCompany) :
  forall LEADS : LeadStore,
  store_merged LEADS (snd (upsert_all U t rcs LEADS))
  /\ (forall k, ~ In k (map (cid_of U) rcs) ->
        dict_get k (snd (upsert_all U t rcs LEADS)) = dict_get k LEADS)
  /\ exists new,
       map fst (snd (upsert_all U t rcs LEADS)) = (map fst LEADS ++ new)%list
       /\ incl new (map (cid_of U) rcs).
Proof.
  induction rcs as [|rc rcs IH]; intros LEADS.
  - split; [apply store_merged_refl|]. split; [reflexivity|].
    exists []. split; [now rewrite List.app_nil_r | easy].
  - destruct (upsert_merged t rc LEADS) as (Hm & Ho & new1 & Hk1 & Hi1).
    destruct (upsert_lead_from_raw U t rc LEADS) as [[l|e] L1] eqn:Hu;
      cbn [snd] in Hm, Ho, Hk1.
    + rewrite (upsert_all_cons_ok U _ _ _ _ _ _ Hu).
      destruct (IH L1) as (Hm' & Ho' & new2 & Hk2 & Hi2).
      split; [eapply store_merged_trans; eassumption|]. split.
      * intros k Hk. rewrite Ho'; [apply Ho|]; intros Hc; apply Hk; cbn [map In]; auto.
      * exists (new1 ++ new2)%list. split.
        { rewrite Hk2, Hk1. now rewrite List.app_assoc. }
        intros k Hk. apply in_app_iff in Hk. destruct Hk as [Hk|Hk].
        { apply Hi1 in Hk. destruct Hk as [<-|[]]. now left. }
        right. now apply Hi2.
    + rewrite (upsert_all_cons_raise U _ _ _ _ _ _ Hu). cbn [snd].
      split; [exact Hm|]. split.
      * intros k Hk. apply Ho. intros Hc. apply Hk. cbn [map In]. auto.
      * exists new1. split; [exact Hk1|].
        intros k Hk. apply Hi1 in Hk. destruct Hk as [<-|[]]. now left.
Qed.

(** X22: Upserting candidates never removes or reorders a stored lead: each
    lead stays under its id with its name, country, score, priority,
    contacts, context and [last_seen], gains source hits and stack tags
    only at the end, and keeps a segment or website that is set; leads
    whose id no candidate has are not touched at all; new leads are
    appended.  This holds of the store that the loop leaves, also when a
    candidate ends it with an exception. *)
Theorem upsert_all_keeps (t : Time) (rcs : list RawCompany) (LEADS : LeadStore) :
  (forall k l, dict_get k LEADS = Some l ->
     exists l', dict_get k (snd (upsert_all U t rcs LEADS)) = Some l' /\ merged l l')
  /\ (forall k, ~ In k (map (cid_of U) rcs) ->
        dict_get k (snd (upsert_all U t rcs LEADS)) = dict_get k LEADS)
  /\ exists new,
       map fst (snd (upsert_all U t rcs LEADS)) = (map fst LEADS ++ new)%list
       /\ incl new (map (cid_of U) rcs).
Proof.
  destruct (upsert_all_merged t rcs LEADS) as ([Hm _] & Ho & Hnew).
  split; [exact Hm|]. split; [exact Ho | exact Hnew].
Qed.

Lemma merge_task_merged (t : Time) (req : ScanRequest) (total : Z)
  (st : ScanState) (task : SourceName * string) :
  store_merged (ss_leads st) (ss_leads (snd (merge_task U E t req total st task))).
Proof.
  destruct task as [src c]. unfold merge_task.
  destruct (scan_task E req src c) as [rows err].
  destruct err; [apply store_merged_refl|].
  pose proof (upsert_all_merged t rows (ss_leads st)) as [Hm _].
  destruct (upsert_all U t rows (ss_leads st)) as [[u|e] leads]; exact Hm.
Qed.

Lemma merge_tasks_merged (t : Time) (req : ScanRequest) (total : Z)
  (tasks : list (SourceName * string)) :
  forall st : ScanState,
  store_merged (ss_leads st) (ss_leads (snd (merge_tasks U E t req total tasks st))).
Proof.
  induction tasks as [|task tasks IH]; intros st; [apply store_merged_refl|].
  pose proof (merge_task_merged t req total st task) as Hm.
  cbn [merge_tasks].
  destruct (merge_task U E t req total st task) as [[u|e] st1]; cbn [snd] in *.
  - eapply store_merged_trans; [exact Hm | apply IH].
  - exact Hm.
Qed.

(** X23: A scan, whether it completes or ends with an exception, keeps every
    stored lead in the sense above and appends the new ones; it registers
    its job under the new id and leaves every other job as it is. *)
Theorem start_scan_keeps (t : Time) (jid : string) (req : ScanRequest)
  (LEADS : LeadStore) (JOBS : JobRegistry) :
  let '(_, LEADS', JOBS') := start_scan U E t jid req LEADS JOBS in
  (forall k l, dict_get k LEADS = Some l ->
     exists l', dict_get k LEADS' = Some l' /\ merged l l')
  /\ (exists new, map fst LEADS' = (map fst LEADS ++ new)%list)
  /\ (exists job, JOBS' !! jid = Some job /\ job_id job = jid
                  /\ started_at job = Some t)
  /\ (forall other, other <> jid -> JOBS' !! other = JOBS !! other).
Proof.
  unfold start_scan.
  destruct (Z.min MAX_WORKERS _ <=? 0)%Z.
  - destruct (store_merged_refl LEADS) as [Hm Hk].
    split; [exact Hm|]. split; [exact Hk|]. split.
    + eexists. rewrite lookup_insert_eq. now split.
    + intros other Hne. now rewrite lookup_insert_ne.
  - match goal with
    | |- context [merge_tasks U E t req ?n ?ts ?st] =>
        destruct (merge_tasks_merged t req n ts st) as [Hm Hk];
        destruct (merge_tasks U E t req n ts st) as [[u|e] st']
    end; cbn [ss_leads snd] in Hm, Hk.
    + split; [exact Hm|]. split; [exact Hk|]. split.
      * eexists. rewrite lookup_insert_eq. now split.
      * intros other Hne. rewrite !lookup_insert_ne by congruence. reflexivity.
    + split; [exact Hm|]. split; [exact Hk|]. split.
      * eexists. rewrite lookup_insert_eq. now split.
      * intros other Hne. now rewrite lookup_insert_ne.
Qed.

End ScanKeeps.


(** ** The progress of a scan *)

Lemma source_str_inj (a b : SourceName) : source_str a = source_str b -> a = b.
Proof. destruct a, b; cbn [source_str]; intros Heq; try reflexivity; discriminate. Qed.




Section ScanProgress.
Context (U : UrlLib) (E : ScanEnv).





End ScanProgress.



(** ** The form of a company id *)







(** ** The rows of an export *)

Lemma filter_if_In {A B} (o : option A) (test : A -> B -> bool) (rows : list B) (r : B) :
  In r (filter_if o test rows) <-> In r rows /\ forall v, o = Some v -> test v r = true.
Proof.
  destruct o as [v|]; cbn [filter_if].
  - rewrite filter_In. split.
    + intros [Hin Ht]. split; [exact Hin|]. now intros v' [= <-].
    + intros [Hin Ht]. split; [exact Hin | now apply Ht].
  - split; [intros Hin; split; [exact Hin | discriminate] | tauto].
Qed.

Lemma export_leb_ranks (a b : Lead) :
  (export_leb a b = true -> ranks_before a b)
  /\ (export_leb a b = false -> ranks_before b a).
Proof.
  unfold export_leb, ranks_before.
  destruct (tier (priority_class a) <? tier (priority_class b))%Z eqn:Hlt; cbn [orb].
  - apply Z.ltb_lt in Hlt. split; [now left | discriminate].
  - apply Z.ltb_ge in Hlt.
    destruct (tier (priority_class a) =? tier (priority_class b))%Z eqn:Heq; cbn [andb].
    + apply Z.eqb_eq in Heq.
      destruct (- score a <? - score b)%Z eqn:Hs; cbn [orb].
      * apply Z.ltb_lt in Hs. split; [intros _; right; split; lia | discriminate].
      * apply Z.ltb_ge in Hs.
        destruct (- score a =? - score b)%Z eqn:Hs'; cbn [andb].
        -- apply Z.eqb_eq in Hs'. split; intros _; right; split; lia.
        -- apply Z.eqb_neq in Hs'. split; [discriminate | intros _; right; split; lia].
    + apply Z.eqb_neq in Heq. split; [discriminate | intros _; left; lia].
Qed.

(** X26: The rows of an export are exactly the stored leads that pass every
    filter that is given: equal priority class (a null priority selects the
    unscored leads), country among the listed ones without regard to
    letter case, segment among the listed ones, at least one stack tag
    among the listed ones, score not below the minimum.  Each selected lead
    is written once for each time it is stored, and the rows are in
    ranking order: a better tier first, and within a tier the higher score
    first. *)
Theorem export_rows_spec (f : ExportFilters) (LEADS : LeadStore) :
  (forall r, In r (export_rows f LEADS) <->
     In r (dict_values LEADS)
     /\ (forall v, ef_priority f = Some v -> priority_class r = v)
     /\ (forall v, ef_countries f = Some v ->
           In (PyStr.upper (country r)) (List.map PyStr.upper v))
     /\ (forall v, ef_segments f = Some v -> In (segment r) v)
     /\ (forall v, ef_stacks f = Some v -> exists t, In t (stack_tags r) /\ In t v)
     /\ (forall v, ef_min_score f = Some v -> (v <= score r)%Z))
  /\ Permutation (export_rows f LEADS) (export_selected f LEADS)
  /\ StronglySorted ranks_before (export_rows f LEADS).
Proof.
  split; [|split].
  - intros r. unfold export_rows, export_selected.
    rewrite sort_by_In, !filter_if_In.
    unfold by_priority, by_countries, by_segments, by_stacks, by_min_score.
    split.
    + intros [[[[[Hin Hp] Hc] Hs] Ht] Hm]. split; [exact Hin|].
      split; [intros v Hv; exact (bool_decide_eq_true_1 _ (Hp v Hv))|].
      split; [intros v Hv; apply list_elem_of_In;
              exact (bool_decide_eq_true_1 _ (Hc v Hv))|].
      split; [intros v Hv; apply list_elem_of_In;
              exact (bool_decide_eq_true_1 _ (Hs v Hv))|].
      split.
      * intros v Hv. destruct (proj1 (existsb_exists _ _) (Ht v Hv)) as (t & Hin' & Ht').
        exists t. split; [exact Hin'|].
        apply list_elem_of_In. exact (bool_decide_eq_true_1 _ Ht').
      * intros v Hv. apply Z.leb_le. exact (Hm v Hv).
    + intros (Hin & Hp & Hc & Hs & Ht & Hm).
      repeat match goal with |- _ /\ _ => split end; try exact Hin.
      * intros v Hv. apply bool_decide_eq_true_2. now apply Hp.
      * intros v Hv. apply bool_decide_eq_true_2, list_elem_of_In. now apply Hc.
      * intros v Hv. apply bool_decide_eq_true_2, list_elem_of_In. now apply Hs.
      * intros v Hv. destruct (Ht v Hv) as (t & Hin' & Ht').
        apply existsb_exists. exists t. split; [exact Hin'|].
        apply bool_decide_eq_true_2, list_elem_of_In. exact Ht'.
      * intros v Hv. apply Z.leb_le. now apply Hm.
  - apply sort_by_perm.
  - apply sort_by_strongly.
    + exact ranks_before_trans.
    + intros a b. apply export_leb_ranks.
    + intros a b. apply export_leb_ranks.
Qed.

Lemma md_sections_count (rows : list Lead) :
  (length (md_section HOT rows) + length (md_section WARM rows)
   + length (md_section COLD rows)
   + length (List.filter (fun r => bool_decide (priority_class r = None)) rows))%nat
  = length rows.
Proof.
  unfold md_section. induction rows as [|r rows IH]; [reflexivity|].
  cbn [List.filter]. destruct (priority_class r) as [[| |]|];
    repeat case_bool_decide; try congruence; cbn [length]; lia.
Qed.

(** X27: The Markdown report lists a row in the section of its priority class
    and nowhere else, so a lead that was never scored is in no section
    although the summary line counts it: the three sections together fall
    short of the total by the number of unscored rows.  After a scoring
    pass no row is left out. *)
Theorem md_sections_spec (f : ExportFilters) (LEADS : LeadStore) :
  let rows := export_rows f LEADS in
  (forall p r, In r (md_section p rows) <-> In r rows /\ priority_class r = Some p)
  /\ (length (md_section HOT rows) + length (md_section WARM rows)
      + length (md_section COLD rows)
      + length (List.filter (fun r => bool_decide (priority_class r = None)) rows))%nat
     = length rows
  /\ let scored_rows := export_rows f (dict_update_all score_lead LEADS) in
     (length (md_section HOT scored_rows) + length (md_section WARM scored_rows)
      + length (md_section COLD scored_rows))%nat
     = length scored_rows.
Proof.
  cbv zeta. split; [|split].
  - intros p r. unfold md_section. now rewrite filter_In, bool_decide_eq_true.
  - apply md_sections_count.
  - rewrite <- (md_sections_count (export_rows f (dict_update_all score_lead LEADS))).
    match goal with
    | |- _ = (_ + length ?l)%nat => assert (Hnone : l = []); [|rewrite Hnone; cbn; lia]
    end.
    match goal with |- List.filter ?g ?l = [] =>
      assert (Hall : forall r, In r l -> g r = false) end.
    { intros r Hin. apply bool_decide_eq_false_2.
      unfold export_rows, export_selected in Hin.
      rewrite sort_by_In, !filter_if_In in Hin.
      destruct Hin as [[[[[Hin _] _] _] _] _].
      unfold dict_values, dict_update_all in Hin. rewrite map_map in Hin.
      apply in_map_iff in Hin. destruct Hin as ([k l] & <- & _). discriminate. }
    revert Hall. generalize (export_rows f (dict_update_all score_lead LEADS)).
    intros l. induction l as [|r l IH]; intros Hall; [reflexivity|].
    cbn [List.filter]. rewrite (Hall r) by now left.
    apply IH. intros r' Hr'. apply Hall. now right.
Qed.


(** ** The rows of an adapter *)

Lemma scan_cards_ok (src : SourceName) (ctry : string) (max_items : Z)
  (cards : list Card) :
  forall (results : list RawCompany) (seen : list string),
  rows_ok src ctry results seen ->
  (Z.of_nat (length results) < Z.max 1 max_items)%Z ->
  let '(results', seen', returned) :=
    scan_cards src ctry max_items cards results seen in
  rows_ok src ctry results' seen'
  /\ (Z.of_nat (length results') <= Z.max 1 max_items)%Z
  /\ (returned = false -> (Z.of_nat (length results') < Z.max 1 max_items)%Z).
Proof.
  induction cards as [|el cards IH]; intros results seen Hok Hlen; cbn [scan_cards].
  - split; [exact Hok|]. split; [lia | intros _; exact Hlen].
  - destruct (name_ok src (card_name el)) eqn:Hname; cbn [negb]; [|now apply IH].
    case_bool_decide as Hseen; [now apply IH|].
    assert (Hok' : rows_ok src ctry (results ++ [card_row src ctry el])
                     (card_name el :: seen)).
    { destruct Hok as (Hall & Hnd & Hincl). split; [|split].
      - apply Forall_app. split; [exact Hall|]. constructor; [|constructor].
        cbn. repeat split; [exact Hname | discriminate].
      - rewrite map_app. cbn [List.map card_row rc_name].
        apply NoDup_app. split; [exact Hnd|]. split; [|apply NoDup_singleton].
        intros x Hx Hx'. apply list_elem_of_singleton in Hx'. subst x.
        apply Hseen. apply list_elem_of_In, Hincl. now apply list_elem_of_In.
      - rewrite map_app. cbn [List.map card_row rc_name].
        intros x Hx. apply in_app_iff in Hx. destruct Hx as [Hx|[<-|[]]];
          [right; now apply Hincl | now left]. }
    assert (Hlen' : length (results ++ [card_row src ctry el]) = S (length results))
      by (rewrite length_app; cbn [length]; lia).
    destruct (max_items <=? Z.of_nat (length (results ++ [card_row src ctry el])))%Z
      eqn:Hfull.
    + split; [exact Hok'|]. split; [lia | discriminate].
    + apply Z.leb_gt in Hfull. apply IH; [exact Hok' | lia].
Qed.

Section AdapterRows.
Context (U : UrlLib) (N : Net).
Context (select_cards : SourceName -> string -> list Card).
Context (urlencode_country : string -> string).

Lemma scan_urls_ok (depth : nat) (src : SourceName) (ctry : string) (max_items : Z)
  (urls : list string) :
  forall (results : list RawCompany) (seen : list string) (h : RobustHttp) (w : World),
  rows_ok src ctry results seen ->
  (Z.of_nat (length results) < Z.max 1 max_items)%Z ->
  let '(results', h', w') :=
    scan_urls U N select_cards depth src ctry max_items urls results seen h w in
  (exists seen', rows_ok src ctry results' seen')
  /\ (Z.of_nat (length results') <= Z.max 1 max_items)%Z
  /\ grows h w h' w'.
Proof.
  induction urls as [|url urls IH]; intros results seen h w Hok Hlen; cbn [scan_urls].
  - split; [now exists seen|]. split; [lia | apply grows_refl].
  - pose proof (get_grows U N depth url true h w) as Hg.
    destruct (get U N depth url true h w) as [[[html|e] h1] w1]; cbn [fst snd] in Hg.
    + pose proof (scan_cards_ok src ctry max_items (select_cards src html) results seen
                    Hok Hlen) as Hc.
      destruct (scan_cards src ctry max_items (select_cards src html) results seen)
        as [[results1 seen1] returned].
      destruct Hc as (Hok1 & Hle1 & Hlt1). destruct returned.
      * split; [now exists seen1|]. split; [exact Hle1 | exact Hg].
      * specialize (IH results1 seen1 h1 w1 Hok1 (Hlt1 eq_refl)).
        destruct (scan_urls U N select_cards depth src ctry max_items urls results1
                    seen1 h1 w1) as [[results2 h2] w2].
        destruct IH as (Hs & Hle & Hg2). split; [exact Hs|]. split; [exact Hle|].
        destruct Hg as (G1 & G2 & G3 & [n1 G4]), Hg2 as (G1' & G2' & G3' & [n2 G4']).
        repeat split; [etrans; eassumption | etrans; eassumption | congruence|].
        exists (n2 ++ n1)%list. rewrite G4', G4. now rewrite List.app_assoc.
    + specialize (IH results seen h1 w1 Hok Hlen).
      destruct (scan_urls U N select_cards depth src ctry max_items urls results seen
                  h1 w1) as [[results2 h2] w2].
      destruct IH as (Hs & Hle & Hg2). split; [exact Hs|]. split; [exact Hle|].
      destruct Hg as (G1 & G2 & G3 & [n1 G4]), Hg2 as (G1' & G2' & G3' & [n2 G4']).
      repeat split; [etrans; eassumption | etrans; eassumption | congruence|].
      exists (n2 ++ n1)%list. rewrite G4', G4. now rewrite List.app_assoc.
Qed.

(** X28: The rows an adapter returns, whatever the pages hold and however many
    of them cannot be fetched: every row carries the requested country,
    the name of the adapter's source, a name that passed the adapter's
    test and a source URL; no name occurs twice; and there are at most
    [max_items] rows, or one row when [max_items] is below one.  The ODVA
    and ROS2 adapters return no row and fetch nothing. *)
Theorem adapter_rows (depth : nat) (src : SourceName) (ctry : string) (max_items : Z)
  (h : RobustHttp) (w : World) :
  let '(rows, h', w') :=
    adapter_pages U N select_cards urlencode_country depth src ctry max_items h w in
  Forall (fun rc => rc_country rc = ctry /\ rc_source rc = src
                    /\ name_ok src (rc_name rc) = true
                    /\ rc_source_url rc <> None) rows
  /\ NoDup (List.map rc_name rows)
  /\ (Z.of_nat (length rows) <= Z.max 1 max_items)%Z
  /\ (src = ODVA_ENIP \/ src = ROS2 -> rows = [] /\ h' = h /\ w' = w).
Proof.
  unfold adapter_pages.
  assert (Hstart : rows_ok src ctry [] []).
  { split; [constructor|]. split; [constructor | easy]. }
  pose proof (scan_urls_ok depth src ctry max_items
                (adapter_urls urlencode_country src ctry) [] [] h w Hstart
                ltac:(cbn [length]; lia)) as Hs.
  assert (Hnone : src = ODVA_ENIP \/ src = ROS2 ->
            scan_urls U N select_cards depth src ctry max_items
              (adapter_urls urlencode_country src ctry) [] [] h w = ([], h, w)).
  { intros [->| ->]; reflexivity. }
  destruct (scan_urls U N select_cards depth src ctry max_items
              (adapter_urls urlencode_country src ctry) [] [] h w) as [[rows h'] w'].
  destruct Hs as ((seen' & Hall & Hnd & _) & Hle & _).
  split; [|split; [exact Hnd | split; [exact Hle|]]].
  - clear -Hall. induction Hall as [|rc r Hrc Hr IH]; constructor; [|exact IH].
    destruct Hrc as (H1 & H2 & H3 & H4 & _). auto.
  - intros Hsrc. specialize (Hnone Hsrc). now injection Hnone as -> -> ->.
Qed.

End AdapterRows.


(** ** Candidate links: one entry for each URL *)

Lemma uniq_links_spec (cands : list (float * string)) :
  forall seen : list string,
  NoDup (List.map snd (uniq_links seen cands))
  /\ (forall u, In u (List.map snd (uniq_links seen cands)) <->
        In u (List.map snd cands) /\ ~ In u seen)
  /\ (forall su, In su (uniq_links seen cands) -> In su cands).
Proof.
  induction cands as [|[s u] r IH]; intros seen; cbn [uniq_links List.map].
  - split; [constructor|]. split; [intros u; cbn; tauto | intros su []].
  - case_bool_decide as Hseen.
    + destruct (IH seen) as (Hnd & Hin & Hsub). split; [exact Hnd|]. split.
      * intros x. rewrite Hin. cbn [snd In]. apply list_elem_of_In in Hseen.
        split; [tauto|]. intros [[<-|Hx] Hns]; [contradiction | tauto].
      * intros su Hsu. right. now apply Hsub.
    + destruct (IH (u :: seen)) as (Hnd & Hin & Hsub).
      rewrite list_elem_of_In in Hseen. cbn [List.map snd]. split; [|split].
      * apply NoDup_cons. split; [|exact Hnd].
        rewrite list_elem_of_In, Hin. cbn [In]. tauto.
      * intros x. cbn [In snd]. rewrite Hin. cbn [In].
        destruct (decide (u = x)) as [->|Hne]; [tauto|]. tauto.
      * intros su [<-|Hsu]; [now left | right; now apply Hsub].
Qed.

(** X29: The links of a page after the second loop of [candidate_links]: every
    URL of the candidates is there exactly once, with one of the scores it
    was given, and nothing else is. *)
Theorem dedupe_links_spec (cands : list (float * string)) :
  NoDup (List.map snd (dedupe_links cands))
  /\ (forall u, In u (List.map snd (dedupe_links cands)) <-> In u (List.map snd cands))
  /\ (forall su, In su (dedupe_links cands) -> In su cands).
Proof.
  unfold dedupe_links.
  destruct (uniq_links_spec (sort_by link_geb cands) []) as (Hnd & Hin & Hsub).
  split; [exact Hnd|]. split.
  - intros u. rewrite Hin, !in_map_iff. split.
    + intros [(su & Hsu & Hs) _]. exists su. split; [exact Hsu | now apply sort_by_In in Hs].
    + intros (su & Hsu & Hs). split; [|tauto].
      exists su. split; [exact Hsu | now apply sort_by_In].
  - intros su Hsu. apply (sort_by_In link_geb). now apply Hsub.
Qed.


(** ** Listing by priority after scoring *)

Lemma leads_items_rows (priority : option Priority) (ctry : option string)
  (limit offset : Z) (LEADS : LeadStore) (r : Lead) :
  In r (items (leads priority ctry limit offset LEADS)) ->
  In r (leads_rows priority ctry LEADS).
Proof.
  unfold leads, py_slice. cbn [items]. intros Hin.
  apply (sort_by_In leads_leb). eapply skipn_In, firstn_In, Hin.
Qed.

(** X30: Listing by priority agrees with the score bands on every store the
    operations can build, also when leads were enriched after they were
    scored: a lead listed under HOT has a score of 70 or more, one listed
    under WARM a score from 45 to 69, one listed under COLD a score
    below 45. *)
Theorem leads_priority_band (U : UrlLib) (N : Net) (H : Html) (LEADS : LeadStore)
  (p : Priority) (ctry : option string) (limit offset : Z) :
  reachable U N H LEADS ->
  forall r, In r (items (leads (Some p) ctry limit offset LEADS)) ->
    match p with
    | HOT => (70 <= score r <= 100)%Z
    | WARM => (45 <= score r < 70)%Z
    | COLD => (0 <= score r < 45)%Z
    end.
Proof.
  intros Hr r Hin. apply leads_items_rows, leads_rows_spec in Hin.
  destruct Hin as (Hin & Hp & _). specialize (Hp p eq_refl).
  unfold dict_values in Hin. apply in_map_iff in Hin.
  destruct Hin as ([k l] & Hl & Hin). cbn [snd] in Hl. subst l.
  destruct (reachable_wf U N H LEADS Hr) as [_ Hok].
  rewrite List.Forall_forall in Hok.
  destruct (Hok _ Hin) as (_ & _ & _ & _ & Hrange & Hsc). cbn [snd] in *.
  destruct Hsc as [(Hnone & _)|(Hsome & _)]; [congruence|].
  rewrite Hp in Hsome. injection Hsome as ->. unfold priority_of.
  destruct (70 <=? score r)%Z eqn:H70; [apply Z.leb_le in H70; lia|].
  apply Z.leb_gt in H70.
  destruct (45 <=? score r)%Z eqn:H45; [apply Z.leb_le in H45 | apply Z.leb_gt in H45]; lia.
Qed.

Lemma leads_priority_band_witness :
  length (items (leads (Some WARM) None 200 0 one_lead_store)) = 1%nat
  /\ Forall (fun r => (45 <= score r < 70)%Z)
       (items (leads (Some WARM) None 200 0 one_lead_store)).
Proof.
  split; [reflexivity|].
  apply List.Forall_forall. intros r Hin.
  exact (leads_priority_band plain_urls open_net blank_html one_lead_store WARM None
           200 0 one_lead_store_reachable r Hin).
Defined.
